(** * Bishop Bot: the dice engine ([src/game/dice.py])

    A shallow embedding of [DiceManager]: the three regular expressions
    of the class and the ones used inline, the [random.randint] draws
    threaded as explicit generator state, and the methods
    [roll_simple], [parse_expression], [roll], [roll_advanced],
    [roll_with_context] and [parse_dice_in_text].

    Conventions.
    - A Python [str] is a list of ASCII characters ([str]); the
      embedding does not cover non-ASCII digits or letters.
    - A Python [int] is a [Z]. The conversions [int(s)] are those of
      numerals of at most 4300 digits, the longest CPython converts
      ([int_max_str_digits]): the properties about text of any length
      assume that its numerals fit.
    - [ValueError] is the only exception the engine raises by itself;
      it carries the kind of message the source formats.
    - [random.randint] reads a tape of arbitrary integers and reduces
      each one into the requested range, so every sequence of in-range
      draws is produced by some tape.
    - The only unbounded loop of the source, the [while] of exploding
      dice, takes a bound [fuel] on the iterations of each of its runs;
      exhausting it is the outcome [Diverge]. Nothing else consumes
      [fuel]. *)

From Stdlib Require Import List ZArith Ascii String Bool Lia Permutation Sorted.
Import ListNotations.
Local Open Scope Z_scope.

(** ** Strings *)

Definition str := list ascii.

Definition lit (s : string) : str := list_ascii_of_string s.

Definition code (c : ascii) : Z := Z.of_nat (nat_of_ascii c).

Definition in_range (lo hi : string) (c : ascii) : bool :=
  match lit lo, lit hi with
  | [a], [b] => (code a <=? code c) && (code c <=? code b)
  | _, _ => false
  end.

Definition one_of (set : string) (c : ascii) : bool :=
  existsb (Ascii.eqb c) (lit set).

(** [\d], [\w] and [\s] restricted to ASCII. The white space of
    [\s], [str.isspace], [str.strip] and [int] is the same set: the
    blank, the controls from tab to carriage return, and the four
    separators from [\x1c] to [\x1f]. *)
Definition is_digit (c : ascii) : bool := in_range "0" "9" c.

Definition is_word (c : ascii) : bool :=
  in_range "a" "z" c || in_range "A" "Z" c || is_digit c || one_of "_" c.

Definition is_space (c : ascii) : bool :=
  (code c =? 32) || ((9 <=? code c) && (code c <=? 13))
  || ((28 <=? code c) && (code c <=? 31)).

Definition is_upper (c : ascii) : bool := in_range "A" "Z" c.
Definition is_lower (c : ascii) : bool := in_range "a" "z" c.

Definition lower_char (c : ascii) : ascii :=
  if is_upper c then ascii_of_nat (nat_of_ascii c + 32) else c.

Definition upper_char (c : ascii) : ascii :=
  if is_lower c then ascii_of_nat (nat_of_ascii c - 32) else c.

(** [s.lower()], [s.upper()], [s.replace(' ', '')]. *)
Definition lower (s : str) : str := map lower_char s.
Definition upper (s : str) : str := map upper_char s.
Definition remove_spaces (s : str) : str :=
  filter (fun c => negb (Ascii.eqb c " ")) s.

(** [s.title()]: a letter is upper-cased when it follows a character
    that is not a letter, lower-cased otherwise. *)
Fixpoint title_from (prev_cased : bool) (s : str) : str :=
  match s with
  | [] => []
  | c :: t =>
      let cased := is_upper c || is_lower c in
      (if prev_cased then lower_char c else upper_char c) :: title_from cased t
  end.
Definition title (s : str) : str := title_from false s.

Definition str_eqb (a b : str) : bool :=
  if list_eq_dec ascii_dec a b then true else false.

(** ** Integers and their decimal notation *)

Definition digit_val (c : ascii) : Z := code c - 48.
Definition digit_char (d : Z) : ascii := ascii_of_nat (Z.to_nat (48 + d)).

(** [int(s)] on a string of decimal digits, of no more digits than
    [int] accepts (see [int_max_str_digits]). *)
Definition int_digits (s : str) : Z :=
  fold_left (fun acc c => acc * 10 + digit_val c) s 0.

(** [int(s)] on an optional sign followed by digits, with the trailing
    newline [int] tolerates. *)
Definition int_signed (s : str) : Z :=
  let body := filter (fun c => negb (is_space c)) s in
  match body with
  | c :: t =>
      if Ascii.eqb c "-" then - int_digits t
      else if Ascii.eqb c "+" then int_digits t
      else int_digits body
  | [] => 0
  end.

Fixpoint str_digits (fuel : nat) (n : Z) (acc : str) : str :=
  match fuel with
  | O => acc
  | S f =>
      let acc' := digit_char (n mod 10) :: acc in
      if n / 10 =? 0 then acc' else str_digits f (n / 10) acc'
  end.

(** [str(n)] for [n >= 0], and for every [n]. *)
Definition str_nonneg (n : Z) : str :=
  str_digits (S (Z.to_nat (Z.log2 n))) n [].

Definition str_int (n : Z) : str :=
  if n <? 0 then "-"%char :: str_nonneg (- n) else str_nonneg n.

(** [sum(l)]. *)
Definition sum (l : list Z) : Z := fold_left Z.add l 0.

(** [str(l)] of a list of integers, as an f-string prints it. *)
Fixpoint join (sep : str) (l : list str) : str :=
  match l with
  | [] => []
  | [x] => x
  | x :: t => x ++ sep ++ join sep t
  end.

Definition str_list (l : list Z) : str :=
  lit "[" ++ join (lit ", ") (map str_int l) ++ lit "]".

(** ** Regular expressions with Python's backtracking semantics *)

Module Re.

Inductive regex : Type :=
| Eps
| Cls (f : ascii -> bool)      (* one character of a class *)
| Cat (r1 r2 : regex)
| Alt (r1 r2 : regex)          (* r1|r2, r1 tried first *)
| Star (r : regex)             (* greedy r* *)
| Grp (i : nat) (r : regex)    (* capturing group number i *)
| Bol                          (* ^ *)
| Eol                          (* $ *)
| Wb.                          (* \b *)

Definition Plus (r : regex) : regex := Cat r (Star r).
Definition Opt (r : regex) : regex := Alt r Eps.
Definition Chr (c : ascii) : regex := Cls (Ascii.eqb c).

Fixpoint Lit_chars (s : str) : regex :=
  match s with
  | [] => Eps
  | c :: t => Cat (Chr c) (Lit_chars t)
  end.
Definition Lit (s : string) : regex := Lit_chars (lit s).

(** A position in the subject: the characters already passed (last
    one first) and the characters still ahead. *)
Record pos : Type := Pos { before : str; after : str }.

Definition caps := list (nat * str).

Definition word_before (p : pos) : bool :=
  match before p with c :: _ => is_word c | [] => false end.
Definition word_after (p : pos) : bool :=
  match after p with c :: _ => is_word c | [] => false end.

Definition at_eol (p : pos) : bool :=
  match after p with
  | [] => true
  | [c] => code c =? 10
  | _ => false
  end.

Definition results := list (pos * caps).

(** The iterations of a greedy star whose body is matched by [step]:
    one more iteration is tried before stopping here, and an
    iteration that consumes nothing is not repeated. [n] bounds the
    number of iterations by the characters ahead. *)
Fixpoint star_loop (step : pos -> caps -> results) (n : nat)
    (p : pos) (c : caps) : results :=
  match n with
  | O => [(p, c)]
  | S n' =>
      flat_map
        (fun pc =>
           if (List.length (after (fst pc)) <? List.length (after p))%nat
           then star_loop step n' (fst pc) (snd pc) else [])
        (step p c)
      ++ [(p, c)]
  end.

Definition consumed (p p' : pos) : str :=
  firstn (List.length (after p) - List.length (after p')) (after p).

(** All the ways [r] matches at [p], in the order a backtracking
    matcher tries them: the first one is the match Python reports. *)
Fixpoint run (r : regex) (p : pos) (c : caps) : results :=
  match r with
  | Eps => [(p, c)]
  | Cls f =>
      match after p with
      | a :: t => if f a then [(Pos (a :: before p) t, c)] else []
      | [] => []
      end
  | Cat r1 r2 => flat_map (fun pc => run r2 (fst pc) (snd pc)) (run r1 p c)
  | Alt r1 r2 => run r1 p c ++ run r2 p c
  | Star r' => star_loop (run r') (List.length (after p)) p c
  | Grp i r' =>
      map (fun pc => (fst pc, (i, consumed p (fst pc)) :: snd pc))
          (run r' p c)
  | Bol => match before p with [] => [(p, c)] | _ => [] end
  | Eol => if at_eol p then [(p, c)] else []
  | Wb => if xorb (word_before p) (word_after p) then [(p, c)] else []
  end.

(** A match object: [start()], [end()], [group(0)] and the groups. *)
Record rmatch : Type := Match {
  m_start : nat;
  m_end : nat;
  m_text : str;
  m_caps : caps
}.

Fixpoint lookup (i : nat) (c : caps) : option str :=
  match c with
  | [] => None
  | (j, s) :: t => if Nat.eqb i j then Some s else lookup i t
  end.

(** [m.group(i)], [None] when the group took no part in the match. *)
Definition group (i : nat) (m : rmatch) : option str := lookup i (m_caps m).

(** Truthiness of [m.group(i)]: neither [None] nor empty. *)
Definition group_true (i : nat) (m : rmatch) : bool :=
  match group i m with
  | Some (_ :: _) => true
  | _ => false
  end.

Definition group_or_empty (i : nat) (m : rmatch) : str :=
  match group i m with Some s => s | None => [] end.

Definition match_at (r : regex) (p : pos) : option rmatch :=
  match run r p [] with
  | (p', c) :: _ =>
      let text := consumed p p' in
      Some (Match (List.length (before p))
                  (List.length (before p) + List.length text) text c)
  | [] => None
  end.

(** [pattern.match(s)]. *)
Definition rmatch_start (r : regex) (s : str) : option rmatch :=
  match_at r (Pos [] s).

(** [pattern.search(s)]: the match at the leftmost position that has one. *)
Fixpoint search_from (r : regex) (bef : str) (s : str) : option rmatch :=
  match match_at r (Pos bef s) with
  | Some m => Some m
  | None =>
      match s with
      | [] => None
      | a :: t => search_from r (a :: bef) t
      end
  end.
Definition search (r : regex) (s : str) : option rmatch := search_from r [] s.

(** [pattern.finditer(s)]: the matches from left to right, none
    overlapping another; [skip] counts the characters of the subject
    still covered by the last match. *)
Fixpoint finditer_from (r : regex) (bef : str) (s : str) (skip : nat)
  : list rmatch :=
  let next k :=
    match s with
    | [] => []
    | a :: t => finditer_from r (a :: bef) t k
    end in
  match skip with
  | S k => next k
  | O =>
      match match_at r (Pos bef s) with
      | Some m => m :: next (m_end m - m_start m - 1)%nat
      | None => next O
      end
  end.
Definition finditer (r : regex) (s : str) : list rmatch :=
  finditer_from r [] s 0.

End Re.

Import Re.

(** ** Sorting, as [sorted] and [list.sort] do on integers *)

Section Sorting.
Variable A : Type.
Variable le : A -> A -> bool.

Fixpoint insert_by (x : A) (l : list A) : list A :=
  match l with
  | [] => [x]
  | y :: t => if le x y then x :: l else y :: insert_by x t
  end.

Definition sort_by (l : list A) : list A := fold_right insert_by [] l.
End Sorting.
Arguments insert_by {A} le x l.
Arguments sort_by {A} le l.

(** [sorted(l)] and [sorted(l, reverse=True)]. *)
Definition sorted (reverse : bool) (l : list Z) : list Z :=
  if reverse then sort_by Z.geb l else sort_by Z.leb l.

(** ** The random generator *)

Record rng : Type := Rng { tape : nat -> Z; cursor : nat }.

(** The generator after one draw. *)
Definition advance (g : rng) : rng := Rng (tape g) (S (cursor g)).

(** [random.randint(a, b)], for [a <= b]. *)
Definition randint (a b : Z) (g : rng) : Z * rng :=
  (a + tape g (cursor g) mod (b - a + 1), advance g).

(** ** Exceptions and outcomes *)

Inductive value_error : Type :=
| InvalidExpression (expression : str)   (* "Invalid dice expression: ..." *)
| InvalidParameters (num_dice sides : Z) (* "Invalid dice parameters: ..." *)
| TooManyDice (num_dice : Z)             (* "Too many dice: ... (max 100)" *)
| TooManySides (sides : Z).              (* "Too many sides: ... (max 1000)" *)

Inductive exn : Type :=
| ValueError (v : value_error)
| CharacterError.                        (* anything a character object raises *)

Inductive outcome (A : Type) : Type :=
| Ok (a : A) (g : rng)
| Raise (e : exn) (g : rng)
| Diverge.
Arguments Ok {A} a g.
Arguments Raise {A} e g.
Arguments Diverge {A}.

Definition M (A : Type) : Type := rng -> outcome A.

Definition ret {A} (a : A) : M A := fun g => Ok a g.
Definition raise {A} (e : exn) : M A := fun g => Raise e g.
Definition bind {A B} (m : M A) (k : A -> M B) : M B :=
  fun g =>
    match m g with
    | Ok a g' => k a g'
    | Raise e g' => Raise e g'
    | Diverge => Diverge
    end.

(** [try: m except Exception: h] and [try: m except ValueError: h]. *)
Definition try_except {A} (m : M A) (h : M A) : M A :=
  fun g =>
    match m g with
    | Raise _ g' => h g'
    | o => o
    end.

Definition try_except_ValueError {A} (m : M A) (h : M A) : M A :=
  fun g =>
    match m g with
    | Raise (ValueError _) g' => h g'
    | o => o
    end.

Definition draw (a b : Z) : M Z :=
  fun g => let (v, g') := randint a b g in Ok v g'.

Declare Scope dice_scope.
Notation "x <- m ;; k" := (bind m (fun x => k))
  (at level 61, m at next level, right associativity) : dice_scope.
Local Open Scope dice_scope.

(** ** The result of a roll *)

Record DiceRoll : Type := mkDiceRoll {
  expression : str;
  rolls : list Z;
  total : Z;
  breakdown : str
}.

Definition set_expression (e : str) (r : DiceRoll) : DiceRoll :=
  mkDiceRoll e (rolls r) (total r) (breakdown r).

(** ** The patterns of [DiceManager] *)

Definition digit : regex := Cls is_digit.
Definition sign : regex := Cls (one_of "+-").
Definition opchar : regex := Cls (one_of "adkxr!><").
Definition Seq (l : list regex) : regex := fold_right Cat Eps l.

(** [DICE_PATTERN]: (\d+) d (\d+) (?: ([+-]) (\d+) )? *)
Definition DICE_PATTERN : regex :=
  Seq [Grp 1 (Plus digit); Chr "d"; Grp 2 (Plus digit);
       Opt (Seq [Grp 3 sign; Grp 4 (Plus digit)])].

(** [ADV_DICE_PATTERN]: (?:(\d+))? d (\d+) ( (?: [+-]\d+ | [adkxr!><]\d* )* ) *)
Definition ADV_DICE_PATTERN : regex :=
  Seq [Opt (Grp 1 (Plus digit)); Chr "d"; Grp 2 (Plus digit);
       Grp 3 (Star (Alt (Seq [sign; Plus digit]) (Seq [opchar; Star digit])))].

(** [OPERATORS]: ([adkxr!><]) (\d* ) *)
Definition OPERATORS : regex := Seq [Grp 1 opchar; Grp 2 (Star digit)].

(** ([+-]) (\d+) $, the trailing modifier searched by [roll_advanced]. *)
Definition MODIFIER_PATTERN : regex :=
  Seq [Grp 1 sign; Grp 2 (Plus digit); Eol].

(** [expression.lower().replace(' ', '')] *)
Definition normalize (e : str) : str := remove_spaces (lower e).

(** ** [DiceManager] *)

(** [roll_simple]: [num_dice] draws from [1..sides], in order. *)
Fixpoint roll_dice (n : nat) (sides : Z) (g : rng) : list Z * rng :=
  match n with
  | O => ([], g)
  | S n' =>
      let (v, g1) := randint 1 sides g in
      let (vs, g2) := roll_dice n' sides g1 in
      (v :: vs, g2)
  end.

Definition roll_simple (num_dice sides : Z) : M (list Z) :=
  fun g => let (vs, g') := roll_dice (Z.to_nat num_dice) sides g in Ok vs g'.

Inductive operator : Type := OpPlus | OpMinus.

(** [parse_expression]: [(num_dice, sides, operator, modifier)], or
    [ValueError] when [DICE_PATTERN] does not match. *)
Definition parse_expression (e : str) : exn + (Z * Z * operator * Z) :=
  match rmatch_start DICE_PATTERN (normalize e) with
  | None => inl (ValueError (InvalidExpression e))
  | Some m =>
      let num_dice := int_digits (group_or_empty 1 m) in
      let sides := int_digits (group_or_empty 2 m) in
      if group_true 3 m && group_true 4 m
      then
        let op := if str_eqb (group_or_empty 3 m) (lit "+")
                  then OpPlus else OpMinus in
        inr (num_dice, sides, op, int_digits (group_or_empty 4 m))
      else inr (num_dice, sides, OpPlus, 0)
  end.

Definition lift {A} (r : exn + A) : M A :=
  match r with
  | inl e => raise e
  | inr a => ret a
  end.

(** The three range checks shared by [roll] and [roll_advanced]. *)
Definition validate (num_dice sides : Z) : exn + unit :=
  if (num_dice <=? 0) || (sides <=? 0)
  then inl (ValueError (InvalidParameters num_dice sides))
  else if 100 <? num_dice then inl (ValueError (TooManyDice num_dice))
  else if 1000 <? sides then inl (ValueError (TooManySides sides))
  else inr tt.

Definition simple_breakdown (op : operator) (dice_sum modifier : Z) : str :=
  if modifier =? 0 then str_int dice_sum
  else str_int dice_sum
       ++ lit (match op with OpPlus => " + " | OpMinus => " - " end)
       ++ str_int modifier.

Definition simple_total (op : operator) (dice_sum modifier : Z) : Z :=
  match op with
  | OpPlus => dice_sum + modifier
  | OpMinus => dice_sum - modifier
  end.

(** [roll] *)
Definition roll (e : str) : M DiceRoll :=
  p <- lift (parse_expression e) ;;
  let '(num_dice, sides, op, modifier) := p in
  _ <- lift (validate num_dice sides) ;;
  rs <- roll_simple num_dice sides ;;
  let dice_sum := sum rs in
  ret (mkDiceRoll e rs (simple_total op dice_sum modifier)
                  (simple_breakdown op dice_sum modifier)).

(** The option settings of [roll_advanced], with their initial values. *)
Record options : Type := mkOptions {
  advantage : bool;
  disadvantage : bool;
  keep_highest : Z;
  keep_lowest : Z;
  exploding : bool;
  reroll_threshold : Z
}.

Definition no_options : options := mkOptions false false 0 0 false 0.

(** What the loop over [OPERATORS.finditer(options)] reads of each
    match: [group(1)] and [group(2)]. *)
Definition tag : Type := (str * str)%type.

Definition tag_of (m : rmatch) : tag :=
  (group_or_empty 1 m, group_or_empty 2 m).

Definition op_is (t : tag) (c : string) : bool := str_eqb (fst t) (lit c).

(** [int(op_match.group(2)) if op_match.group(2) else 0] *)
Definition op_value (t : tag) : Z :=
  match snd t with
  | [] => 0
  | digits => int_digits digits
  end.

(** One iteration of that loop. *)
Definition apply_operator (num_dice : Z) (o : options) (t : tag) : options :=
  let value := op_value t in
  let value_or dflt := if value =? 0 then dflt else value in
  if op_is t "a" then
    mkOptions true (disadvantage o) (keep_highest o) (keep_lowest o)
              (exploding o) (reroll_threshold o)
  else if op_is t "d" then
    mkOptions (advantage o) true (keep_highest o) (keep_lowest o)
              (exploding o) (reroll_threshold o)
  else if op_is t "k" then
    mkOptions (advantage o) (disadvantage o) (value_or num_dice) (keep_lowest o)
              (exploding o) (reroll_threshold o)
  else if op_is t "x" then
    mkOptions (advantage o) (disadvantage o) (keep_highest o) (value_or num_dice)
              (exploding o) (reroll_threshold o)
  else if op_is t "!" then
    mkOptions (advantage o) (disadvantage o) (keep_highest o) (keep_lowest o)
              true (reroll_threshold o)
  else if op_is t "r" then
    mkOptions (advantage o) (disadvantage o) (keep_highest o) (keep_lowest o)
              (exploding o) (value_or 1)
  else o.

Definition parse_options (num_dice : Z) (tags : list tag) : options :=
  fold_left (apply_operator num_dice) tags no_options.

(** The trailing modifier and the option text left of it. *)
Definition extract_modifier (opts : str) : Z * str :=
  match search MODIFIER_PATTERN opts with
  | Some mm =>
      let mod_value := int_digits (group_or_empty 2 mm) in
      (if str_eqb (group_or_empty 1 mm) (lit "+") then mod_value else - mod_value,
       firstn (m_start mm) opts)
  | None => (0, opts)
  end.

(** What [roll_advanced] reads from the expression before it rolls:
    [(num_dice, sides, modifier, operator tags)]. *)
Definition parse_advanced (e : str) : exn + (Z * Z * Z * list tag) :=
  match rmatch_start ADV_DICE_PATTERN (normalize e) with
  | None => inl (ValueError (InvalidExpression e))
  | Some m =>
      let num_dice := if group_true 1 m then int_digits (group_or_empty 1 m) else 1 in
      let sides := int_digits (group_or_empty 2 m) in
      let opts := group_or_empty 3 m in
      match validate num_dice sides with
      | inl err => inl err
      | inr _ =>
          let (modifier, opts') := extract_modifier opts in
          inr (num_dice, sides, modifier, map tag_of (finditer OPERATORS opts'))
      end
  end.

(** The [while roll == sides] loop of an exploding die; [fuel] bounds
    its iterations. *)
Fixpoint explode_while (fuel : nat) (sides roll : Z) (temp_rolls : list Z)
  : M (list Z) :=
  match fuel with
  | O => fun _ => Diverge
  | S fuel' =>
      if roll =? sides
      then r <- draw 1 sides ;; explode_while fuel' sides r (temp_rolls ++ [r])
      else ret temp_rolls
  end.

(** The [for _ in range(num_dice)] loop around it. *)
Fixpoint explode_for (fuel : nat) (n : nat) (sides : Z) (temp_rolls : list Z)
  : M (list Z) :=
  match n with
  | O => ret temp_rolls
  | S n' =>
      r <- draw 1 sides ;;
      t <- explode_while fuel sides r (temp_rolls ++ [r]) ;;
      explode_for fuel n' sides t
  end.

(** The reroll loop: each position at or below the threshold is
    replaced, once, from left to right. *)
Fixpoint reroll_each (threshold sides : Z) (l : list Z) : M (list Z) :=
  match l with
  | [] => ret []
  | r :: t =>
      r' <- (if r <=? threshold then draw 1 sides else ret r) ;;
      t' <- reroll_each threshold sides t ;;
      ret (r' :: t')
  end.

Definition len (l : list Z) : Z := Z.of_nat (List.length l).

(** The keep-highest and keep-lowest steps on [(rolls, breakdown)]. *)
Definition keep_step (reverse : bool) (label : string) (keep : Z)
    (rb : list Z * str) : list Z * str :=
  let (rs, bd) := rb in
  if (0 <? keep) && (keep <? len rs)
  then (firstn (Z.to_nat keep) (sorted reverse rs),
        bd ++ lit label ++ str_int keep ++ lit ")")
  else (rs, bd).

(** The branch of [roll_advanced] without advantage or disadvantage. *)
Definition roll_standard (fuel : nat) (num_dice sides : Z) (o : options)
  : M (list Z * str) :=
  rb <- (if exploding o
         then rs <- explode_for fuel (Z.to_nat num_dice) sides [] ;;
              ret (rs, lit "Exploding: " ++ str_list rs)
         else rs <- roll_simple num_dice sides ;;
              ret (rs, lit "Rolls: " ++ str_list rs)) ;;
  rb <- (if 0 <? reroll_threshold o
         then rs <- reroll_each (reroll_threshold o) sides (fst rb) ;;
              ret (rs, snd rb ++ lit " (Rerolls: "
                         ++ str_int (reroll_threshold o) ++ lit "+)")
         else ret rb) ;;
  ret (keep_step false " (Keep lowest " (keep_lowest o)
         (keep_step true " (Keep highest " (keep_highest o) rb)).

(** The branch with advantage or disadvantage: two full rolls. *)
Definition roll_twice (num_dice sides : Z) (o : options) : M (list Z * str) :=
  roll1 <- roll_simple num_dice sides ;;
  roll2 <- roll_simple num_dice sides ;;
  let sums := str_int (sum roll1) ++ lit " vs " ++ str_int (sum roll2) in
  if advantage o
  then ret (if sum roll2 <? sum roll1 then roll1 else roll2,
            lit "Advantage: " ++ sums)
  else ret (if sum roll1 <? sum roll2 then roll1 else roll2,
            lit "Disadvantage: " ++ sums).

Definition modifier_suffix (modifier : Z) : str :=
  if modifier =? 0 then []
  else lit (if 0 <? modifier then " + " else " - ") ++ str_int (Z.abs modifier).

(** The rolling part of [roll_advanced]: two full rolls under advantage
    or disadvantage, the standard roll with its options otherwise. *)
Definition roll_with_options (fuel : nat) (n s : Z) (o : options)
  : M (list Z * str) :=
  if advantage o || disadvantage o
  then roll_twice n s o
  else roll_standard fuel n s o.

(** The result built from the rolls kept and the breakdown so far. *)
Definition advanced_result (e : str) (m : Z) (rb : list Z * str) : DiceRoll :=
  mkDiceRoll e (fst rb) (sum (fst rb) + m) (snd rb ++ modifier_suffix m).

(** [roll_advanced] *)
Definition roll_advanced (fuel : nat) (e : str) : M DiceRoll :=
  p <- lift (parse_advanced e) ;;
  let '(num_dice, sides, modifier, tags) := p in
  rb <- roll_with_options fuel num_dice sides (parse_options num_dice tags) ;;
  ret (advanced_result e modifier rb).

(** ** The contextual dispatcher *)

(** The character object handed to [roll_with_context]: the two methods
    it calls, either of which may raise. *)
Record character : Type := mkCharacter {
  get_ability_modifier : str -> exn + Z;
  get_skill_bonus : str -> exn + Z
}.

Definition word : regex := Cls is_word.
Definition space : regex := Cls is_space.

(** (\w+) \s+ check *)
Definition CHECK_PATTERN : regex :=
  Seq [Grp 1 (Plus word); Plus space; Lit "check"].

(** (\w+ (?: \s+ \w+ )?) \s+ skill *)
Definition SKILL_PATTERN : regex :=
  Seq [Grp 1 (Seq [Plus word; Opt (Seq [Plus space; Plus word])]);
       Plus space; Lit "skill"].

(** ^ [+-]? \d+ $ *)
Definition BARE_MODIFIER_PATTERN : regex :=
  Seq [Bol; Opt sign; Plus digit; Eol].

(** [f"1d20{mod_sign}{modifier}"] *)
Definition d20_with (modifier : Z) : str :=
  lit "1d20" ++ (if 0 <=? modifier then lit "+" else []) ++ str_int modifier.

(** The value of the local [expression] once the dispatch is made: the
    branch without a character check rewrites an input without a [d]. *)
Definition rewritten (e : str) : str :=
  if negb (existsb (Ascii.eqb "d") e)
  then match rmatch_start BARE_MODIFIER_PATTERN e with
       | Some _ => d20_with (int_signed e)
       | None => lit "1d20"
       end
  else e.

Inductive dispatch : Type :=
| AbilityCheck (c : character) (ability : str)
| SkillCheck (c : character) (skill : str)
| StandardRoll.

Definition dispatch_of (e : str) (who : option character) : dispatch :=
  let ability_match := rmatch_start CHECK_PATTERN (lower e) in
  let skill_match := rmatch_start SKILL_PATTERN (lower e) in
  match who, ability_match, skill_match with
  | Some c, Some am, _ => AbilityCheck c (lower (group_or_empty 1 am))
  | Some c, None, Some sm => SkillCheck c (lower (group_or_empty 1 sm))
  | _, _, _ => StandardRoll
  end.

(** The body of the outer [try] of [roll_with_context]. *)
Definition context_body (fuel : nat) (e : str) (who : option character)
  : M DiceRoll :=
  match dispatch_of e who with
  | AbilityCheck c ability =>
      modifier <- lift (get_ability_modifier c ability) ;;
      let dice_expr := d20_with modifier in
      result <- roll dice_expr ;;
      ret (set_expression
             (upper ability ++ lit " check (" ++ dice_expr ++ lit ")") result)
  | SkillCheck c skill =>
      skill_bonus <- lift (get_skill_bonus c skill) ;;
      let dice_expr := d20_with skill_bonus in
      result <- roll dice_expr ;;
      ret (set_expression
             (title skill ++ lit " check (" ++ dice_expr ++ lit ")") result)
  | StandardRoll =>
      try_except_ValueError (roll_advanced fuel (rewritten e))
                            (roll (rewritten e))
  end.

(** The [expression] the handler of the outer [try] sees: the
    rewritten one in the branch without a check, where the rewriting
    is done before anything is rolled ([int] of a numeral within its
    limit does not raise). *)
Definition handler_expression (e : str) (who : option character) : str :=
  match dispatch_of e who with
  | StandardRoll => rewritten e
  | _ => e
  end.

(** [roll_with_context] *)
Definition roll_with_context (fuel : nat) (e : str) (who : option character)
  : M DiceRoll :=
  try_except (context_body fuel e who)
    (try_except (roll (handler_expression e who)) (roll (lit "1d20"))).

(** ** Dice in free text *)

(** \b ( \d+ d \d+ (?: [+-] \d+ )? ) \b *)
Definition TEXT_STANDARD_PATTERN : regex :=
  Seq [Wb;
       Grp 1 (Seq [Plus digit; Chr "d"; Plus digit;
                   Opt (Seq [sign; Plus digit])]);
       Wb].

(** \b (?: \d+ )? d \d+ (?: [adkxr!><] \d* )* (?: [+-] \d+ )? \b *)
Definition TEXT_ADVANCED_PATTERN : regex :=
  Seq [Wb; Opt (Plus digit); Chr "d"; Plus digit;
       Star (Seq [opchar; Star digit]);
       Opt (Seq [sign; Plus digit]); Wb].

(** [list(set(expressions))]: each string once. The iteration order of
    a Python set is not specified; the order of first occurrence is the
    one taken here. *)
Fixpoint dedup (l : list str) : list str :=
  match l with
  | [] => []
  | x :: t => x :: filter (fun y => negb (str_eqb x y)) (dedup t)
  end.

(** [expressions.sort(key=len, reverse=True)], a stable sort. *)
Definition longest_first (l : list str) : list str :=
  sort_by (fun a b => (List.length b <=? List.length a)%nat) l.

Definition candidates (text : str) : list str :=
  let standard := map (group_or_empty 1) (finditer TEXT_STANDARD_PATTERN text) in
  let advanced := map m_text (finditer TEXT_ADVANCED_PATTERN text) in
  longest_first (dedup (standard ++ advanced)).

(** The loop of [parse_dice_in_text], [results] being its accumulator. *)
Fixpoint roll_candidates (fuel : nat) (exprs : list str)
    (results : list DiceRoll) : M (list DiceRoll) :=
  match exprs with
  | [] => ret results
  | expr :: rest =>
      results' <- try_except
                    (result <- roll_with_context fuel expr None ;;
                     ret (results ++ [result]))
                    (ret results) ;;
      roll_candidates fuel rest results'
  end.

(** [parse_dice_in_text] *)
Definition parse_dice_in_text (fuel : nat) (text : str) : M (list DiceRoll) :=
  roll_candidates fuel (candidates text) [].

(** ** Vocabulary of the properties *)

Definition between (lo hi x : Z) : Prop := lo <= x <= hi.

(** Whether the option text holds a tag with the letter [c]. *)
Definition has_flag (c : string) (tags : list tag) : bool :=
  existsb (fun t => op_is t c) tags.

(** A generator whose tape starts with the given integers. *)
Definition rng_of (draws : list Z) : rng := Rng (fun i => nth i draws 0) 0.

(** The rolls that are faces of a die with [sides] sides. *)
Definition faces (sides : Z) : list Z -> Prop := Forall (between 1 sides).

(** What holds of the value an action returns, if it returns one. *)
Definition post {A} (P : A -> Prop) (o : outcome A) : Prop :=
  match o with
  | Ok a _ => P a
  | _ => True
  end.

(** The number of sides each grammar reads from an expression. *)
Definition simple_sides (e : str) : option Z :=
  match parse_expression e with
  | inr (_, s, _, _) => Some s
  | inl _ => None
  end.

Definition advanced_sides (e : str) : option Z :=
  match parse_advanced e with
  | inr (_, s, _, _) => Some s
  | inl _ => None
  end.

Definition in_bounds (n s : Z) : Prop := 1 <= n <= 100 /\ 1 <= s <= 1000.

(** The inputs [roll] rejects: [DICE_PATTERN] does not match, or the
    count or the sides it reads are out of bounds. *)
Definition rejected (e : str) : Prop :=
  rmatch_start DICE_PATTERN (normalize e) = None \/
  exists n s op m, parse_expression e = inr (n, s, op, m) /\ ~ in_bounds n s.

Definition set_keep_highest (v : Z) (o : options) : options :=
  mkOptions (advantage o) (disadvantage o) v (keep_lowest o)
            (exploding o) (reroll_threshold o).

Definition rolls_and_total (o : outcome DiceRoll) : option (list Z * Z) :=
  match o with
  | Ok r _ => Some (rolls r, total r)
  | _ => None
  end.

Definition is_digit_list (ds : str) : Prop := Forall (fun c => is_digit c = true) ds.

Definition int_step (acc : Z) (c : ascii) : Z := acc * 10 + digit_val c.

Definition first_result (l : results) : option (pos * caps) := hd_error l.

Definition no_digit_ahead (rest : str) : Prop :=
  match rest with
  | [] => True
  | c :: _ => is_digit c = false
  end.

(** [f"{count}d{sides}"] *)
Definition plain_expression (count sides : Z) : str :=
  str_int count ++ lit "d" ++ str_int sides.

(** [p'] lies at or after [p] in the same subject. *)
Definition advances (p p' : pos) : Prop :=
  exists pre, after p = pre ++ after p'.

Definition monotone (step : pos -> caps -> results) : Prop :=
  forall p c pc, In pc (step p c) -> advances p (fst pc).

(** The two strict entry points. *)
Inductive entry : Type :=
| Simple
| Advanced (fuel : nat).

Definition run_entry (en : entry) : str -> M DiceRoll :=
  match en with
  | Simple => roll
  | Advanced fuel => roll_advanced fuel
  end.

(** ** Expressions as callers format them *)

Definition op_text (op : operator) : str :=
  match op with
  | OpPlus => lit "+"
  | OpMinus => lit "-"
  end.

(** [f"{count}d{sides}{op}{modifier}"] *)
Definition modified_expression (count sides : Z) (op : operator) (modifier : Z)
  : str :=
  str_int count ++ lit "d" ++ str_int sides ++ op_text op ++ str_int modifier.

(** One option of the advanced grammar, the body of the star in
    [ADV_DICE_PATTERN]: [+-]\d+ | [adkxr!><]\d* *)
Definition option_token : regex :=
  Alt (Seq [sign; Plus digit]) (Seq [opchar; Star digit]).

(** An optional option letter and an optional signed number, the two
    parts of the option text the callers of the engine write. *)
Definition flag_text (f : option ascii) : str :=
  match f with
  | Some c => [c]
  | None => []
  end.

Definition flag_tags (f : option ascii) : list tag :=
  match f with
  | Some c => [([c], [])]
  | None => []
  end.

Definition is_flag (f : option ascii) : Prop :=
  match f with
  | Some c => one_of "adkxr!><" c = true
  | None => True
  end.

Definition suffix_text (m : option (ascii * str)) : str :=
  match m with
  | Some (sg, ds) => sg :: ds
  | None => []
  end.

Definition suffix_value (m : option (ascii * str)) : Z :=
  match m with
  | Some (sg, ds) => if Ascii.eqb sg "+" then int_digits ds else - int_digits ds
  | None => 0
  end.

Definition is_suffix (m : option (ascii * str)) : Prop :=
  match m with
  | Some (sg, ds) => one_of "+-" sg = true /\ is_digit_list ds /\ ds <> []
  | None => True
  end.

Definition sign_of (op : operator) : ascii :=
  match op with
  | OpPlus => "+"
  | OpMinus => "-"
  end.

(** How a kept die compares with a dropped one: under keep-highest
    ([reverse]) it is at least as high, under keep-lowest at most. *)
Definition keep_order (reverse : bool) (kept dropped : Z) : Prop :=
  if reverse then dropped <= kept else kept <= dropped.

(** What the reroll loop does to one die: a die at or below the
    threshold becomes a face of the die, a die above it stays. *)
Definition rerolled (threshold sides x x' : Z) : Prop :=
  if x <=? threshold then between 1 sides x' else x' = x.

Definition at_or_below (threshold : Z) (l : list Z) : list Z :=
  filter (fun x => x <=? threshold) l.

(** The dice of a roll that did not land on the maximum face. *)
Definition below_max (sides : Z) (l : list Z) : list Z :=
  filter (fun x => negb (x =? sides)) l.

(** The next draw of a twenty-sided die. *)
Definition d20 (g : rng) : Z := fst (randint 1 20 g).

(** A generator that, from its cursor on, never draws the maximum face
    of a die with [sides] sides. *)
Definition never_max (sides : Z) (g : rng) : Prop :=
  forall i, (cursor g <= i)%nat ->
            fst (randint 1 sides (Rng (tape g) i)) <> sides.

(** The signed number written for [m]: its sign and the digits of its
    absolute value. *)
Definition signed_suffix (m : Z) : option (ascii * str) :=
  Some (if 0 <=? m then "+"%char else "-"%char, str_nonneg (Z.abs m)).

(** One twenty-sided die under a flag: the draw itself, the higher of
    two draws under [a], the lower under [d]; and the generator left. *)
Definition d20_pick (f : option ascii) (g : rng) : Z * rng :=
  match f with
  | None => (d20 g, advance g)
  | Some c =>
      (if Ascii.eqb c "a"
       then Z.max (d20 g) (d20 (advance g))
       else Z.min (d20 g) (d20 (advance g)),
       advance (advance g))
  end.

(** ** The dice commands ([bot/commands/dice_commands.py]) *)

(** [s.strip()]. *)
Fixpoint lstrip (s : str) : str :=
  match s with
  | c :: t => if is_space c then lstrip t else s
  | [] => []
  end.

Definition strip (s : str) : str := rev (lstrip (rev (lstrip s))).

Definition startswith (c : ascii) (s : str) : bool :=
  match s with
  | a :: _ => Ascii.eqb a c
  | [] => false
  end.

(** The modifier text of [advantage_command] and
    [disadvantage_command], cleaned: stripped, and given a [+] when it
    is not empty and has no sign. *)
Definition clean_modifier (modifier : str) : str :=
  let stripped := strip modifier in
  match stripped with
  | [] => stripped
  | _ => if negb (startswith "+" stripped) && negb (startswith "-" stripped)
         then "+"%char :: stripped else stripped
  end.

(** The roll of [advantage_command]: [roll_advanced(f"1d20a{mod}")]. *)
Definition advantage_command (fuel : nat) (modifier : str) : M DiceRoll :=
  roll_advanced fuel (lit "1d20a" ++ clean_modifier modifier).

(** The roll of [disadvantage_command]: [roll_advanced(f"1d20d{mod}")]. *)
Definition disadvantage_command (fuel : nat) (modifier : str) : M DiceRoll :=
  roll_advanced fuel (lit "1d20d" ++ clean_modifier modifier).

(** The expression [ability_check_command] builds from its integer
    modifier and its two switches. *)
Definition roll_type (advantage disadvantage : bool) : option ascii :=
  if advantage && negb disadvantage then Some "a"%char
  else if disadvantage && negb advantage then Some "d"%char
  else None.

Definition ability_check_expression (modifier : Z)
    (advantage disadvantage : bool) : str :=
  let dice_expr := lit "1d20" ++ flag_text (roll_type advantage disadvantage) in
  if negb (modifier =? 0)
  then dice_expr ++ (if 0 <? modifier then lit "+" else []) ++ str_int modifier
  else dice_expr.

(** The roll of [ability_check_command]. *)
Definition ability_check_command (fuel : nat) (modifier : Z)
    (advantage disadvantage : bool) : M DiceRoll :=
  roll_with_context fuel (ability_check_expression modifier advantage disadvantage)
                    None.

(** A signed or unsigned integer as text: an optional sign [pre] and
    digits [ds]; its value, and the sign it carries. *)
Definition integer_text (pre ds : str) : Prop :=
  (pre = [] \/ pre = lit "+" \/ pre = lit "-") /\ is_digit_list ds /\ ds <> [].

Definition integer_value (pre ds : str) : Z :=
  if str_eqb pre (lit "-") then - int_digits ds else int_digits ds.

Definition integer_sign (pre : str) : ascii :=
  if str_eqb pre (lit "-") then "-"%char else "+"%char.

(** No character of the class [f] comes next. *)
Definition none_ahead (f : ascii -> bool) (rest : str) : Prop :=
  match rest with
  | [] => True
  | c :: _ => f c = false
  end.

(** ** Characters ([characters/manager.py]) *)

(** A dict with string keys, and [d.get(k)]. *)
Definition dict (A : Type) : Type := list (str * A).

Fixpoint dict_get {A : Type} (k : str) (d : dict A) : option A :=
  match d with
  | [] => None
  | (k', v) :: t => if str_eqb k k' then Some v else dict_get k t
  end.

Module Character.

(** An entry of [skills]: the keys [ability], [proficient] and
    [expertise], each of which may be absent. *)
Record skill_info : Type := mkSkill {
  ability : option str;
  proficient : option bool;
  expertise : option bool
}.

(** The fields of [Character] its three bonus methods read. *)
Record t : Type := mkCharacter {
  level : Z;
  attributes : dict Z;
  skills : dict skill_info
}.

(** [get_ability_modifier] *)
Definition get_ability_modifier (self : t) (ability : str) : Z :=
  let ability := lower ability in
  match dict_get ability (attributes self) with
  | Some score => (score - 10) / 2
  | None => 0
  end.

(** [get_proficiency_bonus] *)
Definition get_proficiency_bonus (self : t) : Z :=
  1 + (level self - 1) / 4.

Definition get_or {A : Type} (o : option A) (default : A) : A :=
  match o with
  | Some a => a
  | None => default
  end.

(** [get_skill_bonus] *)
Definition get_skill_bonus (self : t) (skill : str) : Z :=
  let skill := lower skill in
  match dict_get skill (skills self) with
  | None => 0
  | Some info =>
      let ability := get_or (ability info) (lit "dexterity") in
      let proficient := get_or (proficient info) false in
      let expertise := get_or (expertise info) false in
      let modifier := get_ability_modifier self ability in
      let prof_bonus := get_proficiency_bonus self in
      if expertise then modifier + prof_bonus * 2
      else if proficient then modifier + prof_bonus
      else modifier
  end.

End Character.

(** A [Character] as the object [roll_with_context] is handed: its two
    methods, neither of which raises. *)
Definition as_character (c : Character.t) : character :=
  mkCharacter (fun ability => inr (Character.get_ability_modifier c ability))
              (fun skill => inr (Character.get_skill_bonus c skill)).

(** The phrase of an ability check: a name, blanks, the word [check]
    and anything after it. *)
Definition check_phrase (name blanks tail : str) : str :=
  name ++ blanks ++ lit "check" ++ tail.

(** [f"{ability.upper()} check ({dice_expr})"] *)
Definition check_label (ability : str) (modifier : Z) : str :=
  upper ability ++ lit " check (" ++ d20_with modifier ++ lit ")".

(** The die reported by a roll of two twenty-sided dice under [o]. *)
Definition d20_of_two (o : options) (g : rng) : Z :=
  if advantage o
  then Z.max (d20 g) (d20 (advance g))
  else Z.min (d20 g) (d20 (advance g)).

(** [f"{skill.title()} check ({dice_expr})"] *)
Definition skill_label (skill : str) (bonus : Z) : str :=
  title skill ++ lit " check (" ++ d20_with bonus ++ lit ")".

(** No lower-case [d] in the text. *)
Definition no_d (s : str) : Prop := existsb (Ascii.eqb "d") s = false.

(** Longest first. *)
Definition not_shorter (a b : str) : Prop :=
  (List.length b <= List.length a)%nat.

(** The [Roll Type] field of the card [ability_check_command] sends. *)
Definition roll_type_field (advantage disadvantage : bool) : str :=
  if advantage then lit "Advantage"
  else if disadvantage then lit "Disadvantage"
  else lit "Normal".

(** [f"d{sides}"], a die without a count. *)
Definition countless_expression (sides : Z) : str :=
  lit "d" ++ str_int sides.

(** ** Numerals [int] converts *)

(** [sys.int_max_str_digits]: CPython's [int] raises a [ValueError] on a
    numeral of more digits than this, leading zeros counted (4300
    unless the interpreter is set up otherwise, which the bot does not
    do). [int_digits] and [int_signed] are the conversion of the
    numerals within the limit, and the properties that have the engine
    convert text of any length are stated for text whose numerals fit. *)
Definition int_max_str_digits : nat := 4300.

Definition digits_fit (ds : str) : bool :=
  (List.length ds <=? int_max_str_digits)%nat.

(** No run of digits of [s] is longer than [limit], [run] digits of the
    current run being already counted. *)
Fixpoint runs_fit (limit run : nat) (s : str) : bool :=
  match s with
  | [] => (run <=? limit)%nat
  | c :: t =>
      if is_digit c then runs_fit limit (S run) t
      else (run <=? limit)%nat && runs_fit limit 0 t
  end.

(** Every numeral of the expression fits, the expression being read as
    the engine reads it: lower-cased and without blanks. *)
Definition numerals_fit (e : str) : bool :=
  runs_fit int_max_str_digits 0 (normalize e).

(** The value of the draw number [k] made from [g] on a die with
    [sides] sides, the next draw being number 0. *)
Definition draw_after (sides : Z) (g : rng) (k : nat) : Z :=
  fst (randint 1 sides (Rng (tape g) (cursor g + k))).

(** ** The text of an advanced expression *)

(** An option as written: its first character, a sign or an option
    letter, and the digits after it. *)
Definition token : Type := (ascii * str)%type.

Definition is_letter (t : token) : bool := one_of "adkxr!><" (fst t).
Definition is_signed (t : token) : bool := one_of "+-" (fst t).

(** A sign and at least one digit, or a letter and any digits: what one
    turn of the star of [ADV_DICE_PATTERN] takes. *)
Definition valid_token (t : token) : Prop :=
  is_digit_list (snd t) /\
  (is_letter t = true \/ (is_signed t = true /\ snd t <> [])).

Definition token_text (t : token) : str := fst t :: snd t.

Definition options_text (toks : list token) : str :=
  List.concat (map token_text toks).

(** The text starts with a number: a digit, or a sign and a digit. *)
Definition starts_number (s : str) : bool :=
  match s with
  | c :: t =>
      is_digit c
      || (one_of "+-" c && match t with d :: _ => is_digit d | [] => false end)
  | [] => false
  end.

(** The text starts with something an option text can go on with: a
    number or an option letter. *)
Definition starts_option (s : str) : bool :=
  starts_number s
  || match s with c :: _ => one_of "adkxr!><" c | [] => false end.

(** The text starts with a [d] and a digit. *)
Definition starts_die (s : str) : bool :=
  match s with
  | c :: d :: _ => Ascii.eqb "d" c && is_digit d
  | _ => false
  end.

(** The count, when there is one, the [d] and the sides. *)
Definition head_text (count : option str) (sides : str) : str :=
  match count with Some ds => ds | None => [] end ++ "d"%char :: sides.

Definition valid_head (count : option str) (sides : str) : Prop :=
  match count with
  | Some ds => is_digit_list ds /\ ds <> []
  | None => True
  end /\ is_digit_list sides /\ sides <> [].

(** [int(match.group(1)) if match.group(1) else 1] *)
Definition count_of (count : option str) : Z :=
  match count with
  | Some ds => int_digits ds
  | None => 1
  end.

Definition count_caps (count : option str) : caps :=
  match count with
  | Some ds => [(1%nat, ds)]
  | None => []
  end.

(** What [roll_advanced] makes of the options: the last one is the
    modifier when it is a signed number, a signed number before another
    option is passed over, and the letters are the operator tags. *)
Definition last_signed (toks : list token) : option token :=
  match rev toks with
  | t :: _ => if is_signed t then Some t else None
  | [] => None
  end.

Definition modifier_of (toks : list token) : Z :=
  suffix_value (last_signed toks).

Definition before_modifier (toks : list token) : list token :=
  match last_signed toks with
  | Some _ => removelast toks
  | None => toks
  end.

Definition tags_of (toks : list token) : list tag :=
  map (fun t => ([fst t], snd t)) (filter is_letter toks).

(** The trailing text [roll] and [roll_advanced] pass over: lower-cased
    and without blanks it does not start with a number, nor, for
    [roll_advanced], with an option letter. *)
Definition tail_ignored (en : entry) (tail : str) : bool :=
  match en with
  | Simple => negb (starts_number (normalize tail))
  | Advanced _ => negb (starts_option (normalize tail))
  end.

(** The text holds the letter [a], in either case. *)
Definition mentions_a (s : str) : bool :=
  existsb (fun c => Ascii.eqb (lower_char c) "a") s.

(** No option starts here, and no digit comes next: where the star of
    [ADV_DICE_PATTERN] stops. *)
Definition no_token_ahead (rest : str) : Prop :=
  match rest with
  | [] => True
  | c :: t => is_digit c = false /\ one_of "adkxr!><" c = false /\
              (one_of "+-" c = true -> no_digit_ahead t)
  end.

(** * Properties *)

(** ** Draws *)

Lemma randint_between (a b : Z) (g : rng) :
  a <= b -> between a b (fst (randint a b g)).
Proof.
  intros Hab. unfold randint, between. simpl.
  pose proof (Z.mod_pos_bound (tape g (cursor g)) (b - a + 1)). lia.
Qed.

Lemma randint_cursor (a b : Z) (g : rng) :
  cursor (snd (randint a b g)) = S (cursor g).
Proof. reflexivity. Qed.

Lemma roll_dice_length (n : nat) (sides : Z) (g : rng) :
  List.length (fst (roll_dice n sides g)) = n.
Proof.
  revert g. induction n as [|n IH]; intros g; cbn [roll_dice]; [reflexivity|].
  destruct (randint 1 sides g) as [v g1].
  specialize (IH g1). destruct (roll_dice n sides g1) as [vs g2].
  simpl in *. now f_equal.
Qed.

Lemma roll_dice_between (n : nat) (sides : Z) (g : rng) :
  1 <= sides -> Forall (between 1 sides) (fst (roll_dice n sides g)).
Proof.
  intros Hs. revert g. induction n as [|n IH]; intros g; cbn [roll_dice]; [constructor|].
  pose proof (randint_between 1 sides g Hs) as Hv.
  destruct (randint 1 sides g) as [v g1].
  specialize (IH g1). destruct (roll_dice n sides g1) as [vs g2].
  simpl in *. now constructor.
Qed.

Lemma roll_dice_cursor (n : nat) (sides : Z) (g : rng) :
  cursor (snd (roll_dice n sides g)) = (cursor g + n)%nat.
Proof.
  revert g. induction n as [|n IH]; intros g; cbn [roll_dice]; [simpl; lia|].
  pose proof (randint_cursor 1 sides g) as Hc.
  destruct (randint 1 sides g) as [v g1].
  specialize (IH g1). destruct (roll_dice n sides g1) as [vs g2].
  simpl in *. lia.
Qed.

Lemma roll_simple_ok (num_dice sides : Z) (g : rng) :
  roll_simple num_dice sides g
  = Ok (fst (roll_dice (Z.to_nat num_dice) sides g))
       (snd (roll_dice (Z.to_nat num_dice) sides g)).
Proof.
  unfold roll_simple. now destruct (roll_dice (Z.to_nat num_dice) sides g).
Qed.

(** ** Sorting *)

Section SortingFacts.
Variable A : Type.
Variable le : A -> A -> bool.

Lemma insert_by_perm (x : A) (l : list A) :
  Permutation (x :: l) (insert_by le x l).
Proof.
  induction l as [|y l IH]; simpl; [reflexivity|].
  destruct (le x y); [reflexivity|].
  rewrite perm_swap. now apply perm_skip.
Qed.

Lemma sort_by_perm (l : list A) : Permutation l (sort_by le l).
Proof.
  induction l as [|x l IH]; simpl; [reflexivity|].
  rewrite <- insert_by_perm. now apply perm_skip.
Qed.

Hypothesis le_total : forall x y, le x y = false -> le y x = true.
Hypothesis le_trans : forall x y z, le x y = true -> le y z = true -> le x z = true.

Lemma insert_by_sorted (x : A) (l : list A) :
  StronglySorted (fun a b => le a b = true) l ->
  StronglySorted (fun a b => le a b = true) (insert_by le x l).
Proof.
  induction 1 as [|y l Hs IH Hy]; simpl.
  - repeat constructor.
  - destruct (le x y) eqn:E.
    + constructor; [now constructor|].
      constructor; [assumption|].
      eapply Forall_impl; [|exact Hy]. intros z Hz. now apply le_trans with y.
    + constructor; [assumption|].
      eapply Permutation_Forall; [apply insert_by_perm|].
      constructor; [now apply le_total | assumption].
Qed.

Lemma sort_by_sorted (l : list A) :
  StronglySorted (fun a b => le a b = true) (sort_by le l).
Proof.
  induction l as [|x l IH]; simpl; [constructor|].
  now apply insert_by_sorted.
Qed.
End SortingFacts.

Lemma sorted_perm (reverse : bool) (l : list Z) :
  Permutation l (sorted reverse l).
Proof. destruct reverse; apply sort_by_perm. Qed.

Lemma sorted_descending (l : list Z) :
  StronglySorted (fun a b => b <= a) (sorted true l).
Proof.
  unfold sorted.
  assert (H : StronglySorted (fun a b => Z.geb a b = true) (sort_by Z.geb l)).
  { apply sort_by_sorted.
    - intros x y H. rewrite Z.geb_leb in *.
      apply Z.leb_gt in H. apply Z.leb_le. lia.
    - intros x y z H1 H2. rewrite Z.geb_leb in *.
      apply Z.leb_le in H1, H2. apply Z.leb_le. lia. }
  induction H as [|x t Hs IH Hx]; constructor; [assumption|].
  eapply Forall_impl; [|exact Hx].
  intros a Ha. now apply Z.geb_le in Ha.
Qed.

(** ** Exploding dice *)

Lemma draw_ok (a b : Z) (g : rng) :
  draw a b g = Ok (fst (randint a b g)) (advance g).
Proof. reflexivity. Qed.

Lemma draw_one_sided (g : rng) : draw 1 1 g = Ok 1 (advance g).
Proof.
  rewrite draw_ok. unfold randint. cbn [fst].
  replace (1 - 1 + 1) with 1 by lia. now rewrite Z.mod_1_r.
Qed.

(** On a one-sided die every draw is the maximum face, and the [while]
    loop never leaves. *)
Lemma explode_while_one_sided (fuel : nat) (temp_rolls : list Z) (g : rng) :
  explode_while fuel 1 1 temp_rolls g = Diverge.
Proof.
  revert temp_rolls g.
  induction fuel as [|fuel IH]; intros temp_rolls g; [reflexivity|].
  cbn [explode_while]. rewrite Z.eqb_refl.
  unfold bind. rewrite draw_one_sided. apply IH.
Qed.

Lemma explode_for_one_sided (fuel n : nat) (temp_rolls : list Z) (g : rng) :
  explode_for fuel (S n) 1 temp_rolls g = Diverge.
Proof.
  cbn [explode_for]. unfold bind. rewrite draw_one_sided.
  now rewrite explode_while_one_sided.
Qed.

Lemma roll_standard_one_sided (fuel : nat) (num_dice : Z) (o : options) (g : rng) :
  1 <= num_dice -> exploding o = true ->
  roll_standard fuel num_dice 1 o g = Diverge.
Proof.
  intros Hn Ho. unfold roll_standard. rewrite Ho.
  destruct (Z.to_nat num_dice) as [|n] eqn:E; [lia|].
  unfold bind. now rewrite explode_for_one_sided.
Qed.

Lemma parse_1d1_exploding :
  parse_advanced (lit "1d1!") = inr (1, 1, 0, [(lit "!", [])]).
Proof. vm_compute. reflexivity. Qed.

Lemma roll_advanced_1d1_exploding (fuel : nat) (g : rng) :
  roll_advanced fuel (lit "1d1!") g = Diverge.
Proof.
  unfold roll_advanced, bind. rewrite parse_1d1_exploding.
  cbn [lift ret].
  change (parse_options 1 [(lit "!", [])])
    with (mkOptions false false 0 0 true 0).
  unfold roll_with_options. cbn [advantage disadvantage orb].
  rewrite roll_standard_one_sided; [reflexivity | lia | reflexivity].
Qed.

(** ** [roll] and [roll_advanced] once the expression is parsed *)

Lemma roll_parsed (e : str) (g : rng) (n s m : Z) (op : operator) :
  parse_expression e = inr (n, s, op, m) ->
  validate n s = inr tt ->
  let rs := fst (roll_dice (Z.to_nat n) s g) in
  roll e g = Ok (mkDiceRoll e rs (simple_total op (sum rs) m)
                            (simple_breakdown op (sum rs) m))
                (snd (roll_dice (Z.to_nat n) s g)).
Proof.
  intros Hp Hv rs. unfold roll, bind. rewrite Hp. cbn [lift ret].
  rewrite Hv. cbn [lift ret]. rewrite roll_simple_ok.
  destruct op; reflexivity.
Qed.
Arguments roll_parsed e g {n s m op}.

Lemma roll_unparsed (e : str) (g : rng) (err : exn) :
  parse_expression e = inl err -> roll e g = Raise err g.
Proof. intros Hp. unfold roll, bind. now rewrite Hp. Qed.

Lemma roll_invalid (e : str) (g : rng) (n s m : Z) (op : operator) (err : exn) :
  parse_expression e = inr (n, s, op, m) ->
  validate n s = inl err ->
  roll e g = Raise err g.
Proof.
  intros Hp Hv. unfold roll, bind. rewrite Hp. cbn [lift ret]. now rewrite Hv.
Qed.
Arguments roll_invalid e g {n s m op err}.

Lemma validate_ok (n s : Z) :
  validate n s = inr tt <-> (1 <= n <= 100 /\ 1 <= s <= 1000).
Proof.
  unfold validate.
  destruct (n <=? 0) eqn:E1; destruct (s <=? 0) eqn:E2;
    destruct (100 <? n) eqn:E3; destruct (1000 <? s) eqn:E4; cbn [orb];
    split; intros H; try discriminate; try reflexivity; lia.
Qed.

Lemma validate_cases (n s : Z) :
  validate n s = inr tt \/ exists v, validate n s = inl (ValueError v).
Proof.
  unfold validate.
  destruct ((n <=? 0) || (s <=? 0)); [right; eauto|].
  destruct (100 <? n); [right; eauto|].
  destruct (1000 <? s); [right; eauto|]. now left.
Qed.

Lemma roll_advanced_parsed (fuel : nat) (e : str) (g : rng)
    (n s m : Z) (tags : list tag) :
  parse_advanced e = inr (n, s, m, tags) ->
  roll_advanced fuel e g
  = match roll_with_options fuel n s (parse_options n tags) g with
    | Ok rb g' => Ok (advanced_result e m rb) g'
    | Raise err g' => Raise err g'
    | Diverge => Diverge
    end.
Proof. intros Hp. unfold roll_advanced, bind. now rewrite Hp. Qed.
Arguments roll_advanced_parsed fuel e g {n s m tags}.

Lemma roll_advanced_unparsed (fuel : nat) (e : str) (g : rng) (err : exn) :
  parse_advanced e = inl err -> roll_advanced fuel e g = Raise err g.
Proof. intros Hp. unfold roll_advanced, bind. now rewrite Hp. Qed.

Lemma parse_advanced_valid (e : str) (n s m : Z) (tags : list tag) :
  parse_advanced e = inr (n, s, m, tags) ->
  1 <= n <= 100 /\ 1 <= s <= 1000.
Proof.
  unfold parse_advanced.
  destruct (rmatch_start ADV_DICE_PATTERN (normalize e)) as [mt|]; [|discriminate].
  destruct (validate _ _) as [err|[]] eqn:Hv; [discriminate|].
  destruct (extract_modifier _) as [md opts'].
  intros H. injection H as <- <- _ _. now apply validate_ok.
Qed.
Arguments parse_advanced_valid {e n s m tags}.

(** C2 (the code against the claim): [roll_advanced] has no cap on the
    rerolls of a die. An exploding one-sided die ([1d1!], and any
    expression read as [sides = 1] with [!] and without [a] or [d])
    draws the maximum face every time; the [while roll == sides] loop is
    still running after any number of iterations, whatever the generator
    yields. *)
Theorem exploding_one_sided_die_never_returns (fuel : nat) (g : rng) :
  roll_advanced fuel (lit "1d1!") g = Diverge /\
  forall e n m tags,
    parse_advanced e = inr (n, 1, m, tags) ->
    advantage (parse_options n tags) || disadvantage (parse_options n tags) = false ->
    exploding (parse_options n tags) = true ->
    roll_advanced fuel e g = Diverge.
Proof.
  split; [apply roll_advanced_1d1_exploding|].
  intros e n m tags Hp Hadv Hex.
  unfold roll_advanced, bind, roll_with_options.
  rewrite Hp. cbn [lift ret]. rewrite Hadv.
  rewrite roll_standard_one_sided; [reflexivity | | assumption].
  apply parse_advanced_valid in Hp. lia.
Qed.

(** ** Keep highest *)

Lemma parse_4d6k3 :
  parse_advanced (lit "4d6k3") = inr (4, 6, 0, [(lit "k", lit "3")]).
Proof. vm_compute. reflexivity. Qed.

Lemma four_rolls (g : rng) (sides : Z) :
  exists a b c d, fst (roll_dice 4 sides g) = [a; b; c; d].
Proof.
  pose proof (roll_dice_length 4 sides g) as H.
  destruct (fst (roll_dice 4 sides g)) as [|a [|b [|c [|d [|x l]]]]];
    try discriminate. eauto.
Qed.

Lemma last_of_four_least (R : Z -> Z -> Prop) (w x y z : Z) :
  StronglySorted R [w; x; y; z] -> R w z /\ R x z /\ R y z.
Proof.
  intros H.
  apply StronglySorted_inv in H as [H1 Hw].
  apply StronglySorted_inv in H1 as [H2 Hx].
  apply StronglySorted_inv in H2 as [_ Hy].
  rewrite Forall_forall in Hw, Hx, Hy.
  repeat split; [apply Hw | apply Hx | apply Hy]; simpl; auto.
Qed.

(** C6: [roll_advanced("4d6k3")] returns, for every generator, exactly
    three rolls: the four dice sorted descending and cut to three, which
    are the three highest (the die left out is at most each of them),
    and the total is their sum. *)
Theorem roll_advanced_4d6k3 (fuel : nat) (g : rng) :
  exists r low,
    roll_advanced fuel (lit "4d6k3") g = Ok r (snd (roll_dice 4 6 g)) /\
    rolls r = firstn 3 (sorted true (fst (roll_dice 4 6 g))) /\
    List.length (rolls r) = 3%nat /\
    Permutation (fst (roll_dice 4 6 g)) (rolls r ++ [low]) /\
    Forall (fun x => low <= x) (rolls r) /\
    total r = sum (rolls r).
Proof.
  rewrite (roll_advanced_parsed fuel _ g parse_4d6k3).
  change (parse_options 4 [(lit "k", lit "3")])
    with (mkOptions false false 3 0 false 0).
  unfold roll_with_options, roll_standard, bind.
  cbn [advantage disadvantage exploding reroll_threshold keep_highest
       keep_lowest orb].
  rewrite roll_simple_ok. change (Z.to_nat 4) with 4%nat.
  cbn [ret fst snd Z.ltb Z.compare].
  destruct (four_rolls g 6) as (a & b & c & d & Hraw). rewrite Hraw.
  pose proof (sorted_perm true [a; b; c; d]) as Hperm.
  pose proof (sorted_descending [a; b; c; d]) as Hsort.
  pose proof (Permutation_length Hperm) as Hlen.
  destruct (sorted true [a; b; c; d]) as [|w [|x [|y [|z [|u l]]]]] eqn:Hs;
    try discriminate.
  unfold keep_step at 2. unfold len. cbn [List.length].
  change (0 <? 3) with true. change (3 <? Z.of_nat 4) with true.
  cbn [andb]. rewrite Hs. change (Z.to_nat 3) with 3%nat. cbn [firstn].
  unfold keep_step, len. cbn [List.length].
  change (0 <? 0) with false. cbn [andb].
  eexists. exists z. split; [reflexivity|].
  cbn [advanced_result rolls total fst snd firstn].
  repeat split.
  - exact Hperm.
  - destruct (last_of_four_least _ _ _ _ _ Hsort) as (Hw & Hx & Hy).
    now repeat constructor.
  - lia.
Qed.

(** ** Option tags *)

Lemma str_eqb_eq (a b : str) : str_eqb a b = true <-> a = b.
Proof.
  unfold str_eqb. destruct (list_eq_dec ascii_dec a b); split; congruence.
Qed.

Lemma op_is_exclusive (t : tag) (c1 c2 : string) :
  lit c1 <> lit c2 -> op_is t c1 = true -> op_is t c2 = false.
Proof.
  unfold op_is. intros Hne H1. apply str_eqb_eq in H1.
  destruct (str_eqb (fst t) (lit c2)) eqn:H2; [|reflexivity].
  apply str_eqb_eq in H2. congruence.
Qed.

Ltac split_op t :=
  unfold apply_operator;
  destruct (op_is t "a") eqn:?; [|
  destruct (op_is t "d") eqn:?; [|
  destruct (op_is t "k") eqn:?; [|
  destruct (op_is t "x") eqn:?; [|
  destruct (op_is t "!") eqn:?; [|
  destruct (op_is t "r") eqn:? ]]]]].

Ltac other_letter :=
  match goal with
  | H : op_is ?t ?c = true |- context [op_is ?t ?c'] =>
      rewrite (op_is_exclusive t c c' ltac:(vm_compute; discriminate) H)
  end.

Lemma apply_operator_advantage (n : Z) (o : options) (t : tag) :
  advantage (apply_operator n o t) = advantage o || op_is t "a".
Proof.
  split_op t; cbn [advantage]; now rewrite ?orb_true_r, ?orb_false_r.
Qed.

Lemma apply_operator_disadvantage (n : Z) (o : options) (t : tag) :
  disadvantage (apply_operator n o t) = disadvantage o || op_is t "d".
Proof.
  split_op t; cbn [disadvantage]; try other_letter;
    now rewrite ?orb_true_r, ?orb_false_r.
Qed.

Lemma parse_options_advantage (n : Z) (tags : list tag) :
  advantage (parse_options n tags) = has_flag "a" tags.
Proof.
  unfold parse_options.
  assert (H : forall o, advantage (fold_left (apply_operator n) tags o)
                        = advantage o || has_flag "a" tags).
  { induction tags as [|t tags IH]; intros o; cbn [fold_left has_flag existsb].
    - now rewrite orb_false_r.
    - rewrite IH, apply_operator_advantage. unfold has_flag.
      now rewrite orb_assoc. }
  now rewrite H.
Qed.

Lemma parse_options_disadvantage (n : Z) (tags : list tag) :
  disadvantage (parse_options n tags) = has_flag "d" tags.
Proof.
  unfold parse_options.
  assert (H : forall o, disadvantage (fold_left (apply_operator n) tags o)
                        = disadvantage o || has_flag "d" tags).
  { induction tags as [|t tags IH]; intros o; cbn [fold_left has_flag existsb].
    - now rewrite orb_false_r.
    - rewrite IH, apply_operator_disadvantage. unfold has_flag.
      now rewrite orb_assoc. }
  now rewrite H.
Qed.

(** ** Advantage and disadvantage *)

(** C5: when the option text of an expression whose numerals fit the
    conversion holds an [a] or a [d] tag, the dice set is rolled twice
    and nothing else is drawn; the result is one of the two sets
    unchanged, whatever other tags are present: with [a] (also next to
    [d]) the one of higher sum, with [d] alone the one of lower sum; the
    total is that sum plus the modifier. *)
Theorem advantage_rolls_twice (fuel : nat) (e : str) (g : rng)
    (n s m : Z) (tags : list tag) :
  numerals_fit e = true ->
  parse_advanced e = inr (n, s, m, tags) ->
  has_flag "a" tags || has_flag "d" tags = true ->
  let first := roll_dice (Z.to_nat n) s g in
  let second := roll_dice (Z.to_nat n) s (snd first) in
  exists r,
    roll_advanced fuel e g = Ok r (snd second) /\
    (rolls r = fst first \/ rolls r = fst second) /\
    sum (rolls r) = (if has_flag "a" tags
                     then Z.max (sum (fst first)) (sum (fst second))
                     else Z.min (sum (fst first)) (sum (fst second))) /\
    total r = sum (rolls r) + m.
Proof.
  intros _ Hp Hflag first second.
  rewrite (roll_advanced_parsed fuel e g Hp).
  unfold roll_with_options.
  rewrite parse_options_advantage, parse_options_disadvantage, Hflag.
  unfold roll_twice, bind. rewrite !roll_simple_ok.
  fold first. fold second. rewrite parse_options_advantage.
  destruct (has_flag "a" tags).
  - destruct (sum (fst second) <? sum (fst first)) eqn:E;
      eexists; (split; [reflexivity|]); cbn [advanced_result rolls total fst];
      [apply Z.ltb_lt in E | apply Z.ltb_ge in E];
      repeat split; auto; lia.
  - destruct (sum (fst first) <? sum (fst second)) eqn:E;
      eexists; (split; [reflexivity|]); cbn [advanced_result rolls total fst];
      [apply Z.ltb_lt in E | apply Z.ltb_ge in E];
      repeat split; auto; lia.
Qed.

Lemma advantage_rolls_twice_witness :
  let first := roll_dice 2 20 (rng_of [4; 17; 11; 2]) in
  let second := roll_dice 2 20 (snd first) in
  exists r,
    roll_advanced 0 (lit "2d20ad!k1+5") (rng_of [4; 17; 11; 2])
    = Ok r (snd second) /\
    (rolls r = fst first \/ rolls r = fst second) /\
    sum (rolls r) = Z.max (sum (fst first)) (sum (fst second)) /\
    total r = sum (rolls r) + 5.
Proof.
  apply (advantage_rolls_twice 0 (lit "2d20ad!k1+5") (rng_of [4; 17; 11; 2])
           2 20 5 [(lit "a", []); (lit "d", []); (lit "!", []); (lit "k", lit "1")]).
  - reflexivity.
  - vm_compute. reflexivity.
  - reflexivity.
Defined.

(** ** Every roll lies on a face of the die *)

Lemma post_bind {A B} (P : A -> Prop) (Q : B -> Prop)
    (m : M A) (k : A -> M B) (g : rng) :
  post P (m g) -> (forall a g', P a -> post Q (k a g')) -> post Q (bind m k g).
Proof.
  unfold bind. intros Hm Hk. destruct (m g); simpl in *; auto.
Qed.

Lemma post_ret {A} (P : A -> Prop) (a : A) (g : rng) : P a -> post P (ret a g).
Proof. auto. Qed.

Lemma Forall_first (A : Type) (P : A -> Prop) (n : nat) (l : list A) :
  Forall P l -> Forall P (firstn n l).
Proof.
  intros H. revert n.
  induction H as [|x l Hx Hl IH]; intros [|n]; cbn [firstn]; constructor; auto.
Qed.

Section Faces.
Variable sides : Z.
Hypothesis sides_pos : 1 <= sides.

Lemma draw_face (g : rng) : post (between 1 sides) (draw 1 sides g).
Proof. rewrite draw_ok. cbn [post]. now apply randint_between. Qed.

Lemma roll_simple_faces (n : Z) (g : rng) : post (faces sides) (roll_simple n sides g).
Proof. rewrite roll_simple_ok. cbn [post]. now apply roll_dice_between. Qed.

Lemma faces_snoc (l : list Z) (x : Z) :
  faces sides l -> between 1 sides x -> faces sides (l ++ [x]).
Proof. intros Hl Hx. apply Forall_app. split; [assumption | now constructor]. Qed.

Lemma explode_while_faces (fuel : nat) (roll : Z) (temp : list Z) (g : rng) :
  faces sides temp -> post (faces sides) (explode_while fuel sides roll temp g).
Proof.
  revert roll temp g.
  induction fuel as [|fuel IH]; intros roll temp g Ht; [exact I|].
  cbn [explode_while]. destruct (roll =? sides); [|now apply post_ret].
  eapply post_bind; [apply draw_face|].
  intros r g' Hr. apply IH. now apply faces_snoc.
Qed.

Lemma explode_for_faces (fuel n : nat) (temp : list Z) (g : rng) :
  faces sides temp -> post (faces sides) (explode_for fuel n sides temp g).
Proof.
  revert temp g.
  induction n as [|n IH]; intros temp g Ht; cbn [explode_for];
    [now apply post_ret|].
  eapply post_bind; [apply draw_face|].
  intros r g' Hr.
  eapply post_bind; [apply explode_while_faces; now apply faces_snoc|].
  intros t g'' Hfaces. now apply IH.
Qed.

Lemma reroll_each_faces (threshold : Z) (l : list Z) (g : rng) :
  faces sides l -> post (faces sides) (reroll_each threshold sides l g).
Proof.
  revert g. induction l as [|r l IH]; intros g Hl; cbn [reroll_each];
    [now apply post_ret|].
  inversion Hl as [|? ? Hr Hl']; subst.
  eapply post_bind with (P := between 1 sides).
  - destruct (r <=? threshold); [apply draw_face | now apply post_ret].
  - intros r' g' Hr'.
    eapply post_bind; [apply IH; assumption|].
    intros t' g'' Ht'. apply post_ret. now constructor.
Qed.

Lemma keep_step_faces (reverse : bool) (label : string) (keep : Z)
    (rb : list Z * str) :
  faces sides (fst rb) -> faces sides (fst (keep_step reverse label keep rb)).
Proof.
  destruct rb as [rs bd]. unfold keep_step. cbn [fst].
  destruct ((0 <? keep) && (keep <? len rs)); cbn [fst]; [|auto].
  intros H. apply Forall_first.
  eapply Permutation_Forall; [apply sorted_perm | exact H].
Qed.

Lemma roll_standard_faces (fuel : nat) (n : Z) (o : options) (g : rng) :
  post (fun rb => faces sides (fst rb)) (roll_standard fuel n sides o g).
Proof.
  unfold roll_standard.
  eapply post_bind with (P := fun rb => faces sides (fst rb)).
  - destruct (exploding o).
    + eapply post_bind; [apply explode_for_faces; constructor|].
      intros rs g' H. now apply post_ret.
    + eapply post_bind; [apply roll_simple_faces|].
      intros rs g' H. now apply post_ret.
  - intros rb g' Hrb.
    eapply post_bind with (P := fun rb => faces sides (fst rb)).
    + destruct (0 <? reroll_threshold o); [|now apply post_ret].
      eapply post_bind; [apply reroll_each_faces; exact Hrb|].
      intros rs g'' H. now apply post_ret.
    + intros rb' g'' Hrb'. apply post_ret.
      now apply keep_step_faces, keep_step_faces.
Qed.

Lemma roll_twice_faces (n : Z) (o : options) (g : rng) :
  post (fun rb => faces sides (fst rb)) (roll_twice n sides o g).
Proof.
  unfold roll_twice.
  eapply post_bind; [apply roll_simple_faces|]. intros roll1 g1 H1.
  eapply post_bind; [apply roll_simple_faces|]. intros roll2 g2 H2.
  destruct (advantage o); apply post_ret; cbn [fst];
    match goal with |- context [if ?b then _ else _] => destruct b end;
    assumption.
Qed.

Lemma roll_with_options_faces (fuel : nat) (n : Z) (o : options) (g : rng) :
  post (fun rb => faces sides (fst rb)) (roll_with_options fuel n sides o g).
Proof.
  unfold roll_with_options.
  destruct (advantage o || disadvantage o);
    [apply roll_twice_faces | apply roll_standard_faces].
Qed.
End Faces.
Arguments roll_with_options_faces {sides}.

(** C10: whenever [roll] or [roll_advanced] returns a result, each of
    its rolls lies between 1 and the number of sides of the parsed
    expression. *)
Theorem rolls_within_sides (fuel : nat) (e : str) (g g' : rng)
    (r : DiceRoll) (s : Z) :
  (roll e g = Ok r g' /\ simple_sides e = Some s) \/
  (roll_advanced fuel e g = Ok r g' /\ advanced_sides e = Some s) ->
  Forall (between 1 s) (rolls r).
Proof.
  intros [[Hroll Hs] | [Hroll Hs]].
  - unfold simple_sides in Hs.
    destruct (parse_expression e) as [err | [[[n s'] op] m]] eqn:Hp;
      [discriminate|]. injection Hs as ->.
    destruct (validate_cases n s) as [Hv | [v Hv]].
    + rewrite (roll_parsed e g Hp Hv) in Hroll. injection Hroll as <- _.
      cbn [rolls]. apply roll_dice_between. now apply validate_ok in Hv.
    + rewrite (roll_invalid e g Hp Hv) in Hroll. discriminate.
  - unfold advanced_sides in Hs.
    destruct (parse_advanced e) as [err | [[[n s'] m] tags]] eqn:Hp;
      [discriminate|]. injection Hs as ->.
    rewrite (roll_advanced_parsed fuel e g Hp) in Hroll.
    destruct (parse_advanced_valid Hp) as [_ [Hs _]].
    pose proof (roll_with_options_faces Hs fuel n (parse_options n tags) g) as H.
    destruct (roll_with_options fuel n s (parse_options n tags) g);
      try discriminate.
    injection Hroll as <- _. exact H.
Qed.

Lemma rolls_within_sides_witness :
  Forall (between 1 6) [6; 6; 5].
Proof.
  apply (rolls_within_sides 5 (lit "3d6!r2k3x3-1")
           (rng_of [5; 11; 0; 2; 3; 4])
           (Rng (tape (rng_of [5; 11; 0; 2; 3; 4])) 6)
           (mkDiceRoll (lit "3d6!r2k3x3-1") [6; 6; 5] 16
              (lit "Exploding: [6, 6, 1, 3, 4] (Rerolls: 2+) (Keep highest 3) - 1"))
           6).
  right. split; vm_compute; reflexivity.
Defined.

(** ** When [roll] raises *)

Lemma parse_expression_unmatched (e : str) :
  rmatch_start DICE_PATTERN (normalize e) = None ->
  parse_expression e = inl (ValueError (InvalidExpression e)).
Proof. intros H. unfold parse_expression. now rewrite H. Qed.

Lemma parse_expression_matched (e : str) (mt : rmatch) :
  rmatch_start DICE_PATTERN (normalize e) = Some mt ->
  exists n s op m, parse_expression e = inr (n, s, op, m).
Proof.
  intros H. unfold parse_expression. rewrite H.
  destruct (group_true 3 mt && group_true 4 mt); eauto.
Qed.

Lemma roll_cases (e : str) (g : rng) :
  (rejected e /\ exists v, roll e g = Raise (ValueError v) g) \/
  (~ rejected e /\ exists r n s op m,
      parse_expression e = inr (n, s, op, m) /\ in_bounds n s /\
      roll e g = Ok r (snd (roll_dice (Z.to_nat n) s g))).
Proof.
  destruct (rmatch_start DICE_PATTERN (normalize e)) as [mt|] eqn:Hm.
  - destruct (parse_expression_matched e mt Hm) as (n & s & op & m & Hp).
    destruct (validate_cases n s) as [Hv | [v Hv]].
    + right. split.
      * intros [Hno | (n' & s' & op' & m' & Hp' & Hb)].
        -- unfold rejected in *. congruence.
        -- rewrite Hp in Hp'. injection Hp' as <- <- _ _.
           now apply Hb, validate_ok.
      * eexists. exists n, s, op, m.
        repeat split; try (now apply validate_ok in Hv).
        apply (roll_parsed e g Hp Hv).
    + left. split.
      * right. exists n, s, op, m. split; [assumption|].
        intros Hb. apply validate_ok in Hb. congruence.
      * exists v. apply (roll_invalid e g Hp Hv).
  - left. split; [now left|].
    eexists. apply roll_unparsed. now apply parse_expression_unmatched.
Qed.

(** C3: on an input whose numerals fit the conversion, [roll] raises
    exactly when the input is rejected (on the others it returns a
    result); the error is a [ValueError] and the generator is left
    where it was: nothing is drawn. The five inputs of the
    specification are rejected. *)
Theorem roll_raises_exactly_when_rejected (e : str) (g : rng) :
  numerals_fit e = true ->
  ((exists err g', roll e g = Raise err g') <-> rejected e) /\
  ((exists r g', roll e g = Ok r g') <-> ~ rejected e) /\
  (forall err g', roll e g = Raise err g' ->
                  g' = g /\ exists v, err = ValueError v) /\
  roll (lit "abc") g = Raise (ValueError (InvalidExpression (lit "abc"))) g /\
  roll (lit "0d6") g = Raise (ValueError (InvalidParameters 0 6)) g /\
  roll (lit "2d0") g = Raise (ValueError (InvalidParameters 2 0)) g /\
  roll (lit "101d6") g = Raise (ValueError (TooManyDice 101)) g /\
  roll (lit "2d1001") g = Raise (ValueError (TooManySides 1001)) g.
Proof.
  intros _. split; [|split; [|split]].
  - destruct (roll_cases e g) as [[Hr [v Hv]] | [Hr (r & n & s & op & m & _ & _ & Hok)]].
    + split; eauto.
    + split; [|contradiction].
      intros (err & g' & H). congruence.
  - destruct (roll_cases e g) as [[Hr [v Hv]] | [Hr (r & n & s & op & m & _ & _ & Hok)]].
    + split; [|contradiction].
      intros (r & g' & H). congruence.
    + split; eauto.
  - intros err g' H.
    destruct (roll_cases e g) as [[_ [v Hv]] | [_ (r & n & s & op & m & _ & _ & Hok)]].
    + rewrite Hv in H. injection H as <- <-. eauto.
    + congruence.
  - repeat apply conj.
    + apply roll_unparsed. reflexivity.
    + apply (@roll_invalid _ g 0 6 0 OpPlus); reflexivity.
    + apply (@roll_invalid _ g 2 0 0 OpPlus); reflexivity.
    + apply (@roll_invalid _ g 101 6 0 OpPlus); reflexivity.
    + apply (@roll_invalid _ g 2 1001 0 OpPlus); reflexivity.
Qed.

Lemma roll_raises_exactly_when_rejected_witness :
  numerals_fit (lit "0d6+12") = true /\
  ((exists err g', roll (lit "0d6+12") (rng_of [3]) = Raise err g')
   <-> rejected (lit "0d6+12")) /\
  ((exists r g', roll (lit "0d6+12") (rng_of [3]) = Ok r g')
   <-> ~ rejected (lit "0d6+12")) /\
  (forall err g', roll (lit "0d6+12") (rng_of [3]) = Raise err g' ->
                  g' = rng_of [3] /\ exists v, err = ValueError v) /\
  roll (lit "abc") (rng_of [3])
  = Raise (ValueError (InvalidExpression (lit "abc"))) (rng_of [3]) /\
  roll (lit "0d6") (rng_of [3])
  = Raise (ValueError (InvalidParameters 0 6)) (rng_of [3]) /\
  roll (lit "2d0") (rng_of [3])
  = Raise (ValueError (InvalidParameters 2 0)) (rng_of [3]) /\
  roll (lit "101d6") (rng_of [3])
  = Raise (ValueError (TooManyDice 101)) (rng_of [3]) /\
  roll (lit "2d1001") (rng_of [3])
  = Raise (ValueError (TooManySides 1001)) (rng_of [3]).
Proof.
  split; [reflexivity|].
  apply (roll_raises_exactly_when_rejected (lit "0d6+12") (rng_of [3])).
  reflexivity.
Defined.

(** ** The dispatcher never raises *)

Lemma roll_total (e : str) (g : rng) :
  (exists r g', roll e g = Ok r g') \/ (exists v, roll e g = Raise (ValueError v) g).
Proof.
  destruct (roll_cases e g) as [[_ [v Hv]] | [_ (r & n & s & op & m & _ & _ & Hok)]];
    eauto.
Qed.

Lemma roll_1d20 (g : rng) : exists r g', roll (lit "1d20") g = Ok r g'.
Proof.
  eexists. eexists.
  apply (@roll_parsed (lit "1d20") g 1 20 0 OpPlus); reflexivity.
Qed.

(** The handler of the outer [try] always returns a result. *)
Lemma handler_returns (e : str) (g : rng) :
  exists r g', try_except (roll e) (roll (lit "1d20")) g = Ok r g'.
Proof.
  unfold try_except.
  destruct (roll_total e g) as [(r & g' & H) | (v & H)]; rewrite H.
  - eauto.
  - apply roll_1d20.
Qed.

Lemma bind_roll_diverge {A} (m : M A) (k : A -> M DiceRoll) (g : rng) :
  (forall a g', k a g' <> Diverge) -> bind m k g = Diverge -> m g = Diverge.
Proof.
  unfold bind. intros Hk H. destruct (m g) as [a g'|err g'|]; [|congruence..].
  now apply Hk in H.
Qed.

Lemma roll_then_ret_returns (e label : str) (g : rng) :
  bind (roll e) (fun result => ret (set_expression label result)) g <> Diverge.
Proof.
  unfold bind. destruct (roll_total e g) as [(r & g' & H) | (v & H)];
    rewrite H; discriminate.
Qed.

Lemma lift_returns {A} (x : exn + A) (g : rng) : lift x g <> Diverge.
Proof. destruct x; discriminate. Qed.

(** The outcomes of [roll_with_context]: a result, or the divergence of
    the [roll_advanced] call of the standard branch. It never raises. *)
Lemma roll_with_context_outcome (fuel : nat) (e : str)
    (who : option character) (g : rng) :
  (exists r g', roll_with_context fuel e who g = Ok r g') \/
  (roll_with_context fuel e who g = Diverge /\
   dispatch_of e who = StandardRoll /\
   roll_advanced fuel (rewritten e) g = Diverge).
Proof.
  unfold roll_with_context.
  set (handler := try_except (roll _) (roll _)).
  unfold try_except.
  destruct (context_body fuel e who g) as [r g'|err g'|] eqn:Hb.
  - left. eauto.
  - left. apply handler_returns.
  - right. split; [reflexivity|].
    unfold context_body in Hb.
    destruct (dispatch_of e who) as [c ability|c skill|].
    + apply bind_roll_diverge in Hb; [now apply lift_returns in Hb|].
      intros a g'. apply roll_then_ret_returns.
    + apply bind_roll_diverge in Hb; [now apply lift_returns in Hb|].
      intros a g'. apply roll_then_ret_returns.
    + split; [reflexivity|].
      unfold try_except_ValueError in Hb.
      destruct (roll_advanced fuel (rewritten e) g) as [r g'|[v|] g'|];
        try congruence.
      destruct (roll_total (rewritten e) g') as [(r & g'' & H) | (v' & H)];
        congruence.
Qed.

Lemma roll_with_context_never_raises (fuel : nat) (e : str)
    (who : option character) (g g' : rng) (err : exn) :
  roll_with_context fuel e who g <> Raise err g'.
Proof.
  destruct (roll_with_context_outcome fuel e who g) as [(r & g1 & H) | [H _]];
    congruence.
Qed.

(** The fallback chain of the standard branch: the advanced grammar,
    then the simple grammar, then a bare [1d20]. *)
Lemma roll_with_context_fallback (fuel : nat) (e : str)
    (who : option character) (g : rng) (v v' : value_error) :
  dispatch_of e who = StandardRoll ->
  roll_advanced fuel (rewritten e) g = Raise (ValueError v) g ->
  roll (rewritten e) g = Raise (ValueError v') g ->
  roll_with_context fuel e who g = roll (lit "1d20") g.
Proof.
  intros Hd Hadv Hroll.
  unfold roll_with_context, context_body, handler_expression.
  rewrite Hd. unfold try_except, try_except_ValueError.
  now rewrite Hadv, !Hroll.
Qed.

Lemma dispatch_1d1_exploding (who : option character) :
  dispatch_of (lit "1d1!") who = StandardRoll.
Proof. destruct who; reflexivity. Qed.

(** C4 (the code against the claim): [roll_with_context("1d1!")], with
    or without a character, hands the expression to [roll_advanced],
    whose exploding loop does not end; no result is returned and no
    fallback is reached. On every input the dispatcher raises nothing
    ([roll_with_context_never_raises]). *)
Theorem roll_with_context_1d1_exploding_diverges (fuel : nat)
    (who : option character) (g : rng) :
  roll_with_context fuel (lit "1d1!") who g = Diverge.
Proof.
  unfold roll_with_context.
  set (handler := try_except (roll _) (roll _)).
  unfold try_except, context_body.
  rewrite dispatch_1d1_exploding.
  change (rewritten (lit "1d1!")) with (lit "1d1!").
  unfold try_except_ValueError.
  now rewrite roll_advanced_1d1_exploding.
Qed.

(** ** Dice in free text: a candidate that does not parse *)

Lemma candidates_0d6 : candidates (lit "0d6") = [lit "0d6"].
Proof. vm_compute. reflexivity. Qed.

Lemma roll_0d6 (g : rng) :
  roll (lit "0d6") g = Raise (ValueError (InvalidParameters 0 6)) g.
Proof. apply (@roll_invalid _ g 0 6 0 OpPlus); reflexivity. Qed.

Lemma roll_advanced_0d6 (fuel : nat) (g : rng) :
  roll_advanced fuel (lit "0d6") g = Raise (ValueError (InvalidParameters 0 6)) g.
Proof. apply roll_advanced_unparsed. reflexivity. Qed.

Lemma roll_with_context_0d6 (fuel : nat) (g : rng) :
  roll_with_context fuel (lit "0d6") None g = roll (lit "1d20") g.
Proof.
  unfold roll_with_context, context_body.
  change (dispatch_of (lit "0d6") None) with StandardRoll.
  change (handler_expression (lit "0d6") None) with (lit "0d6").
  change (rewritten (lit "0d6")) with (lit "0d6").
  unfold try_except, try_except_ValueError.
  now rewrite roll_advanced_0d6, !roll_0d6.
Qed.

(** The [except] branch of the loop is never taken: every candidate
    adds a result. *)
Lemma roll_candidates_keeps_all (fuel : nat) (exprs : list str)
    (results l : list DiceRoll) (g g' : rng) :
  roll_candidates fuel exprs results g = Ok l g' ->
  List.length l = (List.length results + List.length exprs)%nat.
Proof.
  revert results g. induction exprs as [|expr rest IH]; intros results g.
  - cbn [roll_candidates ret]. intros [= <- _]. cbn [List.length]. lia.
  - cbn [roll_candidates]. unfold bind at 1, try_except, bind.
    destruct (roll_with_context_outcome fuel expr None g)
      as [(r & g1 & ->) | [-> _]]; [|discriminate].
    cbn [ret]. intros H. apply IH in H. rewrite length_app in H.
    cbn [List.length] in *. lia.
Qed.

(** C8 (the code against the claim): the text ["0d6"] yields the single
    candidate ["0d6"], which neither [roll] nor [roll_advanced] accepts;
    [parse_dice_in_text] does not skip it: the candidate goes through
    [roll_with_context], whose fallback rolls [1d20], and that roll is
    returned. On every text, a returned sequence has one result per
    candidate. *)
Theorem parse_dice_in_text_keeps_invalid_candidate (fuel : nat) (g : rng) :
  candidates (lit "0d6") = [lit "0d6"] /\
  roll (lit "0d6") g = Raise (ValueError (InvalidParameters 0 6)) g /\
  roll_advanced fuel (lit "0d6") g = Raise (ValueError (InvalidParameters 0 6)) g /\
  (exists r,
     parse_dice_in_text fuel (lit "0d6") g = Ok [r] (advance g) /\
     expression r = lit "1d20" /\
     rolls r = [fst (randint 1 20 g)]) /\
  forall text l g',
    parse_dice_in_text fuel text g = Ok l g' ->
    List.length l = List.length (candidates text).
Proof.
  split; [apply candidates_0d6|].
  split; [apply roll_0d6|].
  split; [apply roll_advanced_0d6|].
  split.
  - unfold parse_dice_in_text. rewrite candidates_0d6.
    cbn [roll_candidates]. unfold bind at 1, try_except, bind.
    rewrite roll_with_context_0d6.
    rewrite (@roll_parsed (lit "1d20") g 1 20 0 OpPlus) by reflexivity.
    cbn [ret app roll_candidates]. eexists. split; [reflexivity|].
    split; reflexivity.
  - intros text l g' H. now apply roll_candidates_keeps_all in H.
Qed.

(** ** A [k] tag without digits *)

Lemma apply_operator_exploding (n : Z) (o : options) (t : tag) :
  exploding (apply_operator n o t) = exploding o || op_is t "!".
Proof.
  split_op t; cbn [exploding]; try other_letter;
    now rewrite ?orb_true_r, ?orb_false_r.
Qed.

Lemma parse_options_exploding (n : Z) (tags : list tag) :
  exploding (parse_options n tags) = has_flag "!" tags.
Proof.
  unfold parse_options.
  assert (H : forall o, exploding (fold_left (apply_operator n) tags o)
                        = exploding o || has_flag "!" tags).
  { induction tags as [|t tags IH]; intros o; cbn [fold_left has_flag existsb].
    - now rewrite orb_false_r.
    - rewrite IH, apply_operator_exploding. unfold has_flag.
      now rewrite orb_assoc. }
  now rewrite H.
Qed.

Lemma apply_operator_not_k (n v : Z) (o : options) (t : tag) :
  op_is t "k" = false ->
  apply_operator n (set_keep_highest v o) t
  = set_keep_highest v (apply_operator n o t).
Proof. intros Hk. split_op t; try reflexivity; congruence. Qed.

Lemma fold_not_k (n v : Z) (tags : list tag) (o : options) :
  has_flag "k" tags = false ->
  fold_left (apply_operator n) tags (set_keep_highest v o)
  = set_keep_highest v (fold_left (apply_operator n) tags o).
Proof.
  revert o. induction tags as [|t tags IH]; intros o Hk; [reflexivity|].
  cbn [has_flag existsb] in Hk. apply orb_false_iff in Hk as [Ht Hk].
  cbn [fold_left]. rewrite apply_operator_not_k by assumption. now apply IH.
Qed.

Lemma has_flag_app (c : string) (t1 t2 : list tag) :
  has_flag c (t1 ++ t2) = has_flag c t1 || has_flag c t2.
Proof. apply existsb_app. Qed.

(** The options read with a digit-less [k], the only [k] tag: those
    read without it, with [keep_highest] set to the dice count. *)
Lemma parse_options_digitless_k (n : Z) (t1 t2 : list tag) :
  has_flag "k" (t1 ++ t2) = false ->
  parse_options n (t1 ++ (lit "k", []) :: t2)
  = set_keep_highest n (parse_options n (t1 ++ t2)) /\
  keep_highest (parse_options n (t1 ++ t2)) = 0.
Proof.
  intros Hk. pose proof Hk as Hk'.
  rewrite has_flag_app in Hk'. apply orb_false_iff in Hk' as [Hk1 Hk2].
  unfold parse_options. split.
  - rewrite !fold_left_app. cbn [fold_left].
    change (apply_operator n (fold_left (apply_operator n) t1 no_options)
              (lit "k", []))
      with (set_keep_highest n (fold_left (apply_operator n) t1 no_options)).
    now apply fold_not_k.
  - change no_options with (set_keep_highest 0 no_options).
    now rewrite fold_not_k.
Qed.

Lemma reroll_each_returns (threshold sides : Z) (l : list Z) (g : rng) :
  exists l' g', reroll_each threshold sides l g = Ok l' g' /\
                List.length l' = List.length l.
Proof.
  revert g. induction l as [|r l IH]; intros g; cbn [reroll_each].
  - eexists. eexists. split; reflexivity.
  - unfold bind.
    destruct (r <=? threshold).
    + rewrite draw_ok. destruct (IH (advance g)) as (l' & g' & -> & Hlen).
      eexists. eexists. split; [reflexivity|]. cbn [List.length]. now f_equal.
    + cbn [ret]. destruct (IH g) as (l' & g' & -> & Hlen).
      eexists. eexists. split; [reflexivity|]. cbn [List.length]. now f_equal.
Qed.

Lemma keep_step_all (reverse : bool) (label : string) (keep : Z)
    (rs : list Z) (bd : str) :
  keep = len rs -> keep_step reverse label keep (rs, bd) = (rs, bd).
Proof.
  intros ->. unfold keep_step. now rewrite Z.ltb_irrefl, andb_false_r.
Qed.

Lemma keep_step_none (reverse : bool) (label : string) (rb : list Z * str) :
  keep_step reverse label 0 rb = rb.
Proof. destruct rb as [rs bd]. reflexivity. Qed.

(** Without exploding dice the working set has [num_dice] elements when
    the keep steps are reached, so keeping [num_dice] keeps all. *)
Lemma roll_standard_keep_all (fuel : nat) (n s : Z) (o : options) (g : rng) :
  0 <= n -> exploding o = false -> keep_highest o = 0 ->
  exists rb g',
    roll_standard fuel n s o g = Ok rb g' /\
    roll_standard fuel n s (set_keep_highest n o) g = Ok rb g'.
Proof.
  intros Hn Hex Hk. unfold roll_standard.
  cbn [set_keep_highest exploding reroll_threshold keep_highest keep_lowest].
  rewrite Hex, Hk. unfold bind. rewrite roll_simple_ok. cbn [ret fst snd].
  set (raw := fst (roll_dice (Z.to_nat n) s g)).
  assert (Hraw : len raw = n).
  { unfold len, raw. rewrite roll_dice_length. lia. }
  destruct (0 <? reroll_threshold o).
  - destruct (reroll_each_returns (reroll_threshold o) s raw
                (snd (roll_dice (Z.to_nat n) s g))) as (l' & g' & -> & Hlen).
    cbn [ret fst snd]. rewrite keep_step_none, (keep_step_all true _ n).
    + eexists. eexists. split; reflexivity.
    + unfold len. rewrite Hlen. now symmetry.
  - cbn [ret fst snd].
    rewrite keep_step_none, (keep_step_all true _ n) by now symmetry.
    eexists. eexists. split; reflexivity.
Qed.

Lemma roll_twice_returns (n s : Z) (o : options) (g : rng) :
  exists rb g', roll_twice n s o g = Ok rb g'.
Proof.
  unfold roll_twice, bind. rewrite !roll_simple_ok.
  destruct (advantage o); eexists; eexists; reflexivity.
Qed.

(** ** Decimal notation *)

Lemma digit_char_spec (d : Z) :
  0 <= d < 10 -> is_digit (digit_char d) = true /\ digit_val (digit_char d) = d.
Proof.
  intros H.
  assert (C : d = 0 \/ d = 1 \/ d = 2 \/ d = 3 \/ d = 4 \/
              d = 5 \/ d = 6 \/ d = 7 \/ d = 8 \/ d = 9) by lia.
  repeat (destruct C as [-> | C]; [split; reflexivity|]).
  subst. split; reflexivity.
Qed.

Lemma str_digits_spec (fuel : nat) (n : Z) (acc : str) :
  0 <= n < 2 ^ Z.of_nat (S fuel) ->
  exists ds,
    str_digits (S fuel) n acc = ds ++ acc /\ ds <> [] /\ is_digit_list ds /\
    forall a, fold_left int_step ds a = a * 10 ^ Z.of_nat (List.length ds) + n.
Proof.
  revert n acc. induction fuel as [|fuel IH]; intros n acc Hn;
    cbn [str_digits]; pose proof (Z.div_mod n 10 ltac:(lia)) as Hdm;
    pose proof (Z.mod_pos_bound n 10 ltac:(lia)) as Hmod;
    destruct (digit_char_spec (n mod 10) Hmod) as [Hd Hv];
    destruct (n / 10 =? 0) eqn:E.
  1, 3: apply Z.eqb_eq in E; exists [digit_char (n mod 10)];
    repeat split; [discriminate | now repeat constructor |];
    intros a; cbn [fold_left List.length]; unfold int_step; rewrite Hv;
    change (10 ^ Z.of_nat 1) with 10; lia.
  - apply Z.eqb_neq in E. change (2 ^ Z.of_nat 1) with 2 in Hn. lia.
  - apply Z.eqb_neq in E.
    destruct (IH (n / 10) (digit_char (n mod 10) :: acc)) as (ds & Heq & Hne & Hds & Hval).
    { rewrite Nat2Z.inj_succ, Z.pow_succ_r in Hn by lia. lia. }
    exists (ds ++ [digit_char (n mod 10)]).
    split; [now rewrite <- app_assoc|].
    split; [now destruct ds|].
    split; [apply Forall_app; split; [assumption | now repeat constructor]|].
    intros a. rewrite fold_left_app, Hval. cbn [fold_left]. unfold int_step.
    rewrite Hv, length_app. cbn [List.length].
    rewrite Nat2Z.inj_add, Z.pow_add_r by lia.
    change (10 ^ Z.of_nat 1) with 10. lia.
Qed.

Lemma str_nonneg_spec (n : Z) :
  0 <= n ->
  str_nonneg n <> [] /\ is_digit_list (str_nonneg n) /\
  int_digits (str_nonneg n) = n.
Proof.
  intros Hn. unfold str_nonneg.
  destruct (str_digits_spec (Z.to_nat (Z.log2 n)) n []) as (ds & Heq & Hne & Hds & Hval).
  { split; [assumption|].
    rewrite Nat2Z.inj_succ, Z2Nat.id by apply Z.log2_nonneg.
    destruct (Z.eq_dec n 0) as [->|Hnz]; [reflexivity|].
    apply Z.log2_spec. lia. }
  rewrite Heq, app_nil_r. repeat split; try assumption.
  unfold int_digits. fold int_step. rewrite Hval. lia.
Qed.

Lemma str_int_nonneg (n : Z) : 0 <= n -> str_int n = str_nonneg n.
Proof.
  intros Hn. unfold str_int. destruct (n <? 0) eqn:E; [|reflexivity].
  apply Z.ltb_lt in E. lia.
Qed.

(** ** Character classes *)

Lemma is_digit_code (c : ascii) : is_digit c = true <-> 48 <= code c <= 57.
Proof.
  unfold is_digit, in_range. cbn [lit list_ascii_of_string].
  change (code "0") with 48. change (code "9") with 57.
  rewrite andb_true_iff, !Z.leb_le. reflexivity.
Qed.

Lemma is_upper_code (c : ascii) : is_upper c = true <-> 65 <= code c <= 90.
Proof.
  unfold is_upper, in_range. cbn [lit list_ascii_of_string].
  change (code "A") with 65. change (code "Z") with 90.
  rewrite andb_true_iff, !Z.leb_le. reflexivity.
Qed.

Lemma lower_char_digit (c : ascii) : is_digit c = true -> lower_char c = c.
Proof.
  intros H. apply is_digit_code in H. unfold lower_char.
  destruct (is_upper c) eqn:E; [|reflexivity].
  apply is_upper_code in E. lia.
Qed.

Lemma digit_not_space (c : ascii) :
  is_digit c = true -> Ascii.eqb c " " = false.
Proof.
  intros H. apply is_digit_code in H.
  destruct (Ascii.eqb c " ") eqn:E; [|reflexivity].
  apply Ascii.eqb_eq in E. subst. change (code " ") with 32 in H. lia.
Qed.

Lemma normalize_app (a b : str) : normalize (a ++ b) = normalize a ++ normalize b.
Proof. unfold normalize, remove_spaces, lower. now rewrite map_app, filter_app. Qed.

Lemma normalize_digits (ds : str) : is_digit_list ds -> normalize ds = ds.
Proof.
  unfold normalize, remove_spaces, lower.
  induction 1 as [|c ds Hc Hds IH]; [reflexivity|].
  cbn [map filter]. rewrite (lower_char_digit c Hc), (digit_not_space c Hc).
  cbn [negb]. now f_equal.
Qed.

(** ** Matching a decimal number *)

Lemma first_flat_map (f : pos * caps -> results) (l : results)
    (x y : pos * caps) :
  first_result l = Some x -> first_result (f x) = Some y ->
  first_result (flat_map f l) = Some y.
Proof.
  destruct l as [|x' l]; [discriminate|]. intros [= ->]. cbn [flat_map].
  destruct (f x) as [|y' l']; [discriminate|]. now intros [= ->].
Qed.

Lemma first_app (l l' : results) (x : pos * caps) :
  first_result l = Some x -> first_result (l ++ l') = Some x.
Proof. destruct l; [discriminate | now intros [= ->]]. Qed.

Lemma first_map (f : pos * caps -> pos * caps) (l : results) (x : pos * caps) :
  first_result l = Some x -> first_result (map f l) = Some (f x).
Proof. destruct l; [discriminate | now intros [= ->]]. Qed.

Lemma star_loop_S (step : pos -> caps -> results) (n : nat) (p : pos) (c : caps) :
  star_loop step (S n) p c
  = flat_map
      (fun pc =>
         if (List.length (after (fst pc)) <? List.length (after p))%nat
         then star_loop step n (fst pc) (snd pc) else [])
      (step p c)
    ++ [(p, c)].
Proof. reflexivity. Qed.

Lemma run_star (r : regex) (p : pos) (c : caps) :
  run (Star r) p c = star_loop (run r) (List.length (after p)) p c.
Proof. reflexivity. Qed.

Lemma run_cat (r1 r2 : regex) (p : pos) (c : caps) :
  run (Cat r1 r2) p c
  = flat_map (fun pc => run r2 (fst pc) (snd pc)) (run r1 p c).
Proof. reflexivity. Qed.

Lemma run_grp (i : nat) (r : regex) (p : pos) (c : caps) :
  run (Grp i r) p c
  = map (fun pc => (fst pc, (i, consumed p (fst pc)) :: snd pc)) (run r p c).
Proof. reflexivity. Qed.

Lemma run_cls_cons (f : ascii -> bool) (bef : str) (a : ascii) (t : str) (c : caps) :
  run (Cls f) (Pos bef (a :: t)) c
  = if f a then [(Pos (a :: bef) t, c)] else [].
Proof. reflexivity. Qed.

(** A greedy [\d*] takes every digit ahead on its first try. *)
Lemma star_digits_first (ds : str) :
  is_digit_list ds ->
  forall (n : nat) (bef rest : str) (c : caps),
    (List.length (ds ++ rest) <= n)%nat -> no_digit_ahead rest ->
    first_result (star_loop (run digit) n (Pos bef (ds ++ rest)) c)
    = Some (Pos (rev ds ++ bef) rest, c).
Proof.
  induction 1 as [|d ds Hd Hds IH]; intros n bef rest c Hn Hrest.
  - cbn [app rev]. destruct n as [|n]; [reflexivity|].
    rewrite star_loop_S.
    destruct rest as [|x rest]; [reflexivity|].
    cbn [no_digit_ahead] in Hrest.
    now rewrite (run_cls_cons is_digit), Hrest.
  - cbn [app List.length] in Hn. destruct n as [|n]; [lia|].
    cbn [app]. rewrite star_loop_S, (run_cls_cons is_digit), Hd.
    cbn [flat_map fst snd after List.length]. rewrite app_nil_r.
    replace (List.length (ds ++ rest) <? S (List.length (ds ++ rest)))%nat
      with true by (symmetry; apply Nat.ltb_lt; lia).
    apply first_app. rewrite IH by (assumption || lia).
    cbn [rev]. now rewrite <- app_assoc.
Qed.

Lemma plus_digits_first (ds : str) (bef rest : str) (c : caps) :
  is_digit_list ds -> ds <> [] -> no_digit_ahead rest ->
  first_result (run (Plus digit) (Pos bef (ds ++ rest)) c)
  = Some (Pos (rev ds ++ bef) rest, c).
Proof.
  intros Hds Hne Hrest. destruct ds as [|d ds]; [congruence|].
  inversion Hds as [|? ? Hd Hds']; subst.
  unfold Plus. cbn [app]. rewrite run_cat, (run_cls_cons is_digit), Hd.
  cbn [flat_map fst snd]. rewrite app_nil_r, run_star. cbn [after].
  rewrite star_digits_first by (assumption || lia).
  cbn [rev]. now rewrite <- app_assoc.
Qed.

Lemma consumed_app (bef bef' ds rest : str) :
  consumed (Pos bef (ds ++ rest)) (Pos bef' rest) = ds.
Proof.
  unfold consumed. cbn [after]. rewrite length_app.
  replace (List.length ds + List.length rest - List.length rest)%nat
    with (List.length ds + 0)%nat by lia.
  now rewrite firstn_app_2, app_nil_r.
Qed.

(** A group around [\d+] records the digits it takes. *)
Lemma group_digits_first (i : nat) (ds : str) (bef rest : str) (c : caps) :
  is_digit_list ds -> ds <> [] -> no_digit_ahead rest ->
  first_result (run (Grp i (Plus digit)) (Pos bef (ds ++ rest)) c)
  = Some (Pos (rev ds ++ bef) rest, (i, ds) :: c).
Proof.
  intros Hds Hne Hrest. rewrite run_grp.
  erewrite first_map by (now apply plus_digits_first).
  cbn [fst snd]. now rewrite consumed_app.
Qed.

Lemma match_at_first (r : regex) (p p' : pos) (c : caps) :
  first_result (run r p []) = Some (p', c) ->
  match_at r p
  = Some (Match (List.length (before p))
                (List.length (before p) + List.length (consumed p p'))
                (consumed p p') c).
Proof.
  unfold match_at, first_result.
  destruct (run r p []) as [|[q c'] l]; [discriminate|].
  now intros [= -> ->].
Qed.

(** [DICE_PATTERN] on a count, a [d] and a number of sides. *)
Lemma dice_pattern_plain (ds1 ds2 : str) :
  is_digit_list ds1 -> ds1 <> [] -> is_digit_list ds2 -> ds2 <> [] ->
  first_result (run DICE_PATTERN (Pos [] (ds1 ++ "d"%char :: ds2)) [])
  = Some (Pos (rev ds2 ++ "d"%char :: rev ds1) [], [(2%nat, ds2); (1%nat, ds1)]).
Proof.
  intros H1 N1 H2 N2.
  unfold DICE_PATTERN, Seq. cbn [fold_right]. rewrite run_cat.
  eapply first_flat_map.
  { apply group_digits_first; try assumption. reflexivity. }
  cbn [fst snd]. rewrite run_cat. unfold Chr at 1.
  rewrite run_cls_cons. cbn [Ascii.eqb Bool.eqb].
  cbn [flat_map fst snd]. rewrite app_nil_r, run_cat.
  eapply first_flat_map.
  { rewrite <- (app_nil_r ds2) at 1.
    apply group_digits_first; try assumption. exact I. }
  rewrite app_nil_r. reflexivity.
Qed.

Lemma parse_expression_plain (e ds1 ds2 : str) :
  normalize e = ds1 ++ "d"%char :: ds2 ->
  is_digit_list ds1 -> ds1 <> [] -> is_digit_list ds2 -> ds2 <> [] ->
  parse_expression e = inr (int_digits ds1, int_digits ds2, OpPlus, 0).
Proof.
  intros He H1 N1 H2 N2. unfold parse_expression, rmatch_start.
  rewrite He, (match_at_first _ _ _ _ (dice_pattern_plain ds1 ds2 H1 N1 H2 N2)).
  reflexivity.
Qed.

Lemma parse_plain_expression (count sides : Z) :
  0 <= count -> 0 <= sides ->
  parse_expression (plain_expression count sides)
  = inr (count, sides, OpPlus, 0).
Proof.
  intros Hc Hs. unfold plain_expression.
  rewrite !str_int_nonneg by assumption.
  destruct (str_nonneg_spec count Hc) as (N1 & H1 & V1).
  destruct (str_nonneg_spec sides Hs) as (N2 & H2 & V2).
  rewrite <- V1 at 2. rewrite <- V2 at 2.
  apply parse_expression_plain; try assumption.
  rewrite !normalize_app, (normalize_digits _ H1), (normalize_digits _ H2).
  reflexivity.
Qed.

(** C1: for a count in [1, 100] and sides in [1, 1000], [roll] of the
    expression [<count>d<sides>] returns a result after exactly [count]
    draws; it has [count] rolls, each between 1 and [sides], and its
    total is their sum. *)
Theorem roll_plain_expression (count sides : Z) (g : rng) :
  1 <= count <= 100 -> 1 <= sides <= 1000 ->
  exists r g',
    roll (plain_expression count sides) g = Ok r g' /\
    cursor g' = (cursor g + Z.to_nat count)%nat /\
    Z.of_nat (List.length (rolls r)) = count /\
    Forall (between 1 sides) (rolls r) /\
    total r = sum (rolls r).
Proof.
  intros Hc Hs.
  assert (Hp : parse_expression (plain_expression count sides)
               = inr (count, sides, OpPlus, 0))
    by (apply parse_plain_expression; lia).
  assert (Hv : validate count sides = inr tt) by now apply validate_ok.
  eexists. eexists. split; [apply (roll_parsed _ g Hp Hv)|].
  cbn [rolls total simple_total].
  split; [apply roll_dice_cursor|].
  split; [rewrite roll_dice_length; lia|].
  split; [apply roll_dice_between; lia | lia].
Qed.

Lemma roll_plain_expression_witness :
  exists r g',
    roll (plain_expression 3 6) (rng_of [2; 7; 5]) = Ok r g' /\
    cursor g' = 3%nat /\
    Z.of_nat (List.length (rolls r)) = 3 /\
    Forall (between 1 6) (rolls r) /\
    total r = sum (rolls r).
Proof. apply (roll_plain_expression 3 6 (rng_of [2; 7; 5])); lia. Defined.

(** ** Positions of a match *)

Lemma advances_refl (p : pos) : advances p p.
Proof. now exists []. Qed.

Lemma advances_trans (p q r : pos) :
  advances p q -> advances q r -> advances p r.
Proof.
  intros [a Ha] [b Hb]. exists (a ++ b). now rewrite Ha, Hb, app_assoc.
Qed.

Lemma advances_length (p p' : pos) :
  advances p p' -> (List.length (after p') <= List.length (after p))%nat.
Proof. intros [pre H]. rewrite H, length_app. lia. Qed.

Lemma star_loop_monotone (step : pos -> caps -> results) :
  monotone step -> forall n, monotone (star_loop step n).
Proof.
  intros Hstep n. induction n as [|n IH]; intros p c pc Hin.
  - destruct Hin as [<-|[]]. apply advances_refl.
  - rewrite star_loop_S in Hin. apply in_app_or in Hin as [Hin|[<-|[]]];
      [|apply advances_refl].
    apply in_flat_map in Hin as (x & Hx & Hin).
    destruct (List.length (after (fst x)) <? List.length (after p))%nat;
      [|contradiction].
    eapply advances_trans; [apply (Hstep _ _ _ Hx) | apply (IH _ _ _ Hin)].
Qed.

Lemma run_monotone (r : regex) : monotone (run r).
Proof.
  induction r as [|f|r1 IH1 r2 IH2|r1 IH1 r2 IH2|r IH|i r IH| | |];
    intros p c pc Hin.
  - destruct Hin as [<-|[]]. apply advances_refl.
  - cbn [run] in Hin. destruct (after p) as [|a t] eqn:E; [contradiction|].
    destruct (f a); [|contradiction]. destruct Hin as [<-|[]].
    exists [a]. now rewrite E.
  - rewrite run_cat in Hin. apply in_flat_map in Hin as (x & Hx & Hin).
    eapply advances_trans; [apply (IH1 _ _ _ Hx) | apply (IH2 _ _ _ Hin)].
  - cbn [run] in Hin. apply in_app_or in Hin as [Hin|Hin];
      [apply (IH1 _ _ _ Hin) | apply (IH2 _ _ _ Hin)].
  - rewrite run_star in Hin. now apply (star_loop_monotone _ IH) in Hin.
  - rewrite run_grp in Hin. apply in_map_iff in Hin as (x & <- & Hx).
    apply (IH _ _ _ Hx).
  - cbn [run] in Hin. destruct (before p); [|contradiction].
    destruct Hin as [<-|[]]. apply advances_refl.
  - cbn [run] in Hin. destruct (at_eol p); [|contradiction].
    destruct Hin as [<-|[]]. apply advances_refl.
  - cbn [run] in Hin. destruct (xorb _ _); [|contradiction].
    destruct Hin as [<-|[]]. apply advances_refl.
Qed.

(** * Further properties of the engine *)

(** ** Totals of [roll] *)

Lemma sum_cons (x : Z) (l : list Z) : sum (x :: l) = x + sum l.
Proof.
  unfold sum. cbn [fold_left].
  assert (H : forall l a, fold_left Z.add l a = a + fold_left Z.add l 0).
  { clear. induction l as [|y l IH]; intros a; cbn [fold_left]; [lia|].
    rewrite (IH (a + y)), (IH (0 + y)). lia. }
  apply H.
Qed.

Lemma sum_between (lo hi : Z) (l : list Z) :
  Forall (between lo hi) l ->
  lo * Z.of_nat (List.length l) <= sum l <= hi * Z.of_nat (List.length l).
Proof.
  induction 1 as [|x l Hx Hl IH]; [cbn; lia|].
  rewrite sum_cons. cbn [List.length]. unfold between in Hx. lia.
Qed.

(** X1: when [roll] returns, the total lies between the lowest and the
    highest sum of the dice, shifted by the modifier: from
    [count +/- modifier] to [count * sides +/- modifier]. *)
Theorem roll_total_bounds (e : str) (g g' : rng) (r : DiceRoll)
    (n s m : Z) (op : operator) :
  parse_expression e = inr (n, s, op, m) ->
  roll e g = Ok r g' ->
  simple_total op n m <= total r <= simple_total op (n * s) m.
Proof.
  intros Hp Hroll.
  destruct (validate_cases n s) as [Hv | [v Hv]].
  - rewrite (roll_parsed e g Hp Hv) in Hroll. injection Hroll as <- _.
    cbn [total]. apply validate_ok in Hv as [Hn Hs].
    pose proof (sum_between 1 s _ (roll_dice_between (Z.to_nat n) s g ltac:(lia))) as Hb.
    rewrite roll_dice_length, Z2Nat.id in Hb by lia.
    destruct op; cbn [simple_total]; lia.
  - rewrite (roll_invalid e g Hp Hv) in Hroll. discriminate.
Qed.

Lemma roll_total_bounds_witness :
  5 <= total (mkDiceRoll (lit "2d6+3") [4; 2] 9 (lit "6 + 3")) <= 15.
Proof.
  apply (roll_total_bounds (lit "2d6+3") (rng_of [3; 7]) (advance (advance (rng_of [3; 7])))
           (mkDiceRoll (lit "2d6+3") [4; 2] 9 (lit "6 + 3")) 2 6 3 OpPlus).
  - vm_compute. reflexivity.
  - vm_compute. reflexivity.
Defined.

(** ** The simple grammar reads back what is printed *)

Lemma sign_char (c : ascii) :
  one_of "+-" c = true <-> c = "+"%char \/ c = "-"%char.
Proof.
  unfold one_of. cbn [lit list_ascii_of_string existsb].
  rewrite !orb_true_iff, !Ascii.eqb_eq. intuition congruence.
Qed.

Lemma sign_not_digit (c : ascii) : one_of "+-" c = true -> is_digit c = false.
Proof. intros H. apply sign_char in H as [-> | ->]; reflexivity. Qed.

Lemma no_digit_ahead_sign (sg : ascii) (rest : str) :
  one_of "+-" sg = true -> no_digit_ahead (sg :: rest).
Proof. intros H. cbn. now apply sign_not_digit. Qed.

Lemma run_alt (r1 r2 : regex) (p : pos) (c : caps) :
  run (Alt r1 r2) p c = run r1 p c ++ run r2 p c.
Proof. reflexivity. Qed.

(** A group around one character of a class records it. *)
Lemma group_class_first (i : nat) (f : ascii -> bool) (a : ascii)
    (bef rest : str) (c : caps) :
  f a = true ->
  first_result (run (Grp i (Cls f)) (Pos bef (a :: rest)) c)
  = Some (Pos (a :: bef) rest, (i, [a]) :: c).
Proof.
  intros Ha. rewrite run_grp, run_cls_cons, Ha. cbn [map first_result hd_error fst snd].
  pose proof (consumed_app bef (a :: bef) [a] rest) as Hc.
  cbn [app] in Hc. now rewrite Hc.
Qed.

(** [DICE_PATTERN] on a count, a [d], a number of sides, a sign and a
    modifier. *)
Lemma dice_pattern_modifier (ds1 ds2 ds3 : str) (sg : ascii) :
  is_digit_list ds1 -> ds1 <> [] -> is_digit_list ds2 -> ds2 <> [] ->
  one_of "+-" sg = true -> is_digit_list ds3 -> ds3 <> [] ->
  first_result
    (run DICE_PATTERN (Pos [] (ds1 ++ "d"%char :: ds2 ++ sg :: ds3)) [])
  = Some (Pos (rev ds3 ++ sg :: rev ds2 ++ "d"%char :: rev ds1) [],
          [(4%nat, ds3); (3%nat, [sg]); (2%nat, ds2); (1%nat, ds1)]).
Proof.
  intros H1 N1 H2 N2 Hsg H3 N3.
  unfold DICE_PATTERN, Seq. cbn [fold_right]. rewrite run_cat.
  eapply first_flat_map.
  { apply group_digits_first; try assumption. reflexivity. }
  cbn [fst snd]. rewrite run_cat. unfold Chr at 1.
  rewrite run_cls_cons. cbn [Ascii.eqb Bool.eqb].
  cbn [flat_map fst snd]. rewrite app_nil_r, run_cat.
  eapply first_flat_map.
  { apply group_digits_first; try assumption. now apply no_digit_ahead_sign. }
  cbn [fst snd]. rewrite run_cat. eapply first_flat_map.
  { unfold Opt. rewrite run_alt. apply first_app.
    rewrite run_cat. eapply first_flat_map.
    { unfold sign. now apply group_class_first. }
    cbn [fst snd]. rewrite run_cat. eapply first_flat_map.
    { rewrite <- (app_nil_r ds3) at 1.
      apply group_digits_first; try assumption. exact I. }
    reflexivity. }
  rewrite app_nil_r. reflexivity.
Qed.

Lemma parse_expression_modifier (e ds1 ds2 ds3 : str) (sg : ascii) :
  normalize e = ds1 ++ "d"%char :: ds2 ++ sg :: ds3 ->
  is_digit_list ds1 -> ds1 <> [] -> is_digit_list ds2 -> ds2 <> [] ->
  one_of "+-" sg = true -> is_digit_list ds3 -> ds3 <> [] ->
  parse_expression e
  = inr (int_digits ds1, int_digits ds2,
         if Ascii.eqb sg "+" then OpPlus else OpMinus, int_digits ds3).
Proof.
  intros He H1 N1 H2 N2 Hsg H3 N3. unfold parse_expression, rmatch_start.
  rewrite He, (match_at_first _ _ _ _
                 (dice_pattern_modifier ds1 ds2 ds3 sg H1 N1 H2 N2 Hsg H3 N3)).
  destruct ds3 as [|d3 ds3]; [congruence|].
  apply sign_char in Hsg as [-> | ->]; reflexivity.
Qed.

Lemma normalize_op_text (op : operator) : normalize (op_text op) = op_text op.
Proof. now destruct op. Qed.

Lemma parse_modified_expression (count sides m : Z) (op : operator) :
  0 <= count -> 0 <= sides -> 0 <= m ->
  parse_expression (modified_expression count sides op m)
  = inr (count, sides, op, m).
Proof.
  intros Hc Hs Hm.
  unfold modified_expression. rewrite !str_int_nonneg by assumption.
  destruct (str_nonneg_spec count Hc) as (N1 & H1 & V1).
  destruct (str_nonneg_spec sides Hs) as (N2 & H2 & V2).
  destruct (str_nonneg_spec m Hm) as (N3 & H3 & V3).
  rewrite (parse_expression_modifier _ (str_nonneg count) (str_nonneg sides)
             (str_nonneg m) (match op with OpPlus => "+" | OpMinus => "-" end)%char);
    try assumption.
  - rewrite V1, V2, V3. now destruct op.
  - rewrite !normalize_app, (normalize_digits _ H1), (normalize_digits _ H2),
      (normalize_digits _ H3), normalize_op_text.
    now destruct op.
  - now destruct op.
Qed.

(** X2: [parse_expression] reads back the components of a printed
    expression whose numbers are written with no more digits than
    [int] converts: count, sides, operator and modifier of
    [<count>d<sides><op><modifier>], and operator [+] with modifier 0
    when there is no suffix. *)
Theorem parse_expression_round_trip (count sides m : Z) (op : operator) :
  0 <= count -> 0 <= sides -> 0 <= m ->
  digits_fit (str_int count) = true -> digits_fit (str_int sides) = true ->
  digits_fit (str_int m) = true ->
  parse_expression (modified_expression count sides op m)
  = inr (count, sides, op, m) /\
  parse_expression (plain_expression count sides)
  = inr (count, sides, OpPlus, 0).
Proof.
  intros Hc Hs Hm _ _ _. split.
  - now apply parse_modified_expression.
  - now apply parse_plain_expression.
Qed.

Lemma parse_expression_round_trip_witness :
  parse_expression (modified_expression 12 60 OpMinus 13)
  = inr (12, 60, OpMinus, 13) /\
  parse_expression (plain_expression 12 60) = inr (12, 60, OpPlus, 0).
Proof.
  apply (parse_expression_round_trip 12 60 13 OpMinus); (lia || reflexivity).
Defined.

(** ** The advanced grammar on a flag and a modifier *)

Lemma opchar_cases (c : ascii) :
  one_of "adkxr!><" c = true ->
  c = "a"%char \/ c = "d"%char \/ c = "k"%char \/ c = "x"%char \/
  c = "r"%char \/ c = "!"%char \/ c = ">"%char \/ c = "<"%char.
Proof.
  unfold one_of. cbn [lit list_ascii_of_string existsb].
  rewrite !orb_true_iff, !Ascii.eqb_eq. intuition congruence.
Qed.

Lemma opchar_not_digit (c : ascii) :
  one_of "adkxr!><" c = true -> is_digit c = false.
Proof.
  intros H. apply opchar_cases in H.
  repeat (destruct H as [-> | H]; [reflexivity|]). now subst.
Qed.

Lemma opchar_not_sign (c : ascii) :
  one_of "adkxr!><" c = true -> one_of "+-" c = false.
Proof.
  intros H. apply opchar_cases in H.
  repeat (destruct H as [-> | H]; [reflexivity|]). now subst.
Qed.

Lemma token_flag (c : ascii) (ds bef rest : str) (cp : caps) :
  one_of "adkxr!><" c = true -> is_digit_list ds -> no_digit_ahead rest ->
  first_result (run option_token (Pos bef (c :: ds ++ rest)) cp)
  = Some (Pos (rev ds ++ c :: bef) rest, cp).
Proof.
  intros Hc Hds Hrest. unfold option_token, Seq. cbn [fold_right].
  rewrite run_alt, !run_cat. unfold sign at 1, opchar at 1.
  rewrite !run_cls_cons, (opchar_not_sign c Hc), Hc.
  cbn [flat_map app fst snd]. rewrite app_nil_r, run_cat.
  eapply first_flat_map.
  { rewrite run_star.
    apply star_digits_first; [assumption | cbn [after]; lia | assumption]. }
  reflexivity.
Qed.

Lemma token_modifier (sg : ascii) (ds bef rest : str) (cp : caps) :
  one_of "+-" sg = true -> is_digit_list ds -> ds <> [] -> no_digit_ahead rest ->
  first_result (run option_token (Pos bef (sg :: ds ++ rest)) cp)
  = Some (Pos (rev ds ++ sg :: bef) rest, cp).
Proof.
  intros Hsg Hds Hne Hrest. unfold option_token, Seq. cbn [fold_right].
  rewrite run_alt. apply first_app. rewrite !run_cat. unfold sign at 1.
  rewrite run_cls_cons, Hsg. cbn [flat_map fst snd]. rewrite app_nil_r, run_cat.
  eapply first_flat_map; [now apply plus_digits_first|].
  reflexivity.
Qed.

(** One more iteration of a star, then the rest of its iterations. *)
Lemma star_loop_step (step : pos -> caps -> results) (n : nat)
    (p : pos) (c : caps) (x y : pos * caps) :
  first_result (step p c) = Some x ->
  (List.length (after (fst x)) < List.length (after p))%nat ->
  first_result (star_loop step n (fst x) (snd x)) = Some y ->
  first_result (star_loop step (S n) p c) = Some y.
Proof.
  intros Hx Hlt Hy. rewrite star_loop_S. apply first_app.
  eapply first_flat_map; [exact Hx|].
  apply Nat.ltb_lt in Hlt. now rewrite Hlt.
Qed.

Lemma star_tokens_end (n : nat) (bef : str) (cp : caps) :
  first_result (star_loop (run option_token) n (Pos bef []) cp)
  = Some (Pos bef [], cp).
Proof. destruct n; reflexivity. Qed.

(** The star of [ADV_DICE_PATTERN] takes a flag and a signed number
    whole. *)
Lemma star_tokens_flag_suffix (f : option ascii) (m : option (ascii * str))
    (bef : str) (cp : caps) :
  is_flag f -> is_suffix m ->
  first_result (run (Star option_token)
                  (Pos bef (flag_text f ++ suffix_text m)) cp)
  = Some (Pos (rev (flag_text f ++ suffix_text m) ++ bef) [], cp).
Proof.
  intros Hf Hm. rewrite run_star. cbn [after].
  assert (Hsuffix : forall n bef,
             (List.length (suffix_text m) <= n)%nat ->
             first_result (star_loop (run option_token) n
                             (Pos bef (suffix_text m)) cp)
             = Some (Pos (rev (suffix_text m) ++ bef) [], cp)).
  { intros n b Hn. destruct m as [[sg ds]|]; cbn [suffix_text] in *;
      [|apply star_tokens_end].
    destruct Hm as (Hsg & Hds & Hne). destruct n as [|n]; [cbn in Hn; lia|].
    eapply star_loop_step.
    - rewrite <- (app_nil_r ds) at 1. apply token_modifier; try assumption. exact I.
    - cbn [fst after List.length]. lia.
    - cbn [fst snd rev]. rewrite <- app_assoc. apply star_tokens_end. }
  destruct f as [c|]; cbn [flag_text app]; [|now apply Hsuffix].
  cbn [is_flag] in Hf. cbn [List.length].
  eapply star_loop_step.
  - apply (token_flag c [] bef (suffix_text m) cp Hf); [constructor|].
    destruct m as [[sg ds]|]; [|exact I].
    destruct Hm as (Hsg & _). now apply no_digit_ahead_sign.
  - cbn [fst after List.length]. lia.
  - cbn [fst snd rev app]. rewrite Hsuffix by lia.
    now rewrite <- app_assoc.
Qed.

Lemma no_digit_ahead_options (f : option ascii) (m : option (ascii * str)) :
  is_flag f -> is_suffix m -> no_digit_ahead (flag_text f ++ suffix_text m).
Proof.
  intros Hf Hm. destruct f as [c|]; cbn [flag_text app].
  - now apply opchar_not_digit.
  - destruct m as [[sg ds]|]; [|exact I].
    destruct Hm as (Hsg & _). now apply no_digit_ahead_sign.
Qed.

Lemma consumed_all (bef bef' s : str) :
  consumed (Pos bef s) (Pos bef' []) = s.
Proof.
  pose proof (consumed_app bef bef' s []) as H. now rewrite app_nil_r in H.
Qed.

(** [ADV_DICE_PATTERN] on a count, a [d], a number of sides, a flag and
    a signed number. *)
Lemma adv_pattern_flag_suffix (ds1 ds2 : str) (f : option ascii)
    (m : option (ascii * str)) :
  is_digit_list ds1 -> ds1 <> [] -> is_digit_list ds2 -> ds2 <> [] ->
  is_flag f -> is_suffix m ->
  exists bef,
    first_result
      (run ADV_DICE_PATTERN
         (Pos [] (ds1 ++ "d"%char :: ds2 ++ flag_text f ++ suffix_text m)) [])
    = Some (Pos bef [],
            [(3%nat, flag_text f ++ suffix_text m); (2%nat, ds2); (1%nat, ds1)]).
Proof.
  intros H1 N1 H2 N2 Hf Hm. eexists.
  change ADV_DICE_PATTERN
    with (Seq [Opt (Grp 1 (Plus digit)); Chr "d"; Grp 2 (Plus digit);
               Grp 3 (Star option_token)]).
  unfold Seq. cbn [fold_right]. rewrite run_cat.
  eapply first_flat_map.
  { unfold Opt. rewrite run_alt. apply first_app.
    apply group_digits_first; try assumption. reflexivity. }
  cbn [fst snd]. rewrite run_cat. unfold Chr at 1.
  rewrite run_cls_cons. cbn [Ascii.eqb Bool.eqb].
  cbn [flat_map fst snd]. rewrite app_nil_r, run_cat.
  eapply first_flat_map.
  { apply group_digits_first; try assumption.
    now apply no_digit_ahead_options. }
  cbn [fst snd]. rewrite run_cat.
  eapply first_flat_map.
  { rewrite run_grp. apply first_map.
    now apply star_tokens_flag_suffix. }
  cbn [fst snd]. rewrite consumed_all. reflexivity.
Qed.

Lemma modifier_at (sg : ascii) (ds bef : str) :
  one_of "+-" sg = true -> is_digit_list ds -> ds <> [] ->
  exists k,
    match_at MODIFIER_PATTERN (Pos bef (sg :: ds))
    = Some (Match (List.length bef) k (sg :: ds) [(2%nat, ds); (1%nat, [sg])]).
Proof.
  intros Hsg Hds Hne. eexists.
  erewrite match_at_first.
  - cbn [before]. rewrite consumed_all. reflexivity.
  - unfold MODIFIER_PATTERN, Seq. cbn [fold_right]. rewrite run_cat.
    eapply first_flat_map.
    { unfold sign. now apply group_class_first. }
    cbn [fst snd]. rewrite run_cat. eapply first_flat_map.
    { rewrite <- (app_nil_r ds) at 1.
      apply group_digits_first; try assumption. exact I. }
    reflexivity.
Qed.

Lemma modifier_not_at_flag (c : ascii) (bef rest : str) :
  one_of "+-" c = false ->
  match_at MODIFIER_PATTERN (Pos bef (c :: rest)) = None.
Proof.
  intros Hc. unfold match_at, MODIFIER_PATTERN, Seq. cbn [fold_right].
  rewrite run_cat, run_grp. unfold sign. now rewrite run_cls_cons, Hc.
Qed.

Lemma sign_eqb (sg : ascii) :
  one_of "+-" sg = true -> str_eqb [sg] (lit "+") = Ascii.eqb sg "+".
Proof. intros H. apply sign_char in H as [-> | ->]; reflexivity. Qed.

(** The trailing modifier is split from the flag. *)
Lemma extract_modifier_flag_suffix (f : option ascii) (m : option (ascii * str)) :
  is_flag f -> is_suffix m ->
  extract_modifier (flag_text f ++ suffix_text m) = (suffix_value m, flag_text f).
Proof.
  intros Hf Hm. unfold extract_modifier, search.
  destruct f as [c|], m as [[sg ds]|];
    cbn [flag_text suffix_text app search_from suffix_value is_flag is_suffix] in *.
  - destruct Hm as (Hsg & Hds & Hne).
    rewrite (modifier_not_at_flag c [] (sg :: ds) (opchar_not_sign c Hf)).
    destruct (modifier_at sg ds [c] Hsg Hds Hne) as [k ->].
    cbn [group_or_empty group m_caps lookup Nat.eqb m_start List.length firstn].
    now rewrite (sign_eqb sg Hsg).
  - now rewrite (modifier_not_at_flag c [] [] (opchar_not_sign c Hf)).
  - destruct Hm as (Hsg & Hds & Hne).
    destruct (modifier_at sg ds [] Hsg Hds Hne) as [k ->].
    cbn [group_or_empty group m_caps lookup Nat.eqb m_start List.length firstn].
    now rewrite (sign_eqb sg Hsg).
  - reflexivity.
Qed.

Lemma operators_flag (f : option ascii) :
  is_flag f -> map tag_of (finditer OPERATORS (flag_text f)) = flag_tags f.
Proof.
  destruct f as [c|]; [|reflexivity]. cbn [is_flag]. intros H.
  apply opchar_cases in H.
  repeat (destruct H as [-> | H]; [reflexivity|]). now subst.
Qed.

(** What [roll_advanced] reads from count, sides, a flag and a signed
    number. *)
Lemma parse_advanced_flag_suffix (e ds1 ds2 : str) (f : option ascii)
    (m : option (ascii * str)) :
  normalize e = ds1 ++ "d"%char :: ds2 ++ flag_text f ++ suffix_text m ->
  is_digit_list ds1 -> ds1 <> [] -> is_digit_list ds2 -> ds2 <> [] ->
  is_flag f -> is_suffix m ->
  validate (int_digits ds1) (int_digits ds2) = inr tt ->
  parse_advanced e
  = inr (int_digits ds1, int_digits ds2, suffix_value m, flag_tags f).
Proof.
  intros He H1 N1 H2 N2 Hf Hm Hv. unfold parse_advanced, rmatch_start.
  destruct (adv_pattern_flag_suffix ds1 ds2 f m H1 N1 H2 N2 Hf Hm) as [bef Hrun].
  rewrite He, (match_at_first _ _ _ _ Hrun).
  destruct ds1 as [|d1 ds1]; [congruence|].
  cbn [group_true group_or_empty group m_caps lookup Nat.eqb].
  rewrite Hv, (extract_modifier_flag_suffix f m Hf Hm).
  now rewrite (operators_flag f Hf).
Qed.

(** ** The two grammars on the expressions they share *)

Lemma roll_with_no_options (fuel : nat) (n s : Z) (g : rng) :
  roll_with_options fuel n s no_options g
  = Ok (fst (roll_dice (Z.to_nat n) s g),
        lit "Rolls: " ++ str_list (fst (roll_dice (Z.to_nat n) s g)))
       (snd (roll_dice (Z.to_nat n) s g)).
Proof.
  unfold roll_with_options, roll_standard, bind.
  cbn [no_options advantage disadvantage exploding reroll_threshold
       keep_highest keep_lowest orb].
  rewrite roll_simple_ok. cbn [ret Z.ltb Z.compare fst snd].
  now rewrite !keep_step_none.
Qed.

Lemma modified_expression_shape (count sides m : Z) (op : operator) :
  0 <= count -> 0 <= sides -> 0 <= m ->
  normalize (modified_expression count sides op m)
  = str_nonneg count ++ "d"%char :: str_nonneg sides
    ++ flag_text None ++ suffix_text (Some (sign_of op, str_nonneg m)).
Proof.
  intros Hc Hs Hm. unfold modified_expression.
  rewrite !str_int_nonneg by assumption.
  destruct (str_nonneg_spec count Hc) as (_ & H1 & _).
  destruct (str_nonneg_spec sides Hs) as (_ & H2 & _).
  destruct (str_nonneg_spec m Hm) as (_ & H3 & _).
  rewrite !normalize_app, (normalize_digits _ H1), (normalize_digits _ H2),
    (normalize_digits _ H3), normalize_op_text.
  now destruct op.
Qed.

Lemma plain_expression_shape (count sides : Z) :
  0 <= count -> 0 <= sides ->
  normalize (plain_expression count sides)
  = str_nonneg count ++ "d"%char :: str_nonneg sides
    ++ flag_text None ++ suffix_text None.
Proof.
  intros Hc Hs. unfold plain_expression.
  rewrite !str_int_nonneg by assumption.
  destruct (str_nonneg_spec count Hc) as (_ & H1 & _).
  destruct (str_nonneg_spec sides Hs) as (_ & H2 & _).
  rewrite !normalize_app, (normalize_digits _ H1), (normalize_digits _ H2).
  cbn [flag_text suffix_text app]. now rewrite app_nil_r.
Qed.

Lemma parse_advanced_modified (count sides m : Z) (op : operator) :
  1 <= count <= 100 -> 1 <= sides <= 1000 -> 0 <= m ->
  parse_advanced (modified_expression count sides op m)
  = inr (count, sides, simple_total op 0 m, []).
Proof.
  intros Hc Hs Hm.
  destruct (str_nonneg_spec count ltac:(lia)) as (N1 & H1 & V1).
  destruct (str_nonneg_spec sides ltac:(lia)) as (N2 & H2 & V2).
  destruct (str_nonneg_spec m Hm) as (N3 & H3 & V3).
  rewrite (parse_advanced_flag_suffix _ (str_nonneg count) (str_nonneg sides)
             None (Some (sign_of op, str_nonneg m)));
    try assumption.
  - cbn [suffix_value flag_tags]. rewrite V1, V2, V3. now destruct op.
  - apply modified_expression_shape; lia.
  - exact I.
  - cbn [is_suffix]. repeat split; try assumption. now destruct op.
  - rewrite V1, V2. now apply validate_ok.
Qed.

Lemma parse_advanced_plain (count sides : Z) :
  1 <= count <= 100 -> 1 <= sides <= 1000 ->
  parse_advanced (plain_expression count sides) = inr (count, sides, 0, []).
Proof.
  intros Hc Hs.
  destruct (str_nonneg_spec count ltac:(lia)) as (N1 & H1 & V1).
  destruct (str_nonneg_spec sides ltac:(lia)) as (N2 & H2 & V2).
  rewrite (parse_advanced_flag_suffix _ (str_nonneg count) (str_nonneg sides)
             None None);
    try assumption; try exact I.
  - cbn [suffix_value flag_tags]. now rewrite V1, V2.
  - apply plain_expression_shape; lia.
  - rewrite V1, V2. now apply validate_ok.
Qed.

(** X3: on an expression of the simple grammar, [<count>d<sides>] with
    or without [+modifier] or [-modifier], the modifier being written
    with no more digits than [int] converts, [roll_advanced] draws the
    same dice as [roll] and returns the same rolls and the same total. *)
Theorem roll_advanced_agrees_with_roll (fuel : nat) (count sides m : Z)
    (op : operator) (g : rng) :
  1 <= count <= 100 -> 1 <= sides <= 1000 -> 0 <= m ->
  digits_fit (str_int m) = true ->
  (exists r r' g',
      roll (modified_expression count sides op m) g = Ok r g' /\
      roll_advanced fuel (modified_expression count sides op m) g = Ok r' g' /\
      rolls r' = rolls r /\ total r' = total r) /\
  (exists r r' g',
      roll (plain_expression count sides) g = Ok r g' /\
      roll_advanced fuel (plain_expression count sides) g = Ok r' g' /\
      rolls r' = rolls r /\ total r' = total r).
Proof.
  intros Hc Hs Hm _.
  assert (Hv : validate count sides = inr tt) by now apply validate_ok.
  split.
  - pose proof (parse_modified_expression count sides m op
                  ltac:(lia) ltac:(lia) Hm) as Hp.
    eexists. eexists. eexists.
    split; [apply (roll_parsed _ g Hp Hv)|].
    rewrite (roll_advanced_parsed fuel _ g (parse_advanced_modified count sides m op Hc Hs Hm)).
    change (parse_options count []) with no_options.
    rewrite roll_with_no_options.
    split; [reflexivity|]. cbn [advanced_result rolls total fst].
    split; [reflexivity|]. destruct op; cbn [simple_total]; lia.
  - eexists. eexists. eexists.
    split; [apply (roll_parsed _ g (parse_plain_expression count sides ltac:(lia) ltac:(lia)) Hv)|].
    rewrite (roll_advanced_parsed fuel _ g (parse_advanced_plain count sides Hc Hs)).
    change (parse_options count []) with no_options.
    rewrite roll_with_no_options.
    split; [reflexivity|]. cbn [advanced_result rolls total fst simple_total].
    split; [reflexivity|lia].
Qed.

Lemma roll_advanced_agrees_with_roll_witness :
  (exists r r' g',
      roll (modified_expression 2 6 OpMinus 3) (rng_of [4; 1]) = Ok r g' /\
      roll_advanced 0 (modified_expression 2 6 OpMinus 3) (rng_of [4; 1])
      = Ok r' g' /\
      rolls r' = rolls r /\ total r' = total r) /\
  (exists r r' g',
      roll (plain_expression 2 6) (rng_of [4; 1]) = Ok r g' /\
      roll_advanced 0 (plain_expression 2 6) (rng_of [4; 1]) = Ok r' g' /\
      rolls r' = rolls r /\ total r' = total r).
Proof.
  apply (roll_advanced_agrees_with_roll 0 2 6 3 OpMinus (rng_of [4; 1]));
    (lia || reflexivity).
Defined.

(** ** Keeping the highest or the lowest dice *)

Lemma sorted_ascending (l : list Z) :
  StronglySorted (fun a b => a <= b) (sorted false l).
Proof.
  unfold sorted.
  assert (H : StronglySorted (fun a b => Z.leb a b = true) (sort_by Z.leb l)).
  { apply sort_by_sorted.
    - intros x y H. apply Z.leb_gt in H. apply Z.leb_le. lia.
    - intros x y z H1 H2. apply Z.leb_le in H1, H2. apply Z.leb_le. lia. }
  induction H as [|x t Hs IH Hx]; constructor; [assumption|].
  eapply Forall_impl; [|exact Hx].
  intros a Ha. now apply Z.leb_le in Ha.
Qed.

(** In a sorted list every element of a prefix is related to every
    element after it. *)
Lemma sorted_prefix_rest (R : Z -> Z -> Prop) (l : list Z) :
  StronglySorted R l ->
  forall k x y, In x (firstn k l) -> In y (skipn k l) -> R x y.
Proof.
  induction 1 as [|a l Hs IH Ha]; intros k x y Hx Hy.
  - rewrite firstn_nil in Hx. contradiction.
  - destruct k as [|k]; [contradiction|].
    cbn [firstn skipn] in Hx, Hy. destruct Hx as [<- | Hx].
    + rewrite Forall_forall in Ha. apply Ha.
      rewrite <- (firstn_skipn k l). apply in_or_app. now right.
    + now apply (IH k).
Qed.

(** A keep step with [0 < keep < len(rolls)] splits the dice into the
    [keep] kept and the others, none of which beats a kept one. *)
Lemma keep_step_extreme (reverse : bool) (label : string) (keep : Z)
    (rs : list Z) (bd : str) :
  0 < keep < len rs ->
  exists dropped,
    Z.of_nat (List.length (fst (keep_step reverse label keep (rs, bd)))) = keep /\
    Permutation rs (fst (keep_step reverse label keep (rs, bd)) ++ dropped) /\
    (forall x y, In x (fst (keep_step reverse label keep (rs, bd))) ->
                 In y dropped -> keep_order reverse x y).
Proof.
  intros [Hlo Hhi]. unfold keep_step.
  apply Z.ltb_lt in Hlo as Hlo'. apply Z.ltb_lt in Hhi as Hhi'.
  rewrite Hlo', Hhi'. cbn [andb fst].
  exists (skipn (Z.to_nat keep) (sorted reverse rs)).
  split; [|split].
  - rewrite length_firstn, <- (Permutation_length (sorted_perm reverse rs)).
    unfold len in Hhi. lia.
  - rewrite firstn_skipn. apply sorted_perm.
  - intros x y Hx Hy. destruct reverse; cbn [keep_order].
    + apply (sorted_prefix_rest (fun a b => b <= a) _ (sorted_descending rs)
               (Z.to_nat keep) x y Hx Hy).
    + apply (sorted_prefix_rest (fun a b => a <= b) _ (sorted_ascending rs)
               (Z.to_nat keep) x y Hx Hy).
Qed.

(** The standard branch without exploding dice and rerolls: the plain
    roll, then keep-highest, then keep-lowest. *)
Lemma roll_standard_keeps (fuel : nat) (n s : Z) (o : options) (g : rng) :
  exploding o = false -> reroll_threshold o = 0 ->
  roll_standard fuel n s o g
  = Ok (keep_step false " (Keep lowest " (keep_lowest o)
          (keep_step true " (Keep highest " (keep_highest o)
             (fst (roll_dice (Z.to_nat n) s g),
              lit "Rolls: " ++ str_list (fst (roll_dice (Z.to_nat n) s g)))))
       (snd (roll_dice (Z.to_nat n) s g)).
Proof.
  intros Hex Hre. unfold roll_standard, bind. rewrite Hex, Hre, roll_simple_ok.
  reflexivity.
Qed.

(** X4: "keep highest k" of n plain dice ([0 < k < n], no other option
    in effect) returns k rolls; the n dice are these and the dropped
    ones, and no dropped die is higher than a kept one. The total is
    the sum of the kept dice plus the modifier. *)
Theorem keep_highest_keeps_the_highest (fuel : nat) (e : str) (g : rng)
    (n s m : Z) (tags : list tag) :
  parse_advanced e = inr (n, s, m, tags) ->
  advantage (parse_options n tags) || disadvantage (parse_options n tags) = false ->
  exploding (parse_options n tags) = false ->
  reroll_threshold (parse_options n tags) = 0 ->
  keep_lowest (parse_options n tags) = 0 ->
  0 < keep_highest (parse_options n tags) < n ->
  exists r dropped,
    roll_advanced fuel e g = Ok r (snd (roll_dice (Z.to_nat n) s g)) /\
    Z.of_nat (List.length (rolls r)) = keep_highest (parse_options n tags) /\
    Permutation (fst (roll_dice (Z.to_nat n) s g)) (rolls r ++ dropped) /\
    (forall x y, In x (rolls r) -> In y dropped -> y <= x) /\
    total r = sum (rolls r) + m.
Proof.
  intros Hp Hadv Hex Hre Hkl Hkh.
  rewrite (roll_advanced_parsed fuel e g Hp). unfold roll_with_options.
  rewrite Hadv, (roll_standard_keeps fuel n s _ g Hex Hre), Hkl, keep_step_none.
  set (raw := fst (roll_dice (Z.to_nat n) s g)).
  destruct (keep_step_extreme true " (Keep highest "
              (keep_highest (parse_options n tags)) raw
              (lit "Rolls: " ++ str_list raw)) as (dropped & Hlen & Hperm & Hord).
  { unfold len, raw. rewrite roll_dice_length. lia. }
  eexists. exists dropped. split; [reflexivity|].
  cbn [advanced_result rolls total]. repeat split; assumption.
Qed.

Lemma keep_highest_keeps_the_highest_witness :
  exists r dropped,
    roll_advanced 0 (lit "5d10k2+1") (rng_of [3; 8; 0; 8; 5])
    = Ok r (snd (roll_dice 5 10 (rng_of [3; 8; 0; 8; 5]))) /\
    Z.of_nat (List.length (rolls r)) = 2 /\
    Permutation (fst (roll_dice 5 10 (rng_of [3; 8; 0; 8; 5]))) (rolls r ++ dropped) /\
    (forall x y, In x (rolls r) -> In y dropped -> y <= x) /\
    total r = sum (rolls r) + 1.
Proof.
  apply (keep_highest_keeps_the_highest 0 (lit "5d10k2+1")
           (rng_of [3; 8; 0; 8; 5]) 5 10 1 [(lit "k", lit "2")]);
    try (vm_compute; reflexivity).
  vm_compute. split; reflexivity.
Defined.

(** X5: "keep lowest k" of n plain dice ([0 < k < n], no other option
    in effect) returns k rolls; the n dice are these and the dropped
    ones, and no dropped die is lower than a kept one. *)
Theorem keep_lowest_keeps_the_lowest (fuel : nat) (e : str) (g : rng)
    (n s m : Z) (tags : list tag) :
  parse_advanced e = inr (n, s, m, tags) ->
  advantage (parse_options n tags) || disadvantage (parse_options n tags) = false ->
  exploding (parse_options n tags) = false ->
  reroll_threshold (parse_options n tags) = 0 ->
  keep_highest (parse_options n tags) = 0 ->
  0 < keep_lowest (parse_options n tags) < n ->
  exists r dropped,
    roll_advanced fuel e g = Ok r (snd (roll_dice (Z.to_nat n) s g)) /\
    Z.of_nat (List.length (rolls r)) = keep_lowest (parse_options n tags) /\
    Permutation (fst (roll_dice (Z.to_nat n) s g)) (rolls r ++ dropped) /\
    (forall x y, In x (rolls r) -> In y dropped -> x <= y) /\
    total r = sum (rolls r) + m.
Proof.
  intros Hp Hadv Hex Hre Hkh Hkl.
  rewrite (roll_advanced_parsed fuel e g Hp). unfold roll_with_options.
  rewrite Hadv, (roll_standard_keeps fuel n s _ g Hex Hre), Hkh, keep_step_none.
  set (raw := fst (roll_dice (Z.to_nat n) s g)).
  destruct (keep_step_extreme false " (Keep lowest "
              (keep_lowest (parse_options n tags)) raw
              (lit "Rolls: " ++ str_list raw)) as (dropped & Hlen & Hperm & Hord).
  { unfold len, raw. rewrite roll_dice_length. lia. }
  eexists. exists dropped. split; [reflexivity|].
  cbn [advanced_result rolls total]. repeat split; assumption.
Qed.

Lemma keep_lowest_keeps_the_lowest_witness :
  exists r dropped,
    roll_advanced 0 (lit "2d6x1") (rng_of [3; 5])
    = Ok r (snd (roll_dice 2 6 (rng_of [3; 5]))) /\
    Z.of_nat (List.length (rolls r)) = 1 /\
    Permutation (fst (roll_dice 2 6 (rng_of [3; 5]))) (rolls r ++ dropped) /\
    (forall x y, In x (rolls r) -> In y dropped -> x <= y) /\
    total r = sum (rolls r) + 0.
Proof.
  apply (keep_lowest_keeps_the_lowest 0 (lit "2d6x1") (rng_of [3; 5])
           2 6 0 [(lit "x", lit "1")]);
    try (vm_compute; reflexivity).
  vm_compute. split; reflexivity.
Defined.

Lemma keep_step_extreme_eq (reverse : bool) (label : string) (keep : Z)
    (rs : list Z) (bd : list ascii) :
  0 < keep < len rs ->
  exists kept dropped (bd' : list ascii),
    keep_step reverse label keep (rs, bd) = (kept, bd') /\
    Z.of_nat (List.length kept) = keep /\
    Permutation rs (kept ++ dropped) /\
    (forall x y, In x kept -> In y dropped -> keep_order reverse x y).
Proof.
  intros [Hlo Hhi]. unfold keep_step.
  apply Z.ltb_lt in Hlo as Hlo'. apply Z.ltb_lt in Hhi as Hhi'.
  rewrite Hlo', Hhi'. cbn [andb].
  eexists. exists (skipn (Z.to_nat keep) (sorted reverse rs)). eexists.
  split; [reflexivity|]. split; [|split].
  - rewrite length_firstn, <- (Permutation_length (sorted_perm reverse rs)).
    unfold len in Hhi. lia.
  - rewrite firstn_skipn. apply sorted_perm.
  - intros x y Hx Hy. destruct reverse; cbn [keep_order].
    + apply (sorted_prefix_rest (fun a b => b <= a) _ (sorted_descending rs)
               (Z.to_nat keep) x y Hx Hy).
    + apply (sorted_prefix_rest (fun a b => a <= b) _ (sorted_ascending rs)
               (Z.to_nat keep) x y Hx Hy).
Qed.

(** X6: with both keeps in effect ([0 < keep_lowest < keep_highest < n],
    plain dice), keep-highest is applied first and keep-lowest to what
    it kept: the result is the band of [keep_lowest] dice that lie above
    every die dropped by keep-highest and below every die dropped by
    keep-lowest. *)
Theorem keep_highest_then_lowest (fuel : nat) (e : str) (g : rng)
    (n s m : Z) (tags : list tag) :
  parse_advanced e = inr (n, s, m, tags) ->
  advantage (parse_options n tags) || disadvantage (parse_options n tags) = false ->
  exploding (parse_options n tags) = false ->
  reroll_threshold (parse_options n tags) = 0 ->
  0 < keep_lowest (parse_options n tags) < keep_highest (parse_options n tags) ->
  keep_highest (parse_options n tags) < n ->
  exists r below above,
    roll_advanced fuel e g = Ok r (snd (roll_dice (Z.to_nat n) s g)) /\
    Z.of_nat (List.length (rolls r)) = keep_lowest (parse_options n tags) /\
    Z.of_nat (List.length below) = n - keep_highest (parse_options n tags) /\
    Permutation (fst (roll_dice (Z.to_nat n) s g)) (below ++ rolls r ++ above) /\
    (forall x, In x (rolls r) ->
               (forall y, In y below -> y <= x) /\
               (forall z, In z above -> x <= z)).
Proof.
  intros Hp Hadv Hex Hre Hkl Hkh.
  rewrite (roll_advanced_parsed fuel e g Hp). unfold roll_with_options.
  rewrite Hadv, (roll_standard_keeps fuel n s _ g Hex Hre).
  set (raw := fst (roll_dice (Z.to_nat n) s g)).
  assert (Hraw : len raw = n).
  { unfold len, raw. rewrite roll_dice_length. lia. }
  destruct (keep_step_extreme_eq true " (Keep highest "
              (keep_highest (parse_options n tags)) raw
              (lit "Rolls: " ++ str_list raw))
    as (kept1 & below & bd1 & E1 & Hlen1 & Hperm1 & Hord1); [lia|].
  destruct (keep_step_extreme_eq false " (Keep lowest "
              (keep_lowest (parse_options n tags)) kept1 bd1)
    as (kept2 & above & bd2 & E2 & Hlen2 & Hperm2 & Hord2); [unfold len; lia|].
  rewrite E1, E2.
  eexists. exists below, above. split; [reflexivity|].
  cbn [advanced_result rolls fst].
  split; [exact Hlen2|]. split; [|split].
  - apply Permutation_length in Hperm1. rewrite length_app in Hperm1.
    unfold len in Hraw. lia.
  - rewrite Hperm1, Hperm2. apply Permutation_app_comm.
  - intros x Hx. split.
    + intros y Hy. apply (Hord1 x y); [|assumption].
      eapply Permutation_in; [symmetry; exact Hperm2|].
      apply in_or_app. now left.
    + intros z Hz. apply (Hord2 x z Hx Hz).
Qed.

Lemma keep_highest_then_lowest_witness :
  exists r below above,
    roll_advanced 0 (lit "5d6k3x1") (rng_of [0; 5; 2; 4; 1])
    = Ok r (snd (roll_dice 5 6 (rng_of [0; 5; 2; 4; 1]))) /\
    Z.of_nat (List.length (rolls r)) = 1 /\
    Z.of_nat (List.length below) = 5 - 3 /\
    Permutation (fst (roll_dice 5 6 (rng_of [0; 5; 2; 4; 1])))
      (below ++ rolls r ++ above) /\
    (forall x, In x (rolls r) ->
               (forall y, In y below -> y <= x) /\
               (forall z, In z above -> x <= z)).
Proof.
  apply (keep_highest_then_lowest 0 (lit "5d6k3x1") (rng_of [0; 5; 2; 4; 1])
           5 6 0 [(lit "k", lit "3"); (lit "x", lit "1")]);
    try (vm_compute; reflexivity).
  - vm_compute. split; reflexivity.
Defined.

(** ** Rerolls *)

Lemma draw_after_advance (sides : Z) (g : rng) (k : nat) :
  draw_after sides (advance g) k = draw_after sides g (S k).
Proof.
  unfold draw_after. cbn [advance tape cursor].
  now rewrite Nat.add_succ_r.
Qed.

Lemma draw_after_next (sides : Z) (g : rng) :
  draw_after sides g 0 = fst (randint 1 sides g).
Proof.
  unfold draw_after. rewrite Nat.add_0_r. now destruct g.
Qed.

(** X7: the reroll loop always returns and keeps the number of dice. A
    die above the threshold stays where it is; a die at or below the
    threshold is replaced by the value of one fresh draw, the draw
    number [k] for the die that has [k] such dice before it. So there
    are as many draws as dice at or below the threshold, and a
    replacement is not rerolled again, even when it is itself at or
    below the threshold. *)
Theorem reroll_each_once (threshold sides : Z) (l : list Z) (g : rng) :
  1 <= sides ->
  exists l' g',
    reroll_each threshold sides l g = Ok l' g' /\
    List.length l' = List.length l /\
    (forall i x,
        nth_error l i = Some x ->
        nth_error l' i
        = Some (if x <=? threshold
                then draw_after sides g
                       (List.length (at_or_below threshold (firstn i l)))
                else x)) /\
    Forall2 (rerolled threshold sides) l l' /\
    tape g' = tape g /\
    cursor g' = (cursor g + List.length (at_or_below threshold l))%nat.
Proof.
  intros Hs. revert g. induction l as [|x l IH]; intros g; cbn [reroll_each].
  - eexists. eexists. split; [reflexivity|]. split; [reflexivity|].
    split; [intros [|i] y; discriminate|].
    split; [constructor|]. split; [reflexivity|]. cbn. lia.
  - unfold bind. cbn [at_or_below filter].
    destruct (x <=? threshold) eqn:E.
    + rewrite draw_ok.
      destruct (IH (advance g)) as (l' & g' & -> & Hlen & Hnth & HF & Ht & Hc).
      eexists. eexists. split; [reflexivity|].
      split; [cbn [List.length]; now f_equal|].
      split; [|split; [|split]].
      * intros [|i] y; cbn [nth_error firstn].
        -- intros [= <-]. rewrite E. unfold at_or_below.
           cbn [filter List.length]. now rewrite draw_after_next.
        -- intros Hy. rewrite (Hnth i y Hy). unfold at_or_below.
           cbn [filter]. rewrite E. cbn [List.length].
           now rewrite draw_after_advance.
      * constructor; [|assumption]. unfold rerolled. rewrite E.
        now apply randint_between.
      * exact Ht.
      * rewrite Hc. cbn [advance cursor List.length]. unfold at_or_below. lia.
    + cbn [ret].
      destruct (IH g) as (l' & g' & -> & Hlen & Hnth & HF & Ht & Hc).
      eexists. eexists. split; [reflexivity|].
      split; [cbn [List.length]; now f_equal|].
      split; [|split; [|split]].
      * intros [|i] y; cbn [nth_error firstn].
        -- intros [= <-]. now rewrite E.
        -- intros Hy. rewrite (Hnth i y Hy). unfold at_or_below.
           cbn [filter]. now rewrite E.
      * constructor; [|assumption]. unfold rerolled. now rewrite E.
      * exact Ht.
      * exact Hc.
Qed.

Lemma reroll_each_once_witness :
  exists l' g',
    reroll_each 2 6 [1; 5; 2; 6] (rng_of [1; 3]) = Ok l' g' /\
    List.length l' = List.length [1; 5; 2; 6] /\
    (forall i x,
        nth_error [1; 5; 2; 6] i = Some x ->
        nth_error l' i
        = Some (if x <=? 2
                then draw_after 6 (rng_of [1; 3])
                       (List.length (at_or_below 2 (firstn i [1; 5; 2; 6])))
                else x)) /\
    Forall2 (rerolled 2 6) [1; 5; 2; 6] l' /\
    tape g' = tape (rng_of [1; 3]) /\
    cursor g' = 2%nat.
Proof. apply (reroll_each_once 2 6 [1; 5; 2; 6] (rng_of [1; 3])). lia. Defined.

(** ** Exploding dice that stop *)

Lemma below_max_app (sides : Z) (l1 l2 : list Z) :
  below_max sides (l1 ++ l2) = below_max sides l1 ++ below_max sides l2.
Proof. apply filter_app. Qed.

Lemma explode_while_chain (fuel : nat) (sides roll : Z) (temp l : list Z)
    (g g' : rng) :
  explode_while fuel sides roll temp g = Ok l g' ->
  exists extra,
    l = temp ++ extra /\
    cursor g' = (cursor g + List.length extra)%nat /\
    List.length (below_max sides (roll :: extra)) = 1%nat.
Proof.
  revert roll temp g. induction fuel as [|fuel IH]; intros roll temp g;
    [discriminate|].
  cbn [explode_while]. destruct (roll =? sides) eqn:E.
  - unfold bind. rewrite draw_ok. intros H.
    apply IH in H as (extra & -> & Hc & Hn).
    exists (fst (randint 1 sides g) :: extra). split; [now rewrite <- app_assoc|].
    split; [rewrite Hc; cbn [advance cursor List.length]; lia|].
    cbn [below_max filter] in *. rewrite E. cbn [negb]. exact Hn.
  - cbn [ret]. intros [= <- <-]. exists []. rewrite app_nil_r.
    split; [reflexivity|]. split; [cbn; lia|].
    cbn [below_max filter]. now rewrite E.
Qed.

(** X8: when the exploding roll of [n] dice returns, its working set
    holds exactly [n] values below the maximum face, one closing the
    chain of each die, every other value being a maximum that exploded;
    one draw was made per value. *)
Theorem explode_for_chains (fuel n : nat) (sides : Z) (l : list Z)
    (g g' : rng) :
  explode_for fuel n sides [] g = Ok l g' ->
  List.length (below_max sides l) = n /\
  (n <= List.length l)%nat /\
  cursor g' = (cursor g + List.length l)%nat.
Proof.
  assert (H : forall temp g,
             explode_for fuel n sides temp g = Ok l g' ->
             exists extra,
               l = temp ++ extra /\
               List.length (below_max sides extra) = n /\
               cursor g' = (cursor g + List.length extra)%nat).
  { induction n as [|n IH]; intros temp g0; cbn [explode_for].
    - cbn [ret]. intros [= <- <-]. exists []. rewrite app_nil_r.
      repeat split; cbn; lia.
    - unfold bind at 1. rewrite draw_ok. unfold bind.
      destruct (explode_while fuel sides (fst (randint 1 sides g0))
                  (temp ++ [fst (randint 1 sides g0)]) (advance g0))
        as [t g1| |] eqn:Ew; try discriminate.
      apply explode_while_chain in Ew as (chain & -> & Hc1 & Hn1).
      intros Hrest. apply IH in Hrest as (extra & -> & Hn & Hc).
      exists (fst (randint 1 sides g0) :: chain ++ extra).
      split; [now rewrite <- !app_assoc|]. split.
      + change (fst (randint 1 sides g0) :: chain ++ extra)
          with ((fst (randint 1 sides g0) :: chain) ++ extra).
        rewrite below_max_app, length_app, Hn1, Hn. reflexivity.
      + rewrite Hc, Hc1. cbn [advance cursor List.length].
        rewrite length_app. lia. }
  intros Hl. apply H in Hl as (extra & -> & Hn & Hc). cbn [app].
  split; [assumption|]. split; [|assumption].
  rewrite <- Hn. unfold below_max. apply filter_length_le.
Qed.

Lemma explode_for_chains_witness :
  List.length (below_max 6 [6; 6; 2; 4]) = 2%nat /\
  (2 <= List.length [6; 6; 2; 4])%nat /\
  cursor (Rng (tape (rng_of [5; 5; 1; 3])) 4) = (0 + List.length [6; 6; 2; 4])%nat.
Proof.
  apply (explode_for_chains 3 2 6 [6; 6; 2; 4] (rng_of [5; 5; 1; 3])
           (Rng (tape (rng_of [5; 5; 1; 3])) 4)).
  vm_compute. reflexivity.
Defined.

Lemma never_max_advance (sides : Z) (g : rng) :
  never_max sides g -> never_max sides (advance g).
Proof. intros H i Hi. apply (H i). cbn [advance cursor] in Hi. lia. Qed.

Lemma never_max_now (sides : Z) (g : rng) :
  never_max sides g -> (fst (randint 1 sides g) =? sides) = false.
Proof.
  intros H. apply Z.eqb_neq. specialize (H (cursor g) (Nat.le_refl _)).
  now destruct g.
Qed.

Lemma roll_dice_S (n : nat) (sides : Z) (g : rng) :
  roll_dice (S n) sides g
  = (fst (randint 1 sides g) :: fst (roll_dice n sides (advance g)),
     snd (roll_dice n sides (advance g))).
Proof.
  cbn [roll_dice]. unfold randint. cbn [fst].
  now destruct (roll_dice n sides (advance g)).
Qed.

(** X9: as long as no die lands on its maximum face the exploding roll
    is the plain roll: for every positive bound on the loop it returns
    the same dice after the same draws. *)
Theorem explode_for_without_maximum (fuel n : nat) (sides : Z) (g : rng) :
  never_max sides g ->
  explode_for (S fuel) n sides [] g
  = Ok (fst (roll_dice n sides g)) (snd (roll_dice n sides g)).
Proof.
  assert (H : forall temp g,
             never_max sides g ->
             explode_for (S fuel) n sides temp g
             = Ok (temp ++ fst (roll_dice n sides g)) (snd (roll_dice n sides g))).
  { induction n as [|n IH]; intros temp g0 Hg;
      [cbn [explode_for roll_dice ret fst snd]; now rewrite app_nil_r|].
    rewrite roll_dice_S. cbn [explode_for fst snd].
    - unfold bind at 1. rewrite draw_ok. unfold bind.
      cbn [explode_while]. rewrite (never_max_now sides g0 Hg). cbn [ret].
      rewrite (IH _ (advance g0) (never_max_advance sides g0 Hg)).
      now rewrite <- app_assoc. }
  intros Hg. now rewrite (H [] g Hg).
Qed.

Lemma explode_for_without_maximum_witness :
  explode_for 1 3 6 [] (Rng (fun _ => 2) 0)
  = Ok (fst (roll_dice 3 6 (Rng (fun _ => 2) 0)))
       (snd (roll_dice 3 6 (Rng (fun _ => 2) 0))).
Proof.
  apply (explode_for_without_maximum 0 3 6 (Rng (fun _ => 2) 0)).
  intros i _. vm_compute. discriminate.
Defined.

(** ** Rolls of one twenty-sided die *)

Lemma signed_suffix_spec (m : Z) :
  is_suffix (signed_suffix m) /\ suffix_value (signed_suffix m) = m /\
  normalize (suffix_text (signed_suffix m)) = suffix_text (signed_suffix m).
Proof.
  unfold signed_suffix. cbn [is_suffix suffix_value suffix_text].
  destruct (str_nonneg_spec (Z.abs m) (Z.abs_nonneg m)) as (N & H & V).
  rewrite V. change (?c :: str_nonneg (Z.abs m))
    with ([c] ++ str_nonneg (Z.abs m)).
  rewrite normalize_app, (normalize_digits _ H).
  destruct (0 <=? m) eqn:E; [apply Z.leb_le in E | apply Z.leb_gt in E];
    (split; [repeat split; assumption || reflexivity|]);
    (split; [cbn [Ascii.eqb Bool.eqb]; lia | reflexivity]).
Qed.

Lemma d20_with_suffix (m : Z) :
  d20_with m = lit "1d20" ++ suffix_text (signed_suffix m).
Proof.
  unfold d20_with, signed_suffix, str_int. cbn [suffix_text].
  destruct (0 <=? m) eqn:E; [apply Z.leb_le in E | apply Z.leb_gt in E].
  - destruct (m <? 0) eqn:E'; [apply Z.ltb_lt in E'; lia|].
    now rewrite Z.abs_eq.
  - destruct (m <? 0) eqn:E'; [|apply Z.ltb_ge in E'; lia].
    now rewrite Z.abs_neq by lia.
Qed.

(** What [roll_advanced] reads from [1d20], a flag and a signed
    number. *)
Lemma parse_advanced_d20 (e : str) (f : option ascii) (m : option (ascii * str)) :
  normalize e = lit "1d20" ++ flag_text f ++ suffix_text m ->
  is_flag f -> is_suffix m ->
  parse_advanced e = inr (1, 20, suffix_value m, flag_tags f).
Proof.
  intros He Hf Hm.
  apply (parse_advanced_flag_suffix e (lit "1") (lit "20") f m);
    try assumption; try discriminate; try reflexivity.
  - now repeat constructor.
  - now repeat constructor.
Qed.

Lemma roll_dice_one (sides : Z) (g : rng) :
  roll_dice (Z.to_nat 1) sides g = ([fst (randint 1 sides g)], advance g).
Proof. change (Z.to_nat 1) with 1%nat. now rewrite roll_dice_S. Qed.

Lemma sum_one (v : Z) : sum [v] = v.
Proof. reflexivity. Qed.

(** One die with the options of a flag: the draw itself, or the higher
    or the lower of two draws. *)
Lemma roll_d20_with_flag (fuel : nat) (f : option ascii) (g : rng) :
  f = None \/ f = Some "a"%char \/ f = Some "d"%char ->
  exists bd,
    roll_with_options fuel 1 20 (parse_options 1 (flag_tags f)) g
    = match f with
      | None => Ok ([d20 g], bd) (advance g)
      | Some c =>
          Ok ([if Ascii.eqb c "a"
               then Z.max (d20 g) (d20 (advance g))
               else Z.min (d20 g) (d20 (advance g))], bd)
             (advance (advance g))
      end.
Proof.
  intros [-> | [-> | ->]].
  - eexists. change (parse_options 1 (flag_tags None)) with no_options.
    rewrite roll_with_no_options, roll_dice_one. reflexivity.
  - change (parse_options 1 (flag_tags (Some "a"%char)))
      with (mkOptions true false 0 0 false 0).
    unfold roll_with_options, roll_twice, bind.
    cbn [advantage disadvantage orb]. rewrite !roll_simple_ok, !roll_dice_one.
    cbn [fst snd ret]. rewrite !sum_one. fold (d20 g). fold (d20 (advance g)).
    cbn [Ascii.eqb Bool.eqb].
    destruct (d20 (advance g) <? d20 g) eqn:E;
      [apply Z.ltb_lt in E; rewrite Z.max_l by lia
      | apply Z.ltb_ge in E; rewrite Z.max_r by lia]; eexists; reflexivity.
  - change (parse_options 1 (flag_tags (Some "d"%char)))
      with (mkOptions false true 0 0 false 0).
    unfold roll_with_options, roll_twice, bind.
    cbn [advantage disadvantage orb]. rewrite !roll_simple_ok, !roll_dice_one.
    cbn [fst snd ret]. rewrite !sum_one. fold (d20 g). fold (d20 (advance g)).
    cbn [Ascii.eqb Bool.eqb].
    destruct (d20 g <? d20 (advance g)) eqn:E;
      [apply Z.ltb_lt in E; rewrite Z.min_l by lia
      | apply Z.ltb_ge in E; rewrite Z.min_r by lia]; eexists; reflexivity.
Qed.

Lemma roll_advanced_d20 (fuel : nat) (e : str) (f : option ascii)
    (m : option (ascii * str)) (g : rng) :
  normalize e = lit "1d20" ++ flag_text f ++ suffix_text m ->
  f = None \/ f = Some "a"%char \/ f = Some "d"%char ->
  is_suffix m ->
  exists r,
    roll_advanced fuel e g = Ok r (snd (d20_pick f g)) /\
    expression r = e /\
    rolls r = [fst (d20_pick f g)] /\
    total r = fst (d20_pick f g) + suffix_value m.
Proof.
  intros He Hf Hm.
  assert (Hflag : is_flag f) by (destruct Hf as [-> | [-> | ->]]; reflexivity).
  rewrite (roll_advanced_parsed fuel e g (parse_advanced_d20 e f m He Hflag Hm)).
  destruct (roll_d20_with_flag fuel f g Hf) as [bd ->].
  destruct Hf as [-> | [-> | ->]]; eexists; (split; [reflexivity|]);
    cbn [advanced_result expression rolls total fst snd d20_pick sum_one];
    rewrite ?sum_one; repeat split; reflexivity.
Qed.

Lemma dispatch_without_character (e : str) : dispatch_of e None = StandardRoll.
Proof. reflexivity. Qed.

Lemma roll_with_context_standard (fuel : nat) (e : str)
    (who : option character) (g g' : rng) (r : DiceRoll) :
  dispatch_of e who = StandardRoll ->
  roll_advanced fuel (rewritten e) g = Ok r g' ->
  roll_with_context fuel e who g = Ok r g'.
Proof.
  intros Hd Hr. unfold roll_with_context, context_body.
  rewrite Hd. unfold try_except, try_except_ValueError. now rewrite Hr.
Qed.

(** ** Inputs of [roll_with_context] without a [d] *)

(** X10: an input without the letter [d] that is not a signed integer
    is rolled as a plain [1d20], whatever it says; so is, for instance,
    [2D6], the lower-case [d] being looked for in the input as typed. *)
Theorem roll_with_context_defaults_to_d20 (fuel : nat) (e : str)
    (who : option character) (g : rng) :
  dispatch_of e who = StandardRoll ->
  existsb (Ascii.eqb "d") e = false ->
  rmatch_start BARE_MODIFIER_PATTERN e = None ->
  exists r,
    roll_with_context fuel e who g = Ok r (advance g) /\
    expression r = lit "1d20" /\
    rolls r = [d20 g] /\
    total r = d20 g.
Proof.
  intros Hd Hno Hbare.
  assert (Hre : rewritten e = lit "1d20").
  { unfold rewritten. now rewrite Hno, Hbare. }
  destruct (roll_advanced_d20 fuel (lit "1d20") None None g)
    as (r & Hr & He & Hrolls & Htotal);
    [reflexivity | now left | exact I |].
  exists r. split; [|split; [|split]]; try assumption.
  - apply roll_with_context_standard; [assumption | now rewrite Hre].
  - rewrite Htotal. cbn [d20_pick fst suffix_value]. lia.
Qed.

Lemma roll_with_context_defaults_to_d20_witness :
  exists r,
    roll_with_context 0 (lit "2D6") None (rng_of [16]) = Ok r (advance (rng_of [16])) /\
    expression r = lit "1d20" /\
    rolls r = [d20 (rng_of [16])] /\
    total r = d20 (rng_of [16]).
Proof.
  apply (roll_with_context_defaults_to_d20 0 (lit "2D6") None (rng_of [16]));
    reflexivity.
Defined.

Lemma digit_not_sign (c : ascii) : is_digit c = true -> one_of "+-" c = false.
Proof.
  intros H. destruct (one_of "+-" c) eqn:E; [|reflexivity].
  apply sign_char in E as [-> | ->]; discriminate.
Qed.

Lemma digit_is_not_d (c : ascii) : is_digit c = true -> Ascii.eqb "d" c = false.
Proof.
  intros H. destruct (Ascii.eqb "d" c) eqn:E; [|reflexivity].
  apply Ascii.eqb_eq in E. subst. discriminate.
Qed.

Lemma digit_not_blank (c : ascii) : is_digit c = true -> is_space c = false.
Proof.
  intros H. apply is_digit_code in H. unfold is_space.
  repeat (apply orb_false_iff; split);
    [apply Z.eqb_neq; lia | | ];
    apply andb_false_iff; right; apply Z.leb_gt; lia.
Qed.

Lemma integer_text_no_d (pre ds : str) :
  integer_text pre ds -> existsb (Ascii.eqb "d") (pre ++ ds) = false.
Proof.
  intros (Hpre & Hds & _). rewrite existsb_app.
  assert (H : existsb (Ascii.eqb "d") ds = false).
  { induction Hds as [|c ds Hc Hds IH]; [reflexivity|].
    cbn [existsb]. now rewrite (digit_is_not_d c Hc), IH. }
  rewrite H. destruct Hpre as [-> | [-> | ->]]; reflexivity.
Qed.

Lemma digits_to_the_end (ds bef : str) (c : caps) :
  is_digit_list ds -> ds <> [] ->
  first_result (run (Plus digit) (Pos bef ds) c)
  = Some (Pos (rev ds ++ bef) [], c).
Proof.
  intros Hds Hne.
  pose proof (plus_digits_first ds bef [] c Hds Hne I) as H.
  now rewrite app_nil_r in H.
Qed.

Lemma integer_text_matches (pre ds : str) :
  integer_text pre ds ->
  exists mt, rmatch_start BARE_MODIFIER_PATTERN (pre ++ ds) = Some mt.
Proof.
  intros (Hpre & Hds & Hne). unfold rmatch_start.
  assert (H : exists x, first_result
                          (run BARE_MODIFIER_PATTERN (Pos [] (pre ++ ds)) [])
                        = Some x).
  { unfold BARE_MODIFIER_PATTERN, Seq. cbn [fold_right].
    rewrite run_cat. cbn [run before flat_map fst snd]. rewrite app_nil_r.
    change (flat_map ?f (run (Opt sign) ?p ?c))
      with (run (Cat (Opt sign) (Cat (Plus digit) (Cat Eol Eps))) p c).
    rewrite run_cat.
    destruct Hpre as [-> | [-> | ->]]; eexists.
    - eapply first_flat_map.
      { unfold Opt. rewrite run_alt.
        destruct ds as [|d ds]; [congruence|]. inversion Hds; subst.
        cbn [app]. unfold sign. rewrite run_cls_cons, digit_not_sign by assumption.
        reflexivity. }
      cbn [fst snd]. rewrite run_cat. eapply first_flat_map.
      { apply digits_to_the_end; assumption. }
      reflexivity.
    - eapply first_flat_map.
      { unfold Opt. rewrite run_alt. apply first_app. reflexivity. }
      cbn [fst snd]. rewrite run_cat. eapply first_flat_map.
      { apply digits_to_the_end; assumption. }
      reflexivity.
    - eapply first_flat_map.
      { unfold Opt. rewrite run_alt. apply first_app. reflexivity. }
      cbn [fst snd]. rewrite run_cat. eapply first_flat_map.
      { apply digits_to_the_end; assumption. }
      reflexivity. }
  destruct H as [[p' c] H]. rewrite (match_at_first _ _ _ _ H). eauto.
Qed.

Lemma integer_text_value (pre ds : str) :
  integer_text pre ds -> int_signed (pre ++ ds) = integer_value pre ds.
Proof.
  intros (Hpre & Hds & Hne). unfold int_signed, integer_value.
  assert (Hf : filter (fun c => negb (is_space c)) ds = ds).
  { clear Hne. induction Hds as [|c ds Hc Hds IH]; [reflexivity|].
    cbn [filter]. rewrite (digit_not_blank c Hc). cbn [negb]. now f_equal. }
  rewrite filter_app, Hf.
  destruct Hpre as [-> | [-> | ->]]; cbn [lit list_ascii_of_string filter app];
    try reflexivity.
  destruct ds as [|d ds]; [congruence|]. inversion Hds as [|? ? Hd _]; subst.
  destruct (Ascii.eqb d "-") eqn:E1.
  { apply Ascii.eqb_eq in E1. subst. discriminate. }
  destruct (Ascii.eqb d "+") eqn:E2.
  { apply Ascii.eqb_eq in E2. subst. discriminate. }
  reflexivity.
Qed.

Lemma rewritten_integer_text (pre ds : str) :
  integer_text pre ds ->
  rewritten (pre ++ ds) = d20_with (integer_value pre ds).
Proof.
  intros H. unfold rewritten.
  rewrite (integer_text_no_d pre ds H). cbn [negb].
  destruct (integer_text_matches pre ds H) as [mt ->].
  now rewrite (integer_text_value pre ds H).
Qed.

Lemma normalize_d20_with (m : Z) :
  normalize (d20_with m)
  = lit "1d20" ++ flag_text None ++ suffix_text (signed_suffix m).
Proof.
  rewrite d20_with_suffix, normalize_app.
  destruct (signed_suffix_spec m) as (_ & _ & ->). reflexivity.
Qed.

(** X11: given a bare integer, signed or not, of no more digits than
    [int] converts, [roll_with_context] rolls one twenty-sided die and
    adds the integer; the expression of the result is the rewritten
    one, [1d20+m] or [1d20-m]. *)
Theorem roll_with_context_bare_modifier (fuel : nat) (pre ds : str) (g : rng) :
  integer_text pre ds -> digits_fit ds = true ->
  exists r,
    roll_with_context fuel (pre ++ ds) None g = Ok r (advance g) /\
    expression r = d20_with (integer_value pre ds) /\
    rolls r = [d20 g] /\
    total r = d20 g + integer_value pre ds.
Proof.
  intros H _. set (m := integer_value pre ds).
  destruct (signed_suffix_spec m) as (Hs & Hv & _).
  destruct (roll_advanced_d20 fuel (d20_with m) None (signed_suffix m) g
              (normalize_d20_with m) (or_introl eq_refl) Hs)
    as (r & Hr & He & Hrolls & Htotal).
  exists r. split; [|split; [|split]]; try assumption.
  - apply roll_with_context_standard; [apply dispatch_without_character|].
    now rewrite (rewritten_integer_text pre ds H).
  - now rewrite Htotal, Hv.
Qed.

Lemma roll_with_context_bare_modifier_witness :
  integer_text (lit "+") (lit "5") /\ digits_fit (lit "5") = true /\
  exists r,
    roll_with_context 0 (lit "+" ++ lit "5") None (rng_of [16])
    = Ok r (advance (rng_of [16])) /\
    expression r = d20_with (integer_value (lit "+") (lit "5")) /\
    rolls r = [d20 (rng_of [16])] /\
    total r = d20 (rng_of [16]) + integer_value (lit "+") (lit "5").
Proof.
  assert (H : integer_text (lit "+") (lit "5")).
  { split; [now right; left|]. split; [|discriminate].
    repeat constructor. }
  split; [exact H|]. split; [reflexivity|].
  exact (roll_with_context_bare_modifier 0 (lit "+") (lit "5") (rng_of [16])
           H eq_refl).
Defined.

(** ** The dice commands *)

Lemma rewritten_with_d (e : str) :
  existsb (Ascii.eqb "d") e = true -> rewritten e = e.
Proof. intros H. unfold rewritten. now rewrite H. Qed.

Lemma ability_check_expression_shape (m : Z) (adv dis : bool) :
  ability_check_expression m adv dis
  = lit "1d20" ++ flag_text (roll_type adv dis)
      ++ suffix_text (if m =? 0 then None else signed_suffix m).
Proof.
  unfold ability_check_expression.
  destruct (m =? 0) eqn:E; cbn [negb suffix_text].
  - now rewrite app_nil_r.
  - apply Z.eqb_neq in E. rewrite <- app_assoc. do 2 f_equal.
    unfold signed_suffix, str_int. cbn [suffix_text].
    destruct (0 <? m) eqn:E1; [apply Z.ltb_lt in E1 | apply Z.ltb_ge in E1].
    + destruct (0 <=? m) eqn:E2; [|apply Z.leb_gt in E2; lia].
      destruct (m <? 0) eqn:E3; [apply Z.ltb_lt in E3; lia|].
      now rewrite Z.abs_eq by lia.
    + destruct (0 <=? m) eqn:E2; [apply Z.leb_le in E2; lia|].
      destruct (m <? 0) eqn:E3; [|apply Z.ltb_ge in E3; lia].
      now rewrite Z.abs_neq by lia.
Qed.

Lemma roll_type_cases (adv dis : bool) :
  roll_type adv dis = None \/ roll_type adv dis = Some "a"%char \/
  roll_type adv dis = Some "d"%char.
Proof. destruct adv, dis; cbn; auto. Qed.

(** X12: the roll of [ability_check_command] always returns: one
    twenty-sided die, the higher of two under the advantage switch alone,
    the lower of two under the disadvantage switch alone, one plain draw
    with both switches or none, and the modifier added to it. With both
    switches the card still names the roll type [Advantage], although
    one die only is drawn. *)
Theorem ability_check_command_rolls (fuel : nat) (m : Z) (adv dis : bool)
    (g : rng) :
  exists r,
    ability_check_command fuel m adv dis g
    = Ok r (snd (d20_pick (roll_type adv dis) g)) /\
    expression r = ability_check_expression m adv dis /\
    rolls r = [fst (d20_pick (roll_type adv dis) g)] /\
    total r = fst (d20_pick (roll_type adv dis) g) + m /\
    (adv = true -> dis = true ->
     roll_type_field adv dis = lit "Advantage" /\ rolls r = [d20 g]).
Proof.
  set (sfx := if m =? 0 then None else signed_suffix m).
  assert (Hs : is_suffix sfx /\ suffix_value sfx = m /\
               normalize (suffix_text sfx) = suffix_text sfx).
  { subst sfx. destruct (m =? 0) eqn:E; [|apply signed_suffix_spec].
    apply Z.eqb_eq in E. subst. repeat split. }
  destruct Hs as (Hs & Hv & Hn).
  assert (Hnorm : normalize (ability_check_expression m adv dis)
                  = lit "1d20" ++ flag_text (roll_type adv dis) ++ suffix_text sfx).
  { rewrite ability_check_expression_shape. fold sfx.
    rewrite !normalize_app, Hn. f_equal. f_equal.
    destruct adv, dis; reflexivity. }
  destruct (roll_advanced_d20 fuel _ _ _ g Hnorm (roll_type_cases adv dis) Hs)
    as (r & Hr & He & Hrolls & Htotal).
  exists r. split; [|split; [|split; [|split]]]; try assumption.
  - unfold ability_check_command.
    apply roll_with_context_standard; [apply dispatch_without_character|].
    rewrite rewritten_with_d; [assumption|].
    rewrite ability_check_expression_shape. reflexivity.
  - now rewrite Htotal, Hv.
  - intros -> ->. split; [reflexivity | exact Hrolls].
Qed.

Lemma integer_sign_cases (pre : str) :
  integer_sign pre = "+"%char \/ integer_sign pre = "-"%char.
Proof. unfold integer_sign. destruct (str_eqb pre (lit "-")); auto. Qed.

Lemma clean_modifier_integer (text pre ds : str) :
  integer_text pre ds -> strip text = pre ++ ds ->
  clean_modifier text = integer_sign pre :: ds /\
  is_suffix (Some (integer_sign pre, ds)) /\
  suffix_value (Some (integer_sign pre, ds)) = integer_value pre ds.
Proof.
  intros (Hpre & Hds & Hne) Hstrip. unfold clean_modifier. rewrite Hstrip.
  split; [|split].
  - destruct Hpre as [-> | [-> | ->]]; try reflexivity.
    destruct ds as [|d ds]; [congruence|]. inversion Hds as [|? ? Hd _]; subst.
    cbn [app startswith].
    destruct (Ascii.eqb d "+") eqn:E1.
    { apply Ascii.eqb_eq in E1. subst. discriminate. }
    destruct (Ascii.eqb d "-") eqn:E2.
    { apply Ascii.eqb_eq in E2. subst. discriminate. }
    reflexivity.
  - cbn [is_suffix]. split; [|split; assumption].
    destruct (integer_sign_cases pre) as [-> | ->]; reflexivity.
  - unfold integer_sign, integer_value. cbn [suffix_value].
    destruct (str_eqb pre (lit "-")); reflexivity.
Qed.

Lemma d20_command (fuel : nat) (c : ascii) (text pre ds : str) (g : rng) :
  c = "a"%char \/ c = "d"%char ->
  integer_text pre ds -> strip text = pre ++ ds ->
  exists r,
    roll_advanced fuel (lit "1d20" ++ [c] ++ clean_modifier text) g
    = Ok r (advance (advance g)) /\
    rolls r = [fst (d20_pick (Some c) g)] /\
    total r = fst (d20_pick (Some c) g) + integer_value pre ds.
Proof.
  intros Hc Hint Hstrip.
  destruct (clean_modifier_integer text pre ds Hint Hstrip) as (-> & Hs & Hv).
  assert (Hnorm : normalize (lit "1d20" ++ [c] ++ integer_sign pre :: ds)
                  = lit "1d20" ++ flag_text (Some c)
                      ++ suffix_text (Some (integer_sign pre, ds))).
  { change (integer_sign pre :: ds) with ([integer_sign pre] ++ ds).
    rewrite !normalize_app, (normalize_digits ds) by apply Hint.
    cbn [flag_text suffix_text].
    destruct Hc as [-> | ->];
      destruct (integer_sign_cases pre) as [-> | ->]; reflexivity. }
  destruct (roll_advanced_d20 fuel _ (Some c) _ g Hnorm) as (r & Hr & _ & Hrolls & Ht);
    [destruct Hc as [-> | ->]; auto | exact Hs |].
  exists r. split; [exact Hr|]. split; [exact Hrolls|]. now rewrite Ht, Hv.
Qed.

(** X13: with a modifier text that is, once stripped, an integer with or
    without a sign, of no more digits than [int] converts,
    [advantage_command] rolls the higher of two twenty-sided dice plus
    that integer, and [disadvantage_command] the lower of the two plus
    that integer. *)
Theorem advantage_commands_roll (fuel : nat) (text pre ds : str) (g : rng) :
  integer_text pre ds -> digits_fit ds = true -> strip text = pre ++ ds ->
  (exists r,
     advantage_command fuel text g = Ok r (advance (advance g)) /\
     rolls r = [Z.max (d20 g) (d20 (advance g))] /\
     total r = Z.max (d20 g) (d20 (advance g)) + integer_value pre ds) /\
  (exists r,
     disadvantage_command fuel text g = Ok r (advance (advance g)) /\
     rolls r = [Z.min (d20 g) (d20 (advance g))] /\
     total r = Z.min (d20 g) (d20 (advance g)) + integer_value pre ds).
Proof.
  intros Hint _ Hstrip. split.
  - exact (d20_command fuel "a" text pre ds g (or_introl eq_refl) Hint Hstrip).
  - exact (d20_command fuel "d" text pre ds g (or_intror eq_refl) Hint Hstrip).
Qed.

Lemma advantage_commands_roll_witness :
  integer_text [] (lit "3") /\ digits_fit (lit "3") = true /\
  strip (lit " 3 ") = [] ++ lit "3" /\
  (exists r,
     advantage_command 0 (lit " 3 ") (rng_of [4; 16])
     = Ok r (advance (advance (rng_of [4; 16]))) /\
     rolls r = [Z.max (d20 (rng_of [4; 16])) (d20 (advance (rng_of [4; 16])))] /\
     total r = Z.max (d20 (rng_of [4; 16])) (d20 (advance (rng_of [4; 16])))
               + integer_value [] (lit "3")) /\
  (exists r,
     disadvantage_command 0 (lit " 3 ") (rng_of [4; 16])
     = Ok r (advance (advance (rng_of [4; 16]))) /\
     rolls r = [Z.min (d20 (rng_of [4; 16])) (d20 (advance (rng_of [4; 16])))] /\
     total r = Z.min (d20 (rng_of [4; 16])) (d20 (advance (rng_of [4; 16])))
               + integer_value [] (lit "3")).
Proof.
  assert (H : integer_text [] (lit "3")).
  { split; [now left|]. split; [|discriminate]. repeat constructor. }
  split; [exact H|]. split; [reflexivity|]. split; [reflexivity|].
  exact (advantage_commands_roll 0 (lit " 3 ") [] (lit "3") (rng_of [4; 16])
           H eq_refl eq_refl).
Defined.

(** ** Ability checks of a character *)

Ltac each_ascii c :=
  destruct c as [[] [] [] [] [] [] [] []].

Lemma lower_char_idem (c : ascii) : lower_char (lower_char c) = lower_char c.
Proof. each_ascii c; reflexivity. Qed.

Lemma upper_lower_char (c : ascii) : upper_char (lower_char c) = upper_char c.
Proof. each_ascii c; reflexivity. Qed.

Lemma lower_char_word (c : ascii) : is_word (lower_char c) = is_word c.
Proof. each_ascii c; reflexivity. Qed.

Lemma lower_char_space (c : ascii) : is_space (lower_char c) = is_space c.
Proof. each_ascii c; reflexivity. Qed.

Lemma space_not_word (c : ascii) : is_space c = true -> is_word c = false.
Proof. each_ascii c; intros H; try reflexivity; discriminate H. Qed.

Lemma lower_idem (s : str) : lower (lower s) = lower s.
Proof.
  unfold lower. rewrite map_map. apply map_ext. intros c. apply lower_char_idem.
Qed.

Lemma upper_lower (s : str) : upper (lower s) = upper s.
Proof.
  unfold upper, lower. rewrite map_map. apply map_ext. intros c.
  apply upper_lower_char.
Qed.

Lemma lower_app (a b : str) : lower (a ++ b) = lower a ++ lower b.
Proof. apply map_app. Qed.

Lemma lower_all (f : ascii -> bool) (s : str) :
  (forall c, f (lower_char c) = f c) ->
  Forall (fun c => f c = true) s -> Forall (fun c => f c = true) (lower s).
Proof.
  intros Hf. induction 1 as [|c s Hc Hs IH]; constructor; [|assumption].
  now rewrite Hf.
Qed.

(** A greedy star over a class takes every character of the class ahead
    on its first try. *)
Lemma star_class_first (f : ascii -> bool) (ws : str) :
  Forall (fun c => f c = true) ws ->
  forall (n : nat) (bef rest : str) (c : caps),
    (List.length (ws ++ rest) <= n)%nat -> none_ahead f rest ->
    first_result (star_loop (run (Cls f)) n (Pos bef (ws ++ rest)) c)
    = Some (Pos (rev ws ++ bef) rest, c).
Proof.
  induction 1 as [|d ds Hd Hds IH]; intros n bef rest c Hn Hrest.
  - cbn [app rev]. destruct n as [|n]; [reflexivity|].
    rewrite star_loop_S.
    destruct rest as [|x rest]; [reflexivity|].
    cbn [none_ahead] in Hrest.
    now rewrite run_cls_cons, Hrest.
  - cbn [app List.length] in Hn. destruct n as [|n]; [lia|].
    cbn [app]. rewrite star_loop_S, run_cls_cons, Hd.
    cbn [flat_map fst snd after List.length]. rewrite app_nil_r.
    replace (List.length (ds ++ rest) <? S (List.length (ds ++ rest)))%nat
      with true by (symmetry; apply Nat.ltb_lt; lia).
    apply first_app. rewrite IH by (assumption || lia).
    cbn [rev]. now rewrite <- app_assoc.
Qed.

Lemma plus_class_first (f : ascii -> bool) (ws bef rest : str) (c : caps) :
  Forall (fun c => f c = true) ws -> ws <> [] -> none_ahead f rest ->
  first_result (run (Plus (Cls f)) (Pos bef (ws ++ rest)) c)
  = Some (Pos (rev ws ++ bef) rest, c).
Proof.
  intros Hws Hne Hrest. destruct ws as [|d ds]; [congruence|].
  inversion Hws as [|? ? Hd Hds']; subst.
  unfold Plus. cbn [app]. rewrite run_cat, run_cls_cons, Hd.
  cbn [flat_map fst snd]. rewrite app_nil_r, run_star. cbn [after].
  rewrite star_class_first by (assumption || lia).
  cbn [rev]. now rewrite <- app_assoc.
Qed.

Lemma run_lit_check (bef tail : str) (c : caps) :
  run (Lit "check") (Pos bef (lit "check" ++ tail)) c
  = [(Pos (rev (lit "check") ++ bef) tail, c)].
Proof. reflexivity. Qed.

(** [CHECK_PATTERN] on a lower-cased check phrase. *)
Lemma check_pattern_phrase (name blanks tail : str) :
  Forall (fun c => is_word c = true) name -> name <> [] ->
  Forall (fun c => is_space c = true) blanks -> blanks <> [] ->
  exists am,
    rmatch_start CHECK_PATTERN (name ++ blanks ++ lit "check" ++ tail) = Some am /\
    group_or_empty 1 am = name.
Proof.
  intros Hn Nn Hb Nb. unfold rmatch_start.
  assert (H : exists p,
             first_result (run CHECK_PATTERN
                             (Pos [] (name ++ blanks ++ lit "check" ++ tail)) [])
             = Some (p, [(1%nat, name)])).
  { eexists. unfold CHECK_PATTERN, Seq. cbn [fold_right]. rewrite run_cat.
    eapply first_flat_map.
    { rewrite run_grp. apply first_map. unfold word.
      apply plus_class_first; [assumption | assumption |].
      destruct blanks as [|b blanks]; [congruence|].
      inversion Hb; subst. cbn [app none_ahead]. now apply space_not_word. }
    cbn [fst snd]. rewrite consumed_app, run_cat.
    eapply first_flat_map.
    { unfold space. apply plus_class_first; [assumption | assumption |].
      reflexivity. }
    cbn [fst snd]. rewrite run_cat, run_lit_check. reflexivity. }
  destruct H as [p H]. rewrite (match_at_first _ _ _ _ H).
  eexists. split; reflexivity.
Qed.

(** [roll] on the expression of a check: one twenty-sided die and the
    modifier. *)
Lemma roll_d20_with (m : Z) (g : rng) :
  exists r,
    roll (d20_with m) g = Ok r (advance g) /\
    rolls r = [d20 g] /\ total r = d20 g + m.
Proof.
  destruct (signed_suffix_spec m) as (Hs & Hv & _).
  pose proof (normalize_d20_with m) as Hn.
  unfold signed_suffix in Hs, Hv, Hn. cbn [is_suffix suffix_value suffix_text] in *.
  set (sg := if 0 <=? m then "+"%char else "-"%char) in *.
  set (ds := str_nonneg (Z.abs m)) in *.
  destruct Hs as (Hsg & Hds & Hne).
  assert (Hp : parse_expression (d20_with m)
               = inr (1, 20, if Ascii.eqb sg "+" then OpPlus else OpMinus,
                      int_digits ds)).
  { apply (parse_expression_modifier (d20_with m) (lit "1") (lit "20") ds sg);
      try assumption; try discriminate; repeat constructor. }
  pose proof (roll_parsed (d20_with m) g Hp eq_refl) as Hr.
  rewrite roll_dice_one in Hr. cbn [fst snd] in Hr.
  eexists. split; [exact Hr|]. cbn [rolls total]. split; [reflexivity|].
  rewrite sum_one. fold (d20 g). rewrite <- Hv.
  destruct (Ascii.eqb sg "+"); cbn [simple_total]; lia.
Qed.

Lemma ability_modifier_lower (c : Character.t) (ability : str) :
  Character.get_ability_modifier c (lower ability)
  = Character.get_ability_modifier c ability.
Proof. unfold Character.get_ability_modifier. now rewrite lower_idem. Qed.

(** X14: asked for [<name> check] with a character, [roll_with_context]
    rolls one twenty-sided die and adds the character's modifier for the
    ability of that name, looked up in lower case: half of the score
    minus ten, rounded down, and zero for an ability the character does
    not have. The expression of the result names the ability in upper
    case. *)
Theorem ability_check_of_character (fuel : nat) (name blanks tail : str)
    (c : Character.t) (g : rng) :
  Forall (fun a => is_word a = true) name -> name <> [] ->
  Forall (fun a => is_space a = true) blanks -> blanks <> [] ->
  let m := match dict_get (lower name) (Character.attributes c) with
           | Some score => (score - 10) / 2
           | None => 0
           end in
  exists r,
    roll_with_context fuel (check_phrase name blanks tail)
                      (Some (as_character c)) g
    = Ok r (advance g) /\
    expression r = check_label name m /\
    rolls r = [d20 g] /\
    total r = d20 g + m.
Proof.
  intros Hn Nn Hb Nb m.
  assert (Hl : lower (check_phrase name blanks tail)
               = lower name ++ lower blanks ++ lit "check" ++ lower tail).
  { unfold check_phrase. now rewrite !lower_app. }
  destruct (check_pattern_phrase (lower name) (lower blanks) (lower tail))
    as (am & Ham & Hg).
  { apply lower_all; [apply lower_char_word | assumption]. }
  { destruct name; [congruence | discriminate]. }
  { apply lower_all; [apply lower_char_space | assumption]. }
  { destruct blanks; [congruence | discriminate]. }
  assert (Hd : dispatch_of (check_phrase name blanks tail) (Some (as_character c))
               = AbilityCheck (as_character c) (lower (lower name))).
  { unfold dispatch_of. rewrite Hl, Ham, Hg. reflexivity. }
  assert (Hm : Character.get_ability_modifier c (lower (lower name)) = m).
  { rewrite !ability_modifier_lower. reflexivity. }
  destruct (roll_d20_with m g) as (r & Hr & Hrolls & Htotal).
  exists (set_expression (check_label name m) r).
  split; [|split; [|split]]; try assumption; [|reflexivity].
  unfold roll_with_context, try_except, context_body. rewrite Hd.
  unfold bind. cbn [as_character get_ability_modifier lift ret].
  rewrite Hm, Hr. unfold check_label. now rewrite lower_idem, upper_lower.
Qed.

Lemma ability_check_of_character_witness :
  exists r,
    roll_with_context 0 (check_phrase (lit "Strength") (lit " ") [])
      (Some (as_character
               (Character.mkCharacter 3 [(lit "strength", 15)] []))) (rng_of [7])
    = Ok r (advance (rng_of [7])) /\
    expression r = check_label (lit "Strength") 2 /\
    rolls r = [d20 (rng_of [7])] /\
    total r = d20 (rng_of [7]) + 2.
Proof.
  apply (ability_check_of_character 0 (lit "Strength") (lit " ") []
           (Character.mkCharacter 3 [(lit "strength", 15)] []) (rng_of [7]));
    try discriminate; repeat constructor.
Defined.

(** ** Skill checks of a character *)

(** X16: when [roll_with_context] takes an input for a skill check of a
    character, it rolls one twenty-sided die and adds the character's
    bonus for that skill, as [get_skill_bonus] computes it from the
    skill's ability, the proficiency bonus and the expertise; the
    expression of the result names the skill in title case. *)
Theorem skill_check_of_character (fuel : nat) (e skill : str)
    (c : Character.t) (g : rng) :
  dispatch_of e (Some (as_character c)) = SkillCheck (as_character c) skill ->
  exists r,
    roll_with_context fuel e (Some (as_character c)) g = Ok r (advance g) /\
    expression r = skill_label skill (Character.get_skill_bonus c skill) /\
    rolls r = [d20 g] /\
    total r = d20 g + Character.get_skill_bonus c skill.
Proof.
  intros Hd. set (b := Character.get_skill_bonus c skill).
  destruct (roll_d20_with b g) as (r & Hr & Hrolls & Htotal).
  exists (set_expression (skill_label skill b) r).
  split; [|split; [|split]]; try assumption; [|reflexivity].
  unfold roll_with_context, try_except, context_body. rewrite Hd.
  unfold bind. cbn [as_character get_skill_bonus lift ret]. fold b.
  now rewrite Hr.
Qed.

Lemma skill_check_of_character_witness :
  let c := Character.mkCharacter 5 [(lit "dexterity", 16)]
             [(lit "stealth", Character.mkSkill None (Some true) None)] in
  dispatch_of (lit "Stealth skill") (Some (as_character c))
  = SkillCheck (as_character c) (lit "stealth") /\
  exists r,
    roll_with_context 0 (lit "Stealth skill") (Some (as_character c)) (rng_of [7])
    = Ok r (advance (rng_of [7])) /\
    expression r = skill_label (lit "stealth")
                     (Character.get_skill_bonus c (lit "stealth")) /\
    rolls r = [d20 (rng_of [7])] /\
    total r = d20 (rng_of [7]) + Character.get_skill_bonus c (lit "stealth").
Proof.
  intros c.
  assert (H : dispatch_of (lit "Stealth skill") (Some (as_character c))
              = SkillCheck (as_character c) (lit "stealth")) by reflexivity.
  split; [exact H|].
  exact (skill_check_of_character 0 (lit "Stealth skill") (lit "stealth") c
           (rng_of [7]) H).
Defined.

(** ** Texts without dice *)

Lemma flat_map_nil {A B : Type} (f : A -> list B) (l : list A) :
  (forall x, In x l -> f x = []) -> flat_map f l = [].
Proof.
  induction l as [|x l IH]; intros H; [reflexivity|].
  cbn [flat_map]. rewrite (H x (or_introl eq_refl)), IH; [reflexivity|].
  intros y Hy. apply H. now right.
Qed.

Lemma no_d_suffix (pre s : str) : no_d (pre ++ s) -> no_d s.
Proof.
  unfold no_d. rewrite existsb_app. intros H.
  now apply orb_false_iff in H as [_ H].
Qed.

Lemma chr_d_fails (p : pos) (c : caps) :
  no_d (after p) -> run (Chr "d") p c = [].
Proof.
  unfold no_d, Chr. cbn [run]. destruct (after p) as [|a t]; [reflexivity|].
  cbn [existsb]. intros H. apply orb_false_iff in H as [H _]. now rewrite H.
Qed.

(** A pattern that needs a [d] after its head has no match ahead of a
    text without one. *)
Lemma needs_d (r1 r2 : regex) (p : pos) (c : caps) :
  no_d (after p) -> run (Cat r1 (Cat (Chr "d") r2)) p c = [].
Proof.
  intros H. rewrite run_cat. apply flat_map_nil. intros x Hx.
  rewrite run_cat.
  destruct (run_monotone r1 p c x Hx) as [pre Hpre].
  rewrite Hpre in H. apply no_d_suffix in H.
  now rewrite (chr_d_fails _ _ H).
Qed.

Lemma text_standard_needs_d (p : pos) :
  no_d (after p) -> match_at TEXT_STANDARD_PATTERN p = None.
Proof.
  intros H. unfold match_at, TEXT_STANDARD_PATTERN, Seq. cbn [fold_right].
  rewrite run_cat.
  rewrite flat_map_nil; [reflexivity|].
  intros x Hx. rewrite run_cat, run_grp.
  assert (Hp : fst x = p).
  { cbn [run] in Hx. destruct (xorb _ _); [|contradiction].
    now destruct Hx as [<-|[]]. }
  rewrite Hp, (needs_d _ _ p (snd x) H). reflexivity.
Qed.

Lemma text_advanced_needs_d (p : pos) :
  no_d (after p) -> match_at TEXT_ADVANCED_PATTERN p = None.
Proof.
  intros H. unfold match_at, TEXT_ADVANCED_PATTERN, Seq. cbn [fold_right].
  rewrite run_cat.
  rewrite flat_map_nil; [reflexivity|].
  intros x Hx.
  assert (Hp : fst x = p).
  { cbn [run] in Hx. destruct (xorb _ _); [|contradiction].
    now destruct Hx as [<-|[]]. }
  rewrite Hp. now apply needs_d.
Qed.

Lemma finditer_no_match (r : regex) (s : str) :
  (forall bef t, no_d t -> match_at r (Pos bef t) = None) ->
  no_d s -> forall bef, finditer_from r bef s 0 = [].
Proof.
  intros Hr. induction s as [|a s IH]; intros Hs bef; cbn [finditer_from].
  - now rewrite (Hr bef [] Hs).
  - rewrite (Hr bef (a :: s) Hs). apply IH.
    apply (no_d_suffix [a] s Hs).
Qed.

(** X17: a text without a lower-case [d] holds no dice expression:
    [parse_dice_in_text] returns the empty list and draws nothing;
    a capital [D] is not read as a die. *)
Theorem parse_dice_in_text_without_d (fuel : nat) (text : str) (g : rng) :
  no_d text ->
  candidates text = [] /\ parse_dice_in_text fuel text g = Ok [] g.
Proof.
  intros H.
  assert (Hc : candidates text = []).
  { unfold candidates, finditer.
    rewrite (finditer_no_match TEXT_STANDARD_PATTERN text
               (fun bef t Ht => text_standard_needs_d (Pos bef t) Ht) H),
            (finditer_no_match TEXT_ADVANCED_PATTERN text
               (fun bef t Ht => text_advanced_needs_d (Pos bef t) Ht) H).
    reflexivity. }
  split; [exact Hc|].
  unfold parse_dice_in_text. now rewrite Hc.
Qed.

Lemma parse_dice_in_text_without_d_witness :
  no_d (lit "I roll 2D6 or 1D20+5") /\
  candidates (lit "I roll 2D6 or 1D20+5") = [] /\
  parse_dice_in_text 0 (lit "I roll 2D6 or 1D20+5") (rng_of [3])
  = Ok [] (rng_of [3]).
Proof.
  split; [reflexivity|].
  apply (parse_dice_in_text_without_d 0 (lit "I roll 2D6 or 1D20+5") (rng_of [3])).
  reflexivity.
Defined.

(** ** The candidates of a text *)

Lemma dedup_in (x : str) (l : list str) : In x (dedup l) -> In x l.
Proof.
  revert x. induction l as [|y l IH]; intros x; cbn [dedup]; [easy|].
  intros [<- | H]; [now left|]. right. apply IH.
  now apply filter_In in H as [H _].
Qed.

Lemma dedup_nodup (l : list str) : NoDup (dedup l).
Proof.
  induction l as [|x l IH]; cbn [dedup]; constructor.
  - intros H. apply filter_In in H as [_ H].
    unfold str_eqb in H. now destruct (list_eq_dec ascii_dec x x).
  - now apply NoDup_filter.
Qed.

Lemma strongly_sorted_impl {A : Type} (R R' : A -> A -> Prop) (l : list A) :
  (forall a b, R a b -> R' a b) -> StronglySorted R l -> StronglySorted R' l.
Proof.
  intros HR. induction 1 as [|x t Hs IH Hx]; constructor; [assumption|].
  eapply Forall_impl; [|exact Hx]. intros a. apply HR.
Qed.

(** X18: the candidates [parse_dice_in_text] rolls are the expressions
    the two patterns find in the text, each of them once, the longest
    first. *)
Theorem candidates_distinct_longest_first (text : str) :
  NoDup (candidates text) /\
  StronglySorted not_shorter (candidates text) /\
  forall e, In e (candidates text) <->
            In e (map (group_or_empty 1) (finditer TEXT_STANDARD_PATTERN text)
                  ++ map m_text (finditer TEXT_ADVANCED_PATTERN text)).
Proof.
  unfold candidates, longest_first.
  set (found := map (group_or_empty 1) (finditer TEXT_STANDARD_PATTERN text)
                ++ map m_text (finditer TEXT_ADVANCED_PATTERN text)).
  set (le := fun a b : str => (List.length b <=? List.length a)%nat).
  pose proof (sort_by_perm _ le (dedup found)) as Hperm.
  split; [|split].
  - eapply Permutation_NoDup; [exact Hperm | apply dedup_nodup].
  - assert (H : StronglySorted (fun a b => le a b = true) (sort_by le (dedup found))).
    { apply sort_by_sorted; subst le; cbn.
      - intros x y H. apply Nat.leb_gt in H. apply Nat.leb_le. lia.
      - intros x y z H1 H2. apply Nat.leb_le in H1, H2. apply Nat.leb_le. lia. }
    apply (strongly_sorted_impl _ _ _ (fun a b Hab => proj1 (Nat.leb_le _ _) Hab) H).
  - intros e. split; intros H.
    + apply dedup_in. eapply Permutation_in; [symmetry; exact Hperm | exact H].
    + eapply Permutation_in; [exact Hperm|]. clear Hperm.
      induction found as [|y l IH]; [easy|]. cbn [dedup].
      destruct (list_eq_dec ascii_dec y e) as [->|Hne]; [now left|].
      destruct H as [H|H]; [congruence|]. right.
      apply filter_In. split; [now apply IH|].
      unfold str_eqb. now destruct (list_eq_dec ascii_dec y e).
Qed.

(** ** A die without a count *)

Lemma adv_pattern_countless (ds : str) :
  is_digit_list ds -> ds <> [] ->
  first_result (run ADV_DICE_PATTERN (Pos [] ("d"%char :: ds)) [])
  = Some (Pos (rev ds ++ lit "d") [], [(3%nat, []); (2%nat, ds)]).
Proof.
  intros Hds Hne.
  pose proof (group_digits_first 2 ds (lit "d") [] [] Hds Hne I) as H2.
  rewrite app_nil_r in H2.
  unfold ADV_DICE_PATTERN, Seq. cbn [fold_right]. rewrite run_cat.
  eapply first_flat_map.
  { unfold Opt. rewrite run_alt, run_grp. unfold Plus, digit.
    rewrite run_cat, run_cls_cons. reflexivity. }
  cbn [fst snd]. rewrite run_cat. unfold Chr at 1. rewrite run_cls_cons.
  cbn [Ascii.eqb Bool.eqb flat_map fst snd]. rewrite app_nil_r, run_cat.
  eapply first_flat_map; [exact H2|].
  cbn [fst snd]. rewrite run_cat.
  eapply first_flat_map.
  { rewrite run_grp. apply first_map. rewrite run_star. apply star_tokens_end. }
  reflexivity.
Qed.

Lemma countless_expression_shape (sides : Z) :
  0 <= sides ->
  normalize (countless_expression sides) = "d"%char :: str_nonneg sides.
Proof.
  intros Hs. unfold countless_expression.
  rewrite str_int_nonneg by assumption.
  destruct (str_nonneg_spec sides Hs) as (_ & H & _).
  now rewrite normalize_app, (normalize_digits _ H).
Qed.

Lemma parse_advanced_countless (sides : Z) :
  1 <= sides <= 1000 ->
  parse_advanced (countless_expression sides) = inr (1, sides, 0, []).
Proof.
  intros Hs.
  destruct (str_nonneg_spec sides ltac:(lia)) as (N & H & V).
  unfold parse_advanced, rmatch_start.
  rewrite countless_expression_shape by lia.
  rewrite (match_at_first _ _ _ _ (adv_pattern_countless _ H N)).
  cbn [group_true group_or_empty group m_caps lookup Nat.eqb].
  rewrite V.
  assert (Hv : validate 1 sides = inr tt) by (apply validate_ok; lia).
  rewrite Hv. reflexivity.
Qed.

Lemma parse_expression_countless (sides : Z) :
  0 <= sides ->
  parse_expression (countless_expression sides)
  = inl (ValueError (InvalidExpression (countless_expression sides))).
Proof.
  intros Hs. unfold parse_expression, rmatch_start.
  rewrite countless_expression_shape by assumption. reflexivity.
Qed.

(** X19: a die written without a count, [d<sides>], is one die for
    [roll_advanced], and so for [roll_with_context]; [roll] itself
    rejects the expression, before any draw. *)
Theorem omitted_count_is_one (fuel : nat) (sides : Z) (g : rng) :
  1 <= sides <= 1000 ->
  roll (countless_expression sides) g
  = Raise (ValueError (InvalidExpression (countless_expression sides))) g /\
  (exists r,
     roll_advanced fuel (countless_expression sides) g = Ok r (advance g) /\
     roll_with_context fuel (countless_expression sides) None g
     = Ok r (advance g) /\
     rolls r = [fst (randint 1 sides g)] /\
     total r = fst (randint 1 sides g)).
Proof.
  intros Hs. split.
  - apply roll_unparsed, parse_expression_countless. lia.
  - pose proof (roll_advanced_parsed fuel _ g (parse_advanced_countless sides Hs))
      as Hr.
    change (parse_options 1 []) with no_options in Hr.
    rewrite roll_with_no_options, roll_dice_one in Hr. cbn [fst snd] in Hr.
    eexists. split; [exact Hr|]. split; [|split].
    + apply roll_with_context_standard; [apply dispatch_without_character|].
      rewrite rewritten_with_d; [exact Hr | reflexivity].
    + reflexivity.
    + cbn [advanced_result total fst]. rewrite sum_one. lia.
Qed.

Lemma omitted_count_is_one_witness :
  roll (countless_expression 20) (rng_of [11])
  = Raise (ValueError (InvalidExpression (countless_expression 20))) (rng_of [11]) /\
  (exists r,
     roll_advanced 0 (countless_expression 20) (rng_of [11])
     = Ok r (advance (rng_of [11])) /\
     roll_with_context 0 (countless_expression 20) None (rng_of [11])
     = Ok r (advance (rng_of [11])) /\
     rolls r = [fst (randint 1 20 (rng_of [11]))] /\
     total r = fst (randint 1 20 (rng_of [11]))).
Proof.
  apply (omitted_count_is_one 0 20 (rng_of [11])). lia.
Defined.

Lemma ability_check_command_rolls_witness :
  exists r,
    ability_check_command 0 2 true true (rng_of [7])
    = Ok r (snd (d20_pick (roll_type true true) (rng_of [7]))) /\
    expression r = ability_check_expression 2 true true /\
    rolls r = [fst (d20_pick (roll_type true true) (rng_of [7]))] /\
    total r = fst (d20_pick (roll_type true true) (rng_of [7])) + 2 /\
    (true = true -> true = true ->
     roll_type_field true true = lit "Advantage" /\ rolls r = [d20 (rng_of [7])]).
Proof.
  exact (ability_check_command_rolls 0 2 true true (rng_of [7])).
Defined.

(** * The advanced grammar on any expression *)

(** The digits at the head of a text, and what follows them. *)
Lemma digits_span (w : str) :
  exists ds rest, w = ds ++ rest /\ is_digit_list ds /\ no_digit_ahead rest.
Proof.
  induction w as [|a w (ds & rest & -> & Hds & Hrest)].
  - exists [], []. repeat split. constructor.
  - destruct (is_digit a) eqn:E.
    + exists (a :: ds), rest. repeat split; [now constructor | assumption].
    + exists [], (a :: ds ++ rest). repeat split; [constructor | exact E].
Qed.

(** Two rolls of one twenty-sided die. *)
Lemma roll_twice_d20 (o : options) (g : rng) :
  exists bd,
    roll_twice 1 20 o g = Ok ([d20_of_two o g], bd) (advance (advance g)).
Proof.
  unfold roll_twice, bind, d20_of_two.
  rewrite !roll_simple_ok, !roll_dice_one.
  cbn [fst snd ret]. rewrite !sum_one. fold (d20 g). fold (d20 (advance g)).
  destruct (advantage o).
  - destruct (d20 (advance g) <? d20 g) eqn:E;
      [apply Z.ltb_lt in E; rewrite Z.max_l by lia
      | apply Z.ltb_ge in E; rewrite Z.max_r by lia]; eexists; reflexivity.
  - destruct (d20 g <? d20 (advance g)) eqn:E;
      [apply Z.ltb_lt in E; rewrite Z.min_l by lia
      | apply Z.ltb_ge in E; rewrite Z.min_r by lia]; eexists; reflexivity.
Qed.


(** ** The options one after another *)

Lemma options_text_cons (t : token) (toks : list token) :
  options_text (t :: toks) = fst t :: snd t ++ options_text toks.
Proof. reflexivity. Qed.

Lemma options_text_app (t1 t2 : list token) :
  options_text (t1 ++ t2) = options_text t1 ++ options_text t2.
Proof. unfold options_text. now rewrite map_app, concat_app. Qed.

Lemma valid_token_lead (t : token) :
  valid_token t -> is_digit (fst t) = false.
Proof.
  intros [_ [H | [H _]]].
  - now apply opchar_not_digit.
  - now apply sign_not_digit.
Qed.

Lemma no_token_ahead_digit (rest : str) :
  no_token_ahead rest -> no_digit_ahead rest.
Proof. destruct rest as [|c t]; [easy|]. now intros [H _]. Qed.

Lemma options_no_digit_ahead (toks : list token) (rest : str) :
  Forall valid_token toks -> no_token_ahead rest ->
  no_digit_ahead (options_text toks ++ rest).
Proof.
  intros Hv Hr. destruct toks as [|t toks].
  - now apply no_token_ahead_digit.
  - inversion Hv; subst. rewrite options_text_cons. cbn [app no_digit_ahead].
    now apply valid_token_lead.
Qed.

Lemma plus_digit_none (bef rest : str) (c : caps) :
  no_digit_ahead rest -> run (Plus digit) (Pos bef rest) c = [].
Proof.
  intros H. unfold Plus, digit. rewrite run_cat.
  destruct rest as [|a t]; [reflexivity|].
  cbn [no_digit_ahead] in H. now rewrite run_cls_cons, H.
Qed.

(** No turn of the star where no option starts. *)
Lemma token_none (bef rest : str) (c : caps) :
  no_token_ahead rest -> run option_token (Pos bef rest) c = [].
Proof.
  intros H. unfold option_token, Seq. cbn [fold_right].
  rewrite run_alt, !run_cat.
  destruct rest as [|a t]; [reflexivity|].
  destruct H as (_ & Hop & Hsg).
  unfold sign at 1, opchar at 1. rewrite !run_cls_cons, Hop.
  destruct (one_of "+-" a) eqn:E; [|reflexivity].
  cbn [flat_map fst snd]. rewrite run_cat, plus_digit_none by now apply Hsg.
  reflexivity.
Qed.

(** The star takes every option. *)
Lemma star_tokens_first (toks : list token) (rest : str) :
  Forall valid_token toks -> no_token_ahead rest ->
  forall (n : nat) (bef : str) (c : caps),
    (List.length (options_text toks ++ rest) <= n)%nat ->
    first_result (star_loop (run option_token) n
                    (Pos bef (options_text toks ++ rest)) c)
    = Some (Pos (rev (options_text toks) ++ bef) rest, c).
Proof.
  intros Hv Hrest. induction Hv as [|t toks Ht Hv IH]; intros n bef c Hn.
  - cbn [options_text map List.concat app rev]. destruct n as [|n]; [reflexivity|].
    rewrite star_loop_S, token_none by assumption. reflexivity.
  - rewrite options_text_cons in *. cbn [app List.length] in Hn.
    destruct n as [|n]; [lia|].
    destruct t as [a ds]. cbn [fst snd] in *. destruct Ht as [Hds Hkind].
    cbn [fst snd] in *.
    pose proof (options_no_digit_ahead toks rest Hv Hrest) as Hnd.
    assert (Hx : first_result
                   (run option_token
                      (Pos bef (a :: ds ++ options_text toks ++ rest)) c)
                 = Some (Pos (rev ds ++ a :: bef) (options_text toks ++ rest), c)).
    { destruct Hkind as [Hl | [Hs Hne]].
      - now apply token_flag.
      - now apply token_modifier. }
    cbn [app]. rewrite <- app_assoc.
    eapply star_loop_step; [exact Hx | |].
    + cbn [fst after List.length]. rewrite !length_app. lia.
    + cbn [fst snd]. rewrite IH.
      * cbn [rev]. now rewrite rev_app_distr, <- !app_assoc.
      * rewrite !length_app in *. lia.
Qed.

Lemma grp_digits_none (i : nat) (bef rest : str) (c : caps) :
  no_digit_ahead rest -> run (Grp i (Plus digit)) (Pos bef rest) c = [].
Proof. intros H. now rewrite run_grp, plus_digit_none. Qed.

(** [ADV_DICE_PATTERN] on a head, options and what follows them. *)
Lemma adv_pattern_tokens (count : option str) (sides : str)
    (toks : list token) (rest : str) :
  valid_head count sides -> Forall valid_token toks -> no_token_ahead rest ->
  exists p,
    first_result
      (run ADV_DICE_PATTERN
         (Pos [] (head_text count sides ++ options_text toks ++ rest)) [])
    = Some (p, (3%nat, options_text toks) :: (2%nat, sides) :: count_caps count).
Proof.
  intros (Hc & Hs & Ns) Hv Hrest.
  pose proof (options_no_digit_ahead toks rest Hv Hrest) as Hnd.
  assert (H1 : exists bef,
             first_result
               (run (Opt (Grp 1 (Plus digit)))
                  (Pos [] (head_text count sides ++ options_text toks ++ rest)) [])
             = Some (Pos bef ("d"%char :: sides ++ options_text toks ++ rest),
                     count_caps count)).
  { destruct count as [ds|]; unfold head_text; cbn [count_caps].
    - destruct Hc as [Hd Nd]. eexists. unfold Opt. rewrite run_alt.
      apply first_app. rewrite <- app_assoc. cbn [app].
      apply group_digits_first; [assumption | assumption | reflexivity].
    - eexists. unfold Opt. rewrite run_alt. cbn [app].
      rewrite grp_digits_none by reflexivity. reflexivity. }
  destruct H1 as [bef H1].
  eexists.
  unfold ADV_DICE_PATTERN, Seq. cbn [fold_right]. rewrite run_cat.
  eapply first_flat_map; [exact H1|].
  cbn [fst snd]. rewrite run_cat. unfold Chr at 1. rewrite run_cls_cons.
  cbn [Ascii.eqb Bool.eqb flat_map fst snd]. rewrite app_nil_r, run_cat.
  eapply first_flat_map.
  { apply group_digits_first; assumption. }
  cbn [fst snd]. rewrite run_cat.
  eapply first_flat_map.
  { rewrite run_grp. apply first_map. rewrite run_star. cbn [after].
    apply star_tokens_first; [assumption | assumption | apply le_n]. }
  cbn [fst snd]. rewrite consumed_app. reflexivity.
Qed.

(** ** The results of a plus over a class *)

Lemma star_class_results (f : ascii -> bool) (n : nat) :
  forall (s bef : str) (c : caps) (x : pos * caps),
    In x (star_loop (run (Cls f)) n (Pos bef s) c) ->
    exists pre post,
      s = pre ++ post /\ Forall (fun a => f a = true) pre /\
      x = (Pos (rev pre ++ bef) post, c).
Proof.
  induction n as [|n IH]; intros s bef c x Hin.
  - destruct Hin as [<-|[]]. exists [], s. repeat split. constructor.
  - rewrite star_loop_S in Hin. apply in_app_or in Hin as [Hin|[<-|[]]].
    + apply in_flat_map in Hin as (y & Hy & Hin).
      destruct s as [|a t]; [contradiction|].
      rewrite run_cls_cons in Hy. destruct (f a) eqn:E; [|contradiction].
      destruct Hy as [<-|[]]. cbn [fst snd after] in Hin.
      destruct (List.length t <? List.length (a :: t))%nat; [|contradiction].
      apply IH in Hin as (pre & post & -> & Hpre & ->).
      exists (a :: pre), post. split; [reflexivity|].
      split; [now constructor|]. cbn [rev]. now rewrite <- app_assoc.
    + exists [], s. repeat split. constructor.
Qed.

Lemma plus_class_results (f : ascii -> bool) (s bef : str) (c : caps)
    (x : pos * caps) :
  In x (run (Plus (Cls f)) (Pos bef s) c) ->
  exists pre post,
    s = pre ++ post /\ pre <> [] /\ Forall (fun a => f a = true) pre /\
    x = (Pos (rev pre ++ bef) post, c).
Proof.
  unfold Plus. rewrite run_cat. intros Hin.
  apply in_flat_map in Hin as (y & Hy & Hin).
  destruct s as [|a t]; [contradiction|].
  rewrite run_cls_cons in Hy. destruct (f a) eqn:E; [|contradiction].
  destruct Hy as [<-|[]]. cbn [fst snd] in Hin. rewrite run_star in Hin.
  apply star_class_results in Hin as (pre & post & -> & Hpre & ->).
  exists (a :: pre), post. split; [reflexivity|]. split; [discriminate|].
  split; [now constructor|]. cbn [rev]. now rewrite <- app_assoc.
Qed.

(** Digits at the head of digits followed by no digit. *)
Lemma digit_prefix_split (pre post ds rest : str) :
  pre ++ post = ds ++ rest -> is_digit_list pre -> is_digit_list ds ->
  no_digit_ahead rest ->
  exists ds2, ds = pre ++ ds2 /\ post = ds2 ++ rest.
Proof.
  revert ds. induction pre as [|a pre IH]; intros ds Heq Hpre Hds Hrest.
  - exists ds. now split.
  - inversion Hpre as [|? ? Ha Hpre']; subst.
    destruct ds as [|d ds].
    + cbn [app] in Heq. subst rest. cbn [no_digit_ahead] in Hrest. congruence.
    + cbn [app] in Heq. injection Heq as -> Heq.
      inversion Hds; subst.
      destruct (IH ds Heq Hpre' ltac:(assumption) Hrest) as (ds2 & -> & ->).
      now exists ds2.
Qed.

(** ** The trailing modifier among the options *)

Lemma lead_not_newline (t : token) :
  valid_token t -> (code (fst t) =? 10) = false.
Proof.
  intros [_ [H | [H _]]].
  - apply opchar_cases in H.
    repeat (destruct H as [-> | H]; [reflexivity|]). now rewrite H.
  - apply sign_char in H as [-> | ->]; reflexivity.
Qed.

(** A signed number with an option after it is no trailing modifier. *)
Lemma modifier_not_before_option (sg : ascii) (ds bef : str)
    (t : token) (toks : list token) :
  is_digit_list ds -> valid_token t ->
  match_at MODIFIER_PATTERN
    (Pos bef (sg :: ds ++ options_text (t :: toks))) = None.
Proof.
  intros Hds Ht. unfold match_at.
  assert (H : run MODIFIER_PATTERN
                (Pos bef (sg :: ds ++ options_text (t :: toks))) [] = []).
  { unfold MODIFIER_PATTERN, Seq. cbn [fold_right]. rewrite run_cat.
    apply flat_map_nil. intros x Hx.
    rewrite run_grp in Hx. unfold sign in Hx. rewrite run_cls_cons in Hx.
    destruct (one_of "+-" sg); [|contradiction].
    destruct Hx as [<-|[]]. cbn [fst snd]. rewrite run_cat.
    apply flat_map_nil. intros y Hy.
    rewrite run_grp in Hy. apply in_map_iff in Hy as (z & <- & Hz).
    unfold digit in Hz.
    apply plus_class_results in Hz as (pre & post & Heq & _ & Hpre & ->).
    symmetry in Heq.
    apply digit_prefix_split in Heq as (ds2 & -> & ->);
      [| assumption | assumption
       | rewrite options_text_cons; cbn [no_digit_ahead];
         now apply valid_token_lead].
    cbn [fst snd]. rewrite run_cat. cbn [run flat_map].
    unfold at_eol. cbn [after]. rewrite options_text_cons.
    destruct ds2 as [|d ds2]; cbn [app].
    - destruct (snd t ++ options_text toks);
        [now rewrite (lead_not_newline t Ht) | reflexivity].
    - destruct (ds2 ++ fst t :: snd t ++ options_text toks) eqn:E;
        [|reflexivity].
      destruct ds2; discriminate. }
  now rewrite H.
Qed.

Lemma modifier_not_at (c : ascii) (bef rest : str) :
  one_of "+-" c = false ->
  match_at MODIFIER_PATTERN (Pos bef (c :: rest)) = None.
Proof. apply modifier_not_at_flag. Qed.

Lemma modifier_not_at_end (bef : str) :
  match_at MODIFIER_PATTERN (Pos bef []) = None.
Proof. reflexivity. Qed.

(** The search passes over digits. *)
Lemma search_over_digits (ds : str) :
  is_digit_list ds ->
  forall (bef s : str),
    s <> [] \/ match_at MODIFIER_PATTERN (Pos (rev ds ++ bef) []) = None ->
    search_from MODIFIER_PATTERN bef (ds ++ s)
    = search_from MODIFIER_PATTERN (rev ds ++ bef) s.
Proof.
  induction 1 as [|d ds Hd Hds IH]; intros bef s Hs; [reflexivity|].
  cbn [app search_from].
  rewrite (modifier_not_at d bef (ds ++ s) (digit_not_sign d Hd)).
  rewrite IH.
  - cbn [rev]. now rewrite <- app_assoc.
  - destruct Hs as [Hs | Hs]; [now left|]. right. reflexivity.
Qed.

Lemma removelast_cons (t : token) (toks : list token) :
  toks <> [] -> removelast (t :: toks) = t :: removelast toks.
Proof. destruct toks; [congruence | reflexivity]. Qed.

Lemma last_signed_cons (t : token) (toks : list token) :
  toks <> [] -> last_signed (t :: toks) = last_signed toks.
Proof.
  intros H. unfold last_signed. cbn [rev].
  destruct (rev toks) as [|x l] eqn:E; [|reflexivity].
  apply (f_equal (@rev token)) in E. rewrite rev_involutive in E. now subst.
Qed.

(** The search over the options finds the last one when it is a signed
    number, at its place, and nothing otherwise. *)
Lemma search_modifier_tokens (toks : list token) :
  Forall valid_token toks ->
  forall bef,
    match last_signed toks with
    | Some (sg, ds) =>
        exists k,
          search_from MODIFIER_PATTERN bef (options_text toks)
          = Some (Match (List.length bef
                         + List.length (options_text (removelast toks)))
                        k (sg :: ds) [(2%nat, ds); (1%nat, [sg])])
    | None => search_from MODIFIER_PATTERN bef (options_text toks) = None
    end.
Proof.
  induction 1 as [|t toks Ht Hv IH]; intros bef; [reflexivity|].
  destruct toks as [|t' toks'].
  - destruct t as [a ds]. destruct Ht as [Hds Hkind].
    unfold last_signed. cbn [rev app].
    cbn [options_text map List.concat removelast List.length]. rewrite app_nil_r.
    unfold is_signed, is_letter, token_text in *. cbn [fst snd] in *.
    destruct Hkind as [Hl | [Hs Hne]].
    + rewrite (opchar_not_sign a Hl). cbn [search_from].
      rewrite (modifier_not_at a bef ds (opchar_not_sign a Hl)).
      pose proof (search_over_digits ds Hds (a :: bef) []
                    (or_intror (modifier_not_at_end _))) as Hd.
      rewrite app_nil_r in Hd. rewrite Hd. reflexivity.
    + rewrite Hs.
      destruct (modifier_at a ds bef Hs Hds Hne) as [k Hk].
      exists k. cbn [search_from]. rewrite Hk. now rewrite Nat.add_0_r.
  - rewrite (last_signed_cons t (t' :: toks')) by discriminate.
    rewrite (removelast_cons t (t' :: toks')) by discriminate.
    destruct t as [a ds]. pose proof Ht as [Hds Hkind]. cbn [fst snd] in Hds.
    assert (Hstep : search_from MODIFIER_PATTERN bef
                      (options_text ((a, ds) :: t' :: toks'))
                    = search_from MODIFIER_PATTERN (rev ds ++ a :: bef)
                        (options_text (t' :: toks'))).
    { rewrite (options_text_cons (a, ds)). cbn [fst snd search_from].
      assert (Hno : match_at MODIFIER_PATTERN
                      (Pos bef (a :: ds ++ options_text (t' :: toks'))) = None).
      { inversion Hv; subst. now apply modifier_not_before_option. }
      rewrite Hno. rewrite search_over_digits; [reflexivity | assumption|].
      left. rewrite options_text_cons. discriminate. }
    specialize (IH (rev ds ++ a :: bef)).
    destruct (last_signed (t' :: toks')) as [[sg ds']|];
      [|etransitivity; [exact Hstep | exact IH]].
    destruct IH as [k Hk]. exists k.
    etransitivity; [exact Hstep|]. rewrite Hk.
    do 2 f_equal.
    change (options_text ((a, ds) :: removelast (t' :: toks')))
      with (a :: ds ++ options_text (removelast (t' :: toks'))).
    rewrite !length_app, length_rev. cbn [List.length].
    rewrite length_app. lia.
Qed.

Lemma options_text_removelast (toks : list token) (t : token) :
  last_signed toks = Some t ->
  options_text toks = options_text (removelast toks) ++ token_text t.
Proof.
  unfold last_signed. intros H.
  destruct (rev toks) as [|x l] eqn:E; [discriminate|].
  destruct (is_signed x); [|discriminate]. injection H as ->.
  apply (f_equal (@rev token)) in E. rewrite rev_involutive in E. subst toks.
  cbn [rev]. rewrite removelast_last, options_text_app.
  cbn [options_text map List.concat]. now rewrite app_nil_r.
Qed.

Lemma firstn_length_app {A : Type} (l1 l2 : list A) :
  firstn (List.length l1) (l1 ++ l2) = l1.
Proof.
  induction l1 as [|x l1 IH]; [reflexivity|].
  cbn [List.length app firstn]. now f_equal.
Qed.

(** What [roll_advanced] extracts as the modifier. *)
Lemma extract_modifier_tokens (toks : list token) :
  Forall valid_token toks ->
  extract_modifier (options_text toks)
  = (modifier_of toks, options_text (before_modifier toks)).
Proof.
  intros Hv. unfold extract_modifier, search, modifier_of, before_modifier.
  pose proof (search_modifier_tokens toks Hv []) as H.
  destruct (last_signed toks) as [[sg ds]|] eqn:E.
  - destruct H as [k ->].
    cbn [group_or_empty group m_caps lookup Nat.eqb m_start List.length
         suffix_value Nat.add].
    assert (Hsg : one_of "+-" sg = true).
    { unfold last_signed in E. destruct (rev toks) as [|x l]; [discriminate|].
      destruct (is_signed x) eqn:Ex; [|discriminate].
      injection E as ->. exact Ex. }
    rewrite (sign_eqb sg Hsg). f_equal.
    rewrite (options_text_removelast toks _ E) at 1.
    apply firstn_length_app.
  - now rewrite H.
Qed.

(** ** The operator tags among the options *)

Lemma sign_not_opchar (c : ascii) :
  one_of "+-" c = true -> one_of "adkxr!><" c = false.
Proof. intros H. apply sign_char in H as [-> | ->]; reflexivity. Qed.

Lemma digit_not_opchar (c : ascii) :
  is_digit c = true -> one_of "adkxr!><" c = false.
Proof.
  intros H. destruct (one_of "adkxr!><" c) eqn:E; [|reflexivity].
  apply opchar_not_digit in E. congruence.
Qed.

Lemma operators_not_at (c : ascii) (bef rest : str) :
  one_of "adkxr!><" c = false ->
  match_at OPERATORS (Pos bef (c :: rest)) = None.
Proof.
  intros Hc. unfold match_at, OPERATORS, Seq. cbn [fold_right].
  rewrite run_cat, run_grp. unfold opchar. now rewrite run_cls_cons, Hc.
Qed.

Lemma operators_at (a : ascii) (ds bef rest : str) :
  one_of "adkxr!><" a = true -> is_digit_list ds -> no_digit_ahead rest ->
  match_at OPERATORS (Pos bef (a :: ds ++ rest))
  = Some (Match (List.length bef) (List.length bef + List.length (a :: ds))
                (a :: ds) [(2%nat, ds); (1%nat, [a])]).
Proof.
  intros Ha Hds Hrest.
  assert (H : first_result (run OPERATORS (Pos bef (a :: ds ++ rest)) [])
              = Some (Pos (rev ds ++ a :: bef) rest,
                      [(2%nat, ds); (1%nat, [a])])).
  { unfold OPERATORS, Seq. cbn [fold_right]. rewrite run_cat.
    eapply first_flat_map.
    { unfold opchar. now apply group_class_first. }
    cbn [fst snd]. rewrite run_cat.
    eapply first_flat_map.
    { rewrite run_grp. apply first_map. rewrite run_star.
      apply star_digits_first; [assumption | cbn [after]; lia | assumption]. }
    cbn [fst snd]. now rewrite consumed_app. }
  rewrite (match_at_first _ _ _ _ H). cbn [before].
  pose proof (consumed_app bef (rev ds ++ a :: bef) (a :: ds) rest) as Hc.
  cbn [app] in Hc. now rewrite Hc.
Qed.

(** [finditer] leaves the characters of a match behind. *)
Lemma finditer_skip (r : regex) (x : str) :
  forall (bef s : str),
    finditer_from r bef (x ++ s) (List.length x)
    = finditer_from r (rev x ++ bef) s 0.
Proof.
  induction x as [|a x IH]; intros bef s; [reflexivity|].
  cbn [app List.length finditer_from]. rewrite IH. cbn [rev].
  now rewrite <- app_assoc.
Qed.

Lemma finditer_over_digits (ds : str) :
  is_digit_list ds ->
  forall (bef s : str),
    s <> [] ->
    finditer_from OPERATORS bef (ds ++ s) 0
    = finditer_from OPERATORS (rev ds ++ bef) s 0.
Proof.
  induction 1 as [|d ds Hd Hds IH]; intros bef s Hs; [reflexivity|].
  cbn [app finditer_from].
  rewrite (operators_not_at d bef (ds ++ s) (digit_not_opchar d Hd)).
  rewrite IH by assumption. cbn [rev]. now rewrite <- app_assoc.
Qed.

Lemma finditer_digits_end (ds : str) :
  is_digit_list ds ->
  forall bef, finditer_from OPERATORS bef ds 0 = [].
Proof.
  induction 1 as [|d ds Hd Hds IH]; intros bef; [reflexivity|].
  cbn [finditer_from].
  rewrite (operators_not_at d bef ds (digit_not_opchar d Hd)). apply IH.
Qed.

(** The operators [finditer] reads are the letters among the options,
    with their digits. *)
Lemma operators_tokens (toks : list token) :
  Forall valid_token toks ->
  forall bef,
    map tag_of (finditer_from OPERATORS bef (options_text toks) 0)
    = tags_of toks.
Proof.
  induction 1 as [|t toks Ht Hv IH]; intros bef; [reflexivity|].
  destruct t as [a ds]. pose proof Ht as [Hds Hkind].
  unfold is_letter, is_signed in Hkind. cbn [fst snd] in Hds, Hkind.
  pose proof (options_no_digit_ahead toks [] Hv I) as Hnd.
  rewrite app_nil_r in Hnd.
  change (options_text ((a, ds) :: toks)) with (a :: ds ++ options_text toks).
  unfold tags_of. cbn [filter]. unfold is_letter at 1. cbn [fst].
  destruct Hkind as [Hl | [Hs Hne]].
  - rewrite Hl. cbn [finditer_from map fst snd].
    rewrite (operators_at a ds bef (options_text toks) Hl Hds Hnd).
    cbn [m_end m_start map tag_of group_or_empty group m_caps lookup Nat.eqb].
    f_equal.
    replace (List.length bef + List.length (a :: ds) - List.length bef - 1)%nat
      with (List.length ds) by (cbn [List.length]; lia).
    rewrite finditer_skip. apply IH.
  - rewrite (sign_not_opchar a Hs). cbn [finditer_from].
    rewrite (operators_not_at a bef _ (sign_not_opchar a Hs)).
    destruct toks as [|t' toks'].
    + cbn [options_text map List.concat]. rewrite app_nil_r.
      now rewrite finditer_digits_end.
    + rewrite finditer_over_digits;
        [apply IH | assumption | rewrite options_text_cons; discriminate].
Qed.

Lemma removelast_valid (toks : list token) :
  Forall valid_token toks -> Forall valid_token (removelast toks).
Proof.
  induction 1 as [|t toks Ht Hv IH]; [constructor|].
  destruct toks as [|t' toks']; [constructor|].
  rewrite removelast_cons by discriminate. now constructor.
Qed.

Lemma before_modifier_valid (toks : list token) :
  Forall valid_token toks -> Forall valid_token (before_modifier toks).
Proof.
  intros H. unfold before_modifier.
  destruct (last_signed toks); [now apply removelast_valid | assumption].
Qed.

(** ** What [roll_advanced] reads from any expression *)

(** The count, the sides, the trailing modifier and the tags of an
    expression made of a head, options and text no option starts. *)
Lemma parse_advanced_tokens (e : str) (count : option str) (sides : str)
    (toks : list token) (rest : str) :
  normalize e = head_text count sides ++ options_text toks ++ rest ->
  valid_head count sides -> Forall valid_token toks -> no_token_ahead rest ->
  parse_advanced e
  = match validate (count_of count) (int_digits sides) with
    | inl err => inl err
    | inr _ => inr (count_of count, int_digits sides, modifier_of toks,
                    tags_of (before_modifier toks))
    end.
Proof.
  intros He Hh Hv Hrest.
  destruct (adv_pattern_tokens count sides toks rest Hh Hv Hrest) as [p Hp].
  unfold parse_advanced, rmatch_start.
  rewrite He, (match_at_first _ _ _ _ Hp).
  set (mt := Match _ _ _ _).
  assert (Hcount : (if group_true 1 mt
                    then int_digits (group_or_empty 1 mt) else 1)
                   = count_of count).
  { destruct count as [ds|]; [|reflexivity].
    destruct Hh as [[_ Nd] _]. destruct ds; [congruence | reflexivity]. }
  rewrite Hcount. subst mt.
  cbn [group_or_empty group m_caps lookup Nat.eqb].
  destruct (validate (count_of count) (int_digits sides)); [reflexivity|].
  rewrite (extract_modifier_tokens toks Hv). unfold finditer.
  now rewrite (operators_tokens _ (before_modifier_valid toks Hv)).
Qed.

(** ** Every text is options and what no option starts *)

Lemma tokens_exist (n : nat) :
  forall s : str,
    (List.length s <= n)%nat -> no_digit_ahead s ->
    exists toks rest,
      s = options_text toks ++ rest /\
      Forall valid_token toks /\ no_token_ahead rest.
Proof.
  induction n as [|n IH]; intros s Hn Hs.
  - destruct s; [|cbn in Hn; lia]. exists [], []. repeat split. constructor.
  - destruct s as [|c t]; [exists [], []; repeat split; constructor|].
    cbn [no_digit_ahead] in Hs. cbn [List.length] in Hn.
    destruct (digits_span t) as (ds & r & -> & Hds & Hr).
    assert (Hlen : (List.length r <= n)%nat) by (rewrite length_app in Hn; lia).
    destruct (one_of "adkxr!><" c) eqn:Eop.
    + destruct (IH r Hlen Hr) as (toks & rest & -> & Hv & Hrest).
      exists ((c, ds) :: toks), rest. rewrite options_text_cons. cbn [fst snd app].
      split; [now rewrite <- app_assoc|]. split; [|assumption].
      constructor; [|assumption]. split; [assumption|]. now left.
    + destruct (one_of "+-" c) eqn:Esg.
      * destruct ds as [|d ds].
        -- exists [], (c :: r). cbn [app].
           split; [reflexivity|]. split; [constructor|].
           repeat split; auto.
        -- destruct (IH r Hlen Hr) as (toks & rest & -> & Hv & Hrest).
           exists ((c, d :: ds) :: toks), rest. rewrite options_text_cons.
           cbn [fst snd app]. split; [now rewrite <- app_assoc|].
           split; [|assumption].
           constructor; [|assumption]. split; [assumption|].
           right. split; [assumption | discriminate].
      * exists [], (c :: ds ++ r). cbn [app options_text map List.concat].
        split; [reflexivity|]. split; [constructor|].
        repeat split; auto. congruence.
Qed.

(** ** Where the patterns find no die *)

Lemma starts_die_spec (s : str) :
  no_digit_ahead s ->
  if starts_die s
  then exists ds r, s = "d"%char :: ds ++ r /\ is_digit_list ds /\ ds <> [] /\
                    no_digit_ahead r
  else forall bef c (r2 : regex),
         run (Cat (Chr "d") (Cat (Grp 2 (Plus digit)) r2)) (Pos bef s) c = [].
Proof.
  intros Hs. destruct s as [|a [|d t]]; cbn [starts_die].
  - reflexivity.
  - intros bef c r2. rewrite run_cat. unfold Chr at 1. rewrite run_cls_cons.
    destruct (Ascii.eqb "d" a); [|reflexivity].
    cbn [flat_map fst snd]. rewrite run_cat, grp_digits_none by exact I.
    reflexivity.
  - destruct (Ascii.eqb "d" a) eqn:Ea; cbn [andb].
    + apply Ascii.eqb_eq in Ea. subst a.
      destruct (is_digit d) eqn:Ed.
      * destruct (digits_span t) as (ds & r & -> & Hds & Hr).
        exists (d :: ds), r. repeat split; [now constructor | discriminate | assumption].
      * intros bef c r2. rewrite run_cat. unfold Chr at 1. rewrite run_cls_cons.
        cbn [Ascii.eqb Bool.eqb flat_map fst snd].
        rewrite run_cat, grp_digits_none by exact Ed. reflexivity.
    + intros bef c r2. rewrite run_cat. unfold Chr at 1.
      now rewrite run_cls_cons, Ea.
Qed.

(** A die is not met inside the digits of the count. *)
Lemma no_die_in_digits (pre ds2 r1 bef : str) (c : caps) (r2 : regex) :
  is_digit_list ds2 -> no_digit_ahead r1 ->
  ds2 <> [] \/ starts_die r1 = false ->
  run (Cat (Chr "d") (Cat (Grp 2 (Plus digit)) r2)) (Pos bef (ds2 ++ r1)) c = [].
Proof.
  intros Hds Hr1 [Hne | Hno].
  - destruct ds2 as [|d ds2]; [congruence|]. inversion Hds; subst.
    cbn [app]. rewrite run_cat. unfold Chr at 1.
    now rewrite run_cls_cons, digit_is_not_d.
  - destruct ds2 as [|d ds2].
    + cbn [app]. pose proof (starts_die_spec r1 Hr1) as H.
      rewrite Hno in H. apply H.
    + inversion Hds; subst. cbn [app]. rewrite run_cat. unfold Chr at 1.
      now rewrite run_cls_cons, digit_is_not_d.
Qed.

(** [ADV_DICE_PATTERN] does not match digits that no die follows. *)
Lemma adv_pattern_no_die (ds1 r1 : str) :
  is_digit_list ds1 -> no_digit_ahead r1 -> starts_die r1 = false ->
  rmatch_start ADV_DICE_PATTERN (ds1 ++ r1) = None.
Proof.
  intros Hds Hr1 Hno. unfold rmatch_start, match_at.
  assert (H : run ADV_DICE_PATTERN (Pos [] (ds1 ++ r1)) [] = []).
  { unfold ADV_DICE_PATTERN, Seq. cbn [fold_right]. rewrite run_cat.
    apply flat_map_nil. intros x Hx.
    unfold Opt in Hx. rewrite run_alt in Hx.
    apply in_app_or in Hx as [Hx | Hx].
    - rewrite run_grp in Hx. apply in_map_iff in Hx as (z & <- & Hz).
      unfold digit in Hz.
      apply plus_class_results in Hz as (pre & post & Heq & _ & Hpre & ->).
      symmetry in Heq.
      apply digit_prefix_split in Heq as (ds2 & -> & ->); try assumption.
      cbn [fst snd]. apply (no_die_in_digits pre); try assumption.
      + apply Forall_app in Hds. apply Hds.
      + now right.
    - destruct Hx as [<-|[]]. cbn [fst snd].
      apply (no_die_in_digits []); try assumption. now right. }
  now rewrite H.
Qed.

(** Every text [ADV_DICE_PATTERN] matches is a head and what follows it. *)
Lemma adv_pattern_head (s : str) :
  rmatch_start ADV_DICE_PATTERN s = None \/
  exists count sides r,
    s = head_text count sides ++ r /\ valid_head count sides /\
    no_digit_ahead r.
Proof.
  destruct (digits_span s) as (ds1 & r1 & -> & Hds1 & Hr1).
  pose proof (starts_die_spec r1 Hr1) as Hdie.
  destruct (starts_die r1) eqn:E.
  - right. destruct Hdie as (ds2 & r & -> & Hds2 & Nds2 & Hr).
    destruct ds1 as [|d ds1].
    + exists None, ds2, r. unfold head_text. cbn [app].
      repeat split; assumption.
    + exists (Some (d :: ds1)), ds2, r. unfold head_text.
      rewrite <- app_assoc. cbn [app].
      repeat split; try assumption. discriminate.
  - left. now apply adv_pattern_no_die.
Qed.

(** Every expression [roll_advanced] reads is a head, options and text
    that no option starts. *)
Lemma parse_advanced_shape (e : str) (x : Z * Z * Z * list tag) :
  parse_advanced e = inr x ->
  exists count sides toks rest,
    normalize e = head_text count sides ++ options_text toks ++ rest /\
    valid_head count sides /\ Forall valid_token toks /\ no_token_ahead rest.
Proof.
  intros Hp.
  destruct (adv_pattern_head (normalize e))
    as [Hno | (count & sides & r & He & Hh & Hr)].
  - unfold parse_advanced in Hp. rewrite Hno in Hp. discriminate.
  - destruct (tokens_exist (List.length r) r (le_n _) Hr)
      as (toks & rest & -> & Hv & Hrest).
    now exists count, sides, toks, rest.
Qed.

(** ** What [roll] reads from any expression *)

Lemma starts_number_digit (s : str) :
  starts_number s = false -> no_digit_ahead s.
Proof.
  destruct s as [|c t]; [easy|]. cbn [starts_number no_digit_ahead].
  intros H. now apply orb_false_iff in H as [H _].
Qed.

(** [DICE_PATTERN] on a count, a [d], the sides, a signed number and
    what follows it. *)
Lemma dice_pattern_signed (ds1 ds2 ds3 r4 : str) (sg : ascii) :
  is_digit_list ds1 -> ds1 <> [] -> is_digit_list ds2 -> ds2 <> [] ->
  one_of "+-" sg = true -> is_digit_list ds3 -> ds3 <> [] ->
  no_digit_ahead r4 ->
  exists p,
    first_result
      (run DICE_PATTERN
         (Pos [] (ds1 ++ "d"%char :: ds2 ++ sg :: ds3 ++ r4)) [])
    = Some (p, [(4%nat, ds3); (3%nat, [sg]); (2%nat, ds2); (1%nat, ds1)]).
Proof.
  intros H1 N1 H2 N2 Hsg H3 N3 H4. eexists.
  unfold DICE_PATTERN, Seq. cbn [fold_right]. rewrite run_cat.
  eapply first_flat_map.
  { apply group_digits_first; try assumption. reflexivity. }
  cbn [fst snd]. rewrite run_cat. unfold Chr at 1.
  rewrite run_cls_cons. cbn [Ascii.eqb Bool.eqb].
  cbn [flat_map fst snd]. rewrite app_nil_r, run_cat.
  eapply first_flat_map.
  { apply group_digits_first; try assumption.
    cbn [no_digit_ahead]. now apply sign_not_digit. }
  cbn [fst snd]. rewrite run_cat. eapply first_flat_map.
  { unfold Opt. rewrite run_alt. apply first_app.
    rewrite run_cat. eapply first_flat_map.
    { unfold sign. now apply group_class_first. }
    cbn [fst snd]. rewrite run_cat. eapply first_flat_map.
    { apply group_digits_first; assumption. }
    reflexivity. }
  reflexivity.
Qed.

(** [DICE_PATTERN] on a count, a [d], the sides and text that is no
    signed number. *)
Lemma dice_pattern_unsigned (ds1 ds2 r3 : str) :
  is_digit_list ds1 -> ds1 <> [] -> is_digit_list ds2 -> ds2 <> [] ->
  starts_number r3 = false ->
  exists p,
    first_result
      (run DICE_PATTERN (Pos [] (ds1 ++ "d"%char :: ds2 ++ r3)) [])
    = Some (p, [(2%nat, ds2); (1%nat, ds1)]).
Proof.
  intros H1 N1 H2 N2 H3. eexists.
  unfold DICE_PATTERN, Seq. cbn [fold_right]. rewrite run_cat.
  eapply first_flat_map.
  { apply group_digits_first; try assumption. reflexivity. }
  cbn [fst snd]. rewrite run_cat. unfold Chr at 1.
  rewrite run_cls_cons. cbn [Ascii.eqb Bool.eqb].
  cbn [flat_map fst snd]. rewrite app_nil_r, run_cat.
  eapply first_flat_map.
  { apply group_digits_first; try assumption. now apply starts_number_digit. }
  cbn [fst snd]. rewrite run_cat. eapply first_flat_map.
  { unfold Opt. rewrite run_alt.
    assert (Hno : forall bef c,
               run (Cat (Grp 3 sign) (Cat (Grp 4 (Plus digit)) Eps))
                 (Pos bef r3) c = []).
    { intros bef c. rewrite run_cat, run_grp. unfold sign.
      destruct r3 as [|a t]; [reflexivity|].
      rewrite run_cls_cons. cbn [starts_number] in H3.
      apply orb_false_iff in H3 as [_ H3].
      destruct (one_of "+-" a); [|reflexivity].
      cbn [map flat_map fst snd]. rewrite run_cat, grp_digits_none;
        [reflexivity|].
      destruct t as [|d t]; [exact I | exact H3]. }
    rewrite Hno. reflexivity. }
  reflexivity.
Qed.

Lemma parse_expression_signed (e ds1 ds2 ds3 r4 : str) (sg : ascii) :
  normalize e = ds1 ++ "d"%char :: ds2 ++ sg :: ds3 ++ r4 ->
  is_digit_list ds1 -> ds1 <> [] -> is_digit_list ds2 -> ds2 <> [] ->
  one_of "+-" sg = true -> is_digit_list ds3 -> ds3 <> [] ->
  no_digit_ahead r4 ->
  parse_expression e
  = inr (int_digits ds1, int_digits ds2,
         if Ascii.eqb sg "+" then OpPlus else OpMinus, int_digits ds3).
Proof.
  intros He H1 N1 H2 N2 Hsg H3 N3 H4.
  destruct (dice_pattern_signed ds1 ds2 ds3 r4 sg H1 N1 H2 N2 Hsg H3 N3 H4)
    as [p Hp].
  unfold parse_expression, rmatch_start.
  rewrite He, (match_at_first _ _ _ _ Hp).
  destruct ds3 as [|d3 ds3]; [congruence|].
  apply sign_char in Hsg as [-> | ->]; reflexivity.
Qed.

Lemma parse_expression_unsigned (e ds1 ds2 r3 : str) :
  normalize e = ds1 ++ "d"%char :: ds2 ++ r3 ->
  is_digit_list ds1 -> ds1 <> [] -> is_digit_list ds2 -> ds2 <> [] ->
  starts_number r3 = false ->
  parse_expression e = inr (int_digits ds1, int_digits ds2, OpPlus, 0).
Proof.
  intros He H1 N1 H2 N2 H3.
  destruct (dice_pattern_unsigned ds1 ds2 r3 H1 N1 H2 N2 H3) as [p Hp].
  unfold parse_expression, rmatch_start.
  rewrite He, (match_at_first _ _ _ _ Hp). reflexivity.
Qed.

(** [DICE_PATTERN] does not match text without a count, or whose count
    no die follows. *)
Lemma dice_pattern_no_die (ds1 r1 : str) :
  is_digit_list ds1 -> no_digit_ahead r1 ->
  ds1 = [] \/ starts_die r1 = false ->
  rmatch_start DICE_PATTERN (ds1 ++ r1) = None.
Proof.
  intros Hds Hr1 Hno. unfold rmatch_start, match_at.
  assert (H : run DICE_PATTERN (Pos [] (ds1 ++ r1)) [] = []).
  { unfold DICE_PATTERN, Seq. cbn [fold_right]. rewrite run_cat.
    apply flat_map_nil. intros x Hx.
    rewrite run_grp in Hx. apply in_map_iff in Hx as (z & <- & Hz).
    unfold digit in Hz.
    apply plus_class_results in Hz as (pre & post & Heq & Npre & Hpre & ->).
    symmetry in Heq.
    apply digit_prefix_split in Heq as (ds2 & -> & ->); try assumption.
    cbn [fst snd]. destruct Hno as [Hno | Hno].
    - destruct pre; [congruence | discriminate].
    - apply (no_die_in_digits pre); try assumption.
      + apply Forall_app in Hds. apply Hds.
      + now right. }
  now rewrite H.
Qed.

(** After the sides comes a signed number, or text that is none. *)
Lemma signed_or_not (r3 : str) :
  no_digit_ahead r3 ->
  (exists sg ds3 r4,
      r3 = sg :: ds3 ++ r4 /\ one_of "+-" sg = true /\
      is_digit_list ds3 /\ ds3 <> [] /\ no_digit_ahead r4) \/
  starts_number r3 = false.
Proof.
  intros H. destruct r3 as [|c t]; [now right|].
  cbn [no_digit_ahead] in H. cbn [starts_number]. rewrite H. cbn [orb].
  destruct (one_of "+-" c) eqn:E; [|now right].
  destruct (digits_span t) as (ds & r & -> & Hds & Hr).
  destruct ds as [|d ds].
  - right. cbn [app andb]. destruct r; [reflexivity | exact Hr].
  - left. exists c, (d :: ds), r. repeat split; try assumption. discriminate.
Qed.

(** Every expression [roll] reads, and what it reads from it. *)
Lemma parse_expression_shape (e : str) (x : Z * Z * operator * Z) :
  parse_expression e = inr x ->
  exists ds1 ds2 r3,
    normalize e = ds1 ++ "d"%char :: ds2 ++ r3 /\
    is_digit_list ds1 /\ ds1 <> [] /\ is_digit_list ds2 /\ ds2 <> [] /\
    no_digit_ahead r3 /\
    ((exists sg ds3 r4,
         r3 = sg :: ds3 ++ r4 /\ one_of "+-" sg = true /\
         is_digit_list ds3 /\ ds3 <> [] /\ no_digit_ahead r4 /\
         x = (int_digits ds1, int_digits ds2,
              if Ascii.eqb sg "+" then OpPlus else OpMinus, int_digits ds3)) \/
     (starts_number r3 = false /\
      x = (int_digits ds1, int_digits ds2, OpPlus, 0))).
Proof.
  intros Hp.
  destruct (digits_span (normalize e)) as (ds1 & r1 & He & Hds1 & Hr1).
  pose proof (starts_die_spec r1 Hr1) as Hdie.
  destruct (starts_die r1) eqn:E.
  2: { unfold parse_expression in Hp.
       rewrite He, (dice_pattern_no_die ds1 r1 Hds1 Hr1 (or_intror E)) in Hp.
       discriminate. }
  destruct ds1 as [|d1 ds1].
  { unfold parse_expression in Hp.
    rewrite He, (dice_pattern_no_die [] r1 Hds1 Hr1 (or_introl eq_refl)) in Hp.
    discriminate. }
  destruct Hdie as (ds2 & r3 & -> & Hds2 & Nds2 & Hr3).
  exists (d1 :: ds1), ds2, r3.
  split; [exact He|]. split; [assumption|]. split; [discriminate|].
  split; [assumption|]. split; [assumption|]. split; [assumption|].
  destruct (signed_or_not r3 Hr3)
    as [(sg & ds3 & r4 & -> & Hsg & Hds3 & Nds3 & Hr4) | Hplain].
  - left. exists sg, ds3, r4. repeat split; try assumption.
    rewrite (parse_expression_signed e (d1 :: ds1) ds2 ds3 r4 sg) in Hp;
      try assumption; try discriminate.
    now injection Hp.
  - right. split; [assumption|].
    rewrite (parse_expression_unsigned e (d1 :: ds1) ds2 r3) in Hp;
      try assumption; try discriminate.
    now injection Hp.
Qed.

(** ** Trailing text *)

Lemma no_digit_ahead_app (r nt : str) :
  no_digit_ahead r -> no_digit_ahead nt -> no_digit_ahead (r ++ nt).
Proof. destruct r; [easy|]. now intros H _. Qed.

Lemma starts_number_app (r nt : str) :
  starts_number r = false -> starts_number nt = false ->
  starts_number (r ++ nt) = false.
Proof.
  intros Hr Hnt. destruct r as [|c [|d t]]; [assumption| |exact Hr].
  cbn [app starts_number] in *. apply orb_false_iff in Hr as [Hc _].
  rewrite Hc. cbn [orb]. apply andb_false_iff. right.
  destruct nt as [|a nt]; [reflexivity|].
  cbn [starts_number] in Hnt. now apply orb_false_iff in Hnt as [Hnt _].
Qed.

Lemma parse_expression_tail (e tail : str) (x : Z * Z * operator * Z) :
  starts_number (normalize tail) = false ->
  parse_expression e = inr x -> parse_expression (e ++ tail) = inr x.
Proof.
  intros Ht Hp.
  destruct (parse_expression_shape e x Hp)
    as (ds1 & ds2 & r3 & He & H1 & N1 & H2 & N2 & H3 & Hx).
  pose proof (starts_number_digit _ Ht) as Hnd.
  destruct Hx as [(sg & ds3 & r4 & -> & Hsg & Hds3 & Nds3 & Hr4 & ->)
                 | (Hplain & ->)].
  - apply (parse_expression_signed (e ++ tail) ds1 ds2 ds3
             (r4 ++ normalize tail) sg); try assumption.
    + rewrite normalize_app, He.
      repeat (progress (cbn [app]; rewrite <- ?app_assoc)). reflexivity.
    + now apply no_digit_ahead_app.
  - apply (parse_expression_unsigned (e ++ tail) ds1 ds2
             (r3 ++ normalize tail)); try assumption.
    + rewrite normalize_app, He.
      repeat (progress (cbn [app]; rewrite <- ?app_assoc)). reflexivity.
    + now apply starts_number_app.
Qed.

Lemma starts_option_parts (s : str) :
  starts_option s = false ->
  starts_number s = false /\ no_token_ahead s.
Proof.
  unfold starts_option. intros H. apply orb_false_iff in H as [Hn Ho].
  split; [assumption|]. destruct s as [|c t]; [exact I|].
  cbn [starts_number] in Hn. apply orb_false_iff in Hn as [Hd Hs].
  cbn [no_token_ahead]. repeat split; try assumption.
  intros Hsg. rewrite Hsg in Hs. cbn [andb] in Hs.
  destruct t; [exact I | exact Hs].
Qed.

Lemma no_token_ahead_app (rest nt : str) :
  no_token_ahead rest -> no_token_ahead nt -> no_token_ahead (rest ++ nt).
Proof.
  intros Hr Hnt. destruct rest as [|c t]; [assumption|].
  destruct Hr as (Hd & Ho & Hs). cbn [app no_token_ahead].
  repeat split; try assumption.
  intros Hsg. apply no_digit_ahead_app; [now apply Hs|].
  now apply no_token_ahead_digit.
Qed.

Lemma parse_advanced_tail (e tail : str) (x : Z * Z * Z * list tag) :
  starts_option (normalize tail) = false ->
  parse_advanced e = inr x -> parse_advanced (e ++ tail) = inr x.
Proof.
  intros Ht Hp.
  destruct (parse_advanced_shape e x Hp)
    as (count & sides & toks & rest & He & Hh & Hv & Hrest).
  apply starts_option_parts in Ht as [_ Ht].
  rewrite (parse_advanced_tokens e count sides toks rest He Hh Hv Hrest) in Hp.
  rewrite (parse_advanced_tokens (e ++ tail) count sides toks
             (rest ++ normalize tail)); try assumption.
  - rewrite normalize_app, He. now rewrite <- !app_assoc.
  - now apply no_token_ahead_app.
Qed.

(** C9, as amended: [roll] and [roll_advanced] match their pattern at
    the start of the input only. When an expression is accepted, the
    expression followed by trailing text is accepted too, with the same
    rolls, total and breakdown, provided the trailing text (lower-cased,
    spaces removed) does not go on with something the pattern takes: a
    digit, a sign followed by a digit, or, for [roll_advanced], an
    option letter. Any other trailing text is passed over, such as
    [ damage] or [+x]. *)
Theorem trailing_text_ignored (en : entry) (e tail : str) (g g' : rng)
    (r : DiceRoll) :
  run_entry en e g = Ok r g' ->
  tail_ignored en tail = true ->
  run_entry en (e ++ tail) g = Ok (set_expression (e ++ tail) r) g'.
Proof.
  destruct en as [|fuel]; cbn [run_entry tail_ignored]; intros Hroll Hb;
    apply negb_true_iff in Hb.
  - destruct (parse_expression e) as [err | [[[n s] op] m]] eqn:Hp.
    { rewrite (roll_unparsed e g _ Hp) in Hroll. discriminate. }
    destruct (validate_cases n s) as [Hv | [v Hv]].
    + rewrite (roll_parsed e g Hp Hv) in Hroll. injection Hroll as <- <-.
      rewrite (roll_parsed (e ++ tail) g (parse_expression_tail e tail _ Hb Hp) Hv).
      reflexivity.
    + rewrite (roll_invalid e g Hp Hv) in Hroll. discriminate.
  - destruct (parse_advanced e) as [err | [[[n s] m] tags]] eqn:Hp.
    { rewrite (roll_advanced_unparsed fuel e g _ Hp) in Hroll. discriminate. }
    rewrite (roll_advanced_parsed fuel e g Hp) in Hroll.
    rewrite (roll_advanced_parsed fuel (e ++ tail) g
               (parse_advanced_tail e tail _ Hb Hp)).
    destruct (roll_with_options fuel n s (parse_options n tags) g);
      try discriminate.
    injection Hroll as <- <-. reflexivity.
Qed.

Lemma trailing_text_ignored_witness :
  exists r g',
    roll (lit "2d6") (rng_of [3; 4]) = Ok r g' /\
    roll (lit "2d6" ++ lit " damage") (rng_of [3; 4])
    = Ok (set_expression (lit "2d6" ++ lit " damage") r) g'.
Proof.
  eexists. eexists. split.
  - vm_compute. reflexivity.
  - apply (trailing_text_ignored Simple (lit "2d6") (lit " damage")).
    + vm_compute. reflexivity.
    + reflexivity.
Defined.

(** C9 (counterexample): [2d1000] is accepted, and [2d10000], of which
    it is a prefix, is not: the pattern takes the fifth digit, and the
    sides are out of bounds. The other beginnings the amended claim
    leaves out are taken as well: after [2d6], the text [+3] is read as
    a modifier, and by [roll_advanced] the text [k1] as an option. *)
Lemma valid_prefix_rejected :
  rolls_and_total (roll (lit "2d1000") (rng_of [6; 41])) = Some ([7; 42], 49) /\
  roll (lit "2d1000" ++ lit "0") (rng_of [6; 41])
  = Raise (ValueError (TooManySides 10000)) (rng_of [6; 41]) /\
  roll_advanced 0 (lit "2d1000" ++ lit "0") (rng_of [6; 41])
  = Raise (ValueError (TooManySides 10000)) (rng_of [6; 41]) /\
  rolls_and_total (roll (lit "2d6") (rng_of [3; 4])) = Some ([4; 5], 9) /\
  rolls_and_total (roll (lit "2d6" ++ lit "+3") (rng_of [3; 4]))
  = Some ([4; 5], 12) /\
  rolls_and_total (roll_advanced 0 (lit "2d6") (rng_of [3; 4]))
  = Some ([4; 5], 9) /\
  rolls_and_total (roll_advanced 0 (lit "2d6" ++ lit "k1") (rng_of [3; 4]))
  = Some ([5], 5).
Proof. repeat split; vm_compute; reflexivity. Qed.

(** ** An expression with and without its [k] tag without digits *)

Lemma signed_not_letter (t : token) : is_signed t = true -> is_letter t = false.
Proof. apply sign_not_opchar. Qed.

Lemma last_signed_last (toks : list token) (t : token) :
  last_signed toks = Some t ->
  toks = removelast toks ++ [t] /\ is_signed t = true.
Proof.
  unfold last_signed. intros H.
  destruct (rev toks) as [|x l] eqn:E; [discriminate|].
  destruct (is_signed x) eqn:Ex; [|discriminate]. injection H as ->.
  apply (f_equal (@rev token)) in E. rewrite rev_involutive in E. subst toks.
  cbn [rev]. now rewrite removelast_last.
Qed.

(** The tags are those of all the options: the modifier is no letter. *)
Lemma tags_of_before_modifier (toks : list token) :
  tags_of (before_modifier toks) = tags_of toks.
Proof.
  unfold before_modifier. destruct (last_signed toks) as [t|] eqn:E;
    [|reflexivity].
  apply last_signed_last in E as [E Hs]. rewrite E at 2.
  unfold tags_of. rewrite filter_app. cbn [filter].
  rewrite (signed_not_letter t Hs). now rewrite app_nil_r.
Qed.

Lemma tags_of_app (t1 t2 : list token) :
  tags_of (t1 ++ t2) = tags_of t1 ++ tags_of t2.
Proof. unfold tags_of. now rewrite filter_app, map_app. Qed.

Lemma last_signed_app (t1 t2 : list token) (t : token) :
  last_signed (t1 ++ t :: t2)
  = match t2 with
    | [] => if is_signed t then Some t else None
    | _ => last_signed (t :: t2)
    end.
Proof.
  unfold last_signed. rewrite rev_app_distr. cbn [rev].
  destruct t2 as [|x t2]; [reflexivity|].
  cbn [rev]. rewrite <- !app_assoc.
  destruct (rev t2) as [|y l]; reflexivity.
Qed.

Lemma tags_of_with_k (t1 t2 : list token) :
  tags_of (t1 ++ ("k"%char, []) :: t2)
  = tags_of t1 ++ (lit "k", []) :: tags_of t2.
Proof. now rewrite tags_of_app. Qed.

(** The modifier read with the tag in place. *)
Lemma modifier_with_k (t1 t2 : list token) :
  modifier_of (t1 ++ ("k"%char, []) :: t2)
  = match t2 with
    | [] => 0
    | _ => modifier_of (t1 ++ t2)
    end.
Proof.
  unfold modifier_of. rewrite last_signed_app.
  destruct t2 as [|x t2]; [reflexivity|].
  rewrite (last_signed_cons _ (x :: t2)) by discriminate.
  rewrite (last_signed_app t1 t2 x).
  destruct t2; reflexivity.
Qed.

Lemma modifier_without_k (t1 : list token) :
  last_signed t1 = None -> modifier_of (t1 ++ []) = 0.
Proof. intros H. unfold modifier_of. now rewrite app_nil_r, H. Qed.

(** C7, as amended: a [k] tag without digits sets [keep_highest] to the
    dice count. Take an advanced expression (a head, options, and text
    that is no option) whose numerals fit the conversion, that holds
    such a tag and no other [k] tag, and whose dice are not exploding
    (no [!] tag, or an [a] or [d] tag is present); take the same text
    without the tag. Both are rolled from the same draws and give the
    same rolls. They give the same total and breakdown too, unless the
    tag is the last option and comes right after a signed number: that
    number is the modifier of the expression without the tag, and is
    passed over, for a modifier of 0, in the expression with it. *)
Theorem digitless_k_keeps_all (fuel : nat) (e e' : str)
    (count : option str) (sides : str) (t1 t2 : list token) (rest : str)
    (g : rng) :
  normalize e
  = head_text count sides ++ options_text (t1 ++ ("k"%char, []) :: t2) ++ rest ->
  normalize e' = head_text count sides ++ options_text (t1 ++ t2) ++ rest ->
  valid_head count sides -> Forall valid_token (t1 ++ t2) ->
  no_token_ahead rest ->
  numerals_fit e = true ->
  in_bounds (count_of count) (int_digits sides) ->
  has_flag "k" (tags_of (t1 ++ t2)) = false ->
  has_flag "!" (tags_of (t1 ++ t2)) = false \/
  has_flag "a" (tags_of (t1 ++ t2)) || has_flag "d" (tags_of (t1 ++ t2)) = true ->
  keep_highest
    (parse_options (count_of count)
       (tags_of (before_modifier (t1 ++ ("k"%char, []) :: t2))))
  = count_of count /\
  exists r r' g',
    roll_advanced fuel e' g = Ok r' g' /\
    roll_advanced fuel e g = Ok r g' /\
    rolls r = rolls r' /\
    total r' = sum (rolls r') + modifier_of (t1 ++ t2) /\
    total r = sum (rolls r) + match t2 with
                              | [] => 0
                              | _ => modifier_of (t1 ++ t2)
                              end /\
    (t2 <> [] \/ last_signed t1 = None -> r = set_expression e r').
Proof.
  intros He He' Hh Hv Hrest _ Hb Hk Hmode.
  set (n := count_of count) in *. set (s := int_digits sides) in *.
  assert (Hvk : Forall valid_token (t1 ++ ("k"%char, []) :: t2)).
  { apply Forall_app in Hv as [H1 H2]. apply Forall_app. split; [assumption|].
    constructor; [|assumption]. split; [constructor | now left]. }
  assert (Hval : validate n s = inr tt) by now apply validate_ok.
  pose proof (parse_advanced_tokens e count sides _ rest He Hh Hvk Hrest) as Hp.
  pose proof (parse_advanced_tokens e' count sides _ rest He' Hh Hv Hrest) as Hp'.
  fold n s in Hp, Hp'. rewrite Hval in Hp, Hp'.
  rewrite tags_of_before_modifier in *.
  rewrite tags_of_with_k in *. rewrite tags_of_app in Hp', Hk, Hmode.
  destruct (parse_options_digitless_k n (tags_of t1) (tags_of t2) Hk)
    as [Ho Hzero].
  split; [now rewrite Ho|].
  rewrite (roll_advanced_parsed fuel e g Hp), (roll_advanced_parsed fuel e' g Hp').
  rewrite Ho. unfold roll_with_options. cbn [set_keep_highest advantage disadvantage].
  rewrite parse_options_advantage, parse_options_disadvantage.
  rewrite modifier_with_k.
  assert (Hsame : t2 <> [] \/ last_signed t1 = None ->
                  match t2 with [] => 0 | _ => modifier_of (t1 ++ t2) end
                  = modifier_of (t1 ++ t2)).
  { intros [H | H]; [destruct t2; [congruence | reflexivity]|].
    destruct t2; [|reflexivity]. now rewrite modifier_without_k. }
  assert (Hres : forall rb : list Z * str,
             rolls (advanced_result e
                      match t2 with [] => 0 | _ => modifier_of (t1 ++ t2) end rb)
             = rolls (advanced_result e' (modifier_of (t1 ++ t2)) rb) /\
             total (advanced_result e' (modifier_of (t1 ++ t2)) rb)
             = sum (rolls (advanced_result e' (modifier_of (t1 ++ t2)) rb))
               + modifier_of (t1 ++ t2) /\
             total (advanced_result e
                      match t2 with [] => 0 | _ => modifier_of (t1 ++ t2) end rb)
             = sum (rolls (advanced_result e
                             match t2 with [] => 0 | _ => modifier_of (t1 ++ t2) end rb))
               + match t2 with [] => 0 | _ => modifier_of (t1 ++ t2) end /\
             (t2 <> [] \/ last_signed t1 = None ->
              advanced_result e
                match t2 with [] => 0 | _ => modifier_of (t1 ++ t2) end rb
              = set_expression e
                  (advanced_result e' (modifier_of (t1 ++ t2)) rb))).
  { intros rb. repeat split. intros H. now rewrite (Hsame H). }
  destruct (has_flag "a" (tags_of t1 ++ tags_of t2)
            || has_flag "d" (tags_of t1 ++ tags_of t2)) eqn:Hadv.
  - assert (Htwice : forall o o', advantage o = advantage o' ->
                                  roll_twice n s o g = roll_twice n s o' g).
    { intros o o' Ha. unfold roll_twice. now rewrite Ha. }
    rewrite (Htwice (set_keep_highest n (parse_options n (tags_of t1 ++ tags_of t2)))
                    (parse_options n (tags_of t1 ++ tags_of t2)) eq_refl).
    destruct (roll_twice_returns n s (parse_options n (tags_of t1 ++ tags_of t2)) g)
      as (rb & g' & ->).
    eexists. eexists. eexists. split; [reflexivity|]. split; [reflexivity|].
    apply Hres.
  - destruct Hmode as [Hex | Hcontra]; [|discriminate].
    destruct (roll_standard_keep_all fuel n s
                (parse_options n (tags_of t1 ++ tags_of t2)) g)
      as (rb & g' & -> & ->).
    + destruct Hb. lia.
    + now rewrite parse_options_exploding.
    + exact Hzero.
    + eexists. eexists. eexists. split; [reflexivity|]. split; [reflexivity|].
      apply Hres.
Qed.

Lemma digitless_k_keeps_all_witness :
  keep_highest
    (parse_options 3
       [(lit "k", []); (lit "r", lit "2")])
  = 3 /\
  exists r r' g',
    roll_advanced 0 (lit "3d6r2+1") (rng_of [0; 5; 2; 4]) = Ok r' g' /\
    roll_advanced 0 (lit "3d6kr2+1") (rng_of [0; 5; 2; 4]) = Ok r g' /\
    rolls r = rolls r' /\
    total r' = sum (rolls r') + 1 /\
    total r = sum (rolls r) + 1 /\
    ([("r"%char, lit "2"); ("+"%char, lit "1")] <> [] \/
     last_signed [] = None ->
     r = set_expression (lit "3d6kr2+1") r').
Proof.
  apply (digitless_k_keeps_all 0 (lit "3d6kr2+1") (lit "3d6r2+1")
           (Some (lit "3")) (lit "6") []
           [("r"%char, lit "2"); ("+"%char, lit "1")] [] (rng_of [0; 5; 2; 4])).
  - reflexivity.
  - reflexivity.
  - unfold valid_head. repeat split; try discriminate; repeat constructor.
  - constructor; [split; [repeat constructor | left; reflexivity]|].
    constructor; [|constructor].
    split; [repeat constructor | right; split; [reflexivity | discriminate]].
  - exact I.
  - reflexivity.
  - vm_compute. split; split; discriminate.
  - reflexivity.
  - left. reflexivity.
Defined.

(** C7 (counterexample): with exploding dice the working set can exceed
    the dice count, and the digit-less [k] cuts it: on [1d2!] drawing 2
    then 1, the rolls are [2; 1] without the tag and [2] with it. After
    another [k] tag it also undoes that tag: [4d6k3k] keeps four dice,
    [4d6k3] three. And right after the signed number at the end it
    changes the total: [2d6+3] adds 3, [2d6+3k] adds nothing. *)
Lemma digitless_k_changes_result :
  rolls_and_total (roll_advanced 5 (lit "1d2!k") (rng_of [1; 0])) = Some ([2], 2) /\
  rolls_and_total (roll_advanced 5 (lit "1d2!") (rng_of [1; 0])) = Some ([2; 1], 3) /\
  rolls_and_total (roll_advanced 5 (lit "4d6k3k") (rng_of [0; 1; 2; 3]))
  = Some ([1; 2; 3; 4], 10) /\
  rolls_and_total (roll_advanced 5 (lit "4d6k3") (rng_of [0; 1; 2; 3]))
  = Some ([4; 3; 2], 9) /\
  rolls_and_total (roll_advanced 5 (lit "2d6+3k") (rng_of [3; 4]))
  = Some ([4; 5], 9) /\
  rolls_and_total (roll_advanced 5 (lit "2d6+3") (rng_of [3; 4]))
  = Some ([4; 5], 12).
Proof. repeat split; vm_compute; reflexivity. Qed.

(** ** The advantage and disadvantage commands on any modifier text *)

Lemma in_options_text (t : token) (toks : list token) :
  In t toks -> In (fst t) (options_text toks).
Proof.
  induction toks as [|x toks IH]; [easy|].
  rewrite options_text_cons. intros [-> | H]; [now left|].
  right. apply in_or_app. right. now apply IH.
Qed.

Lemma has_flag_char (c : ascii) (tags : list tag) :
  has_flag (String c EmptyString) tags
  = existsb (fun tg => str_eqb (fst tg) [c]) tags.
Proof. reflexivity. Qed.

Lemma has_flag_tags_of (c : ascii) (toks : list token) :
  existsb (fun t => str_eqb (fst t) [c]) (tags_of toks) = true ->
  In c (options_text toks).
Proof.
  intros H. apply existsb_exists in H as (tg & Hin & Heq).
  unfold tags_of in Hin. apply in_map_iff in Hin as (t & <- & Hin).
  apply filter_In in Hin as [Hin _]. cbn [fst] in Heq.
  apply str_eqb_eq in Heq. injection Heq as <-.
  now apply in_options_text.
Qed.

Lemma in_normalize (c : ascii) (s : str) :
  In c (normalize s) -> exists c0, In c0 s /\ lower_char c0 = c.
Proof.
  unfold normalize, remove_spaces, lower. intros H.
  apply filter_In in H as [H _]. apply in_map_iff in H as (c0 & <- & H).
  now exists c0.
Qed.

Lemma in_lstrip (c : ascii) (s : str) : In c (lstrip s) -> In c s.
Proof.
  induction s as [|a s IH]; [easy|]. cbn [lstrip].
  destruct (is_space a); [|easy]. intros H. right. now apply IH.
Qed.

Lemma in_strip (c : ascii) (s : str) : In c (strip s) -> In c s.
Proof.
  unfold strip. intros H. apply in_rev in H. apply in_lstrip in H.
  apply in_rev in H. now apply in_lstrip in H.
Qed.

Lemma in_clean_modifier (c : ascii) (text : str) :
  In c (clean_modifier text) -> c = "+"%char \/ In c text.
Proof.
  unfold clean_modifier. destruct (strip text) as [|a s] eqn:E; [easy|].
  destruct (negb (startswith "+" (a :: s)) && negb (startswith "-" (a :: s))).
  - intros [<- | H]; [now left|]. right. apply in_strip. now rewrite E.
  - intros H. right. apply in_strip. now rewrite E.
Qed.

Lemma mentions_a_in (s : str) (c : ascii) :
  In c s -> lower_char c = "a"%char -> mentions_a s = true.
Proof.
  intros Hin Hc. unfold mentions_a. apply existsb_exists.
  exists c. split; [assumption|]. now rewrite Hc.
Qed.

(** [roll_advanced] on [1d20], the letter [a] or [d], and any text:
    the options read, and the two dice rolled. *)
Lemma roll_advanced_d20_letter (fuel : nat) (a : ascii) (t : str) (g : rng) :
  a = "a"%char \/ a = "d"%char ->
  exists r o,
    roll_advanced fuel (lit "1d20" ++ [a] ++ t) g = Ok r (advance (advance g)) /\
    rolls r = [d20_of_two o g] /\
    (a = "a"%char -> advantage o = true) /\
    (advantage o = true -> a = "a"%char \/ In "a"%char (normalize t)).
Proof.
  intros Ha.
  assert (Hop : one_of "adkxr!><" a = true) by (destruct Ha as [-> | ->]; reflexivity).
  assert (Hn : normalize (lit "1d20" ++ [a] ++ t)
               = head_text (Some (lit "1")) (lit "20") ++ a :: normalize t).
  { rewrite !normalize_app. destruct Ha as [-> | ->]; reflexivity. }
  destruct (tokens_exist (List.length (a :: normalize t)) (a :: normalize t)
              (le_n _) (opchar_not_digit a Hop))
    as (toks & rest & Htoks & Hv & Hrest).
  destruct toks as [|[a0 ds0] toks].
  { cbn [options_text map List.concat app] in Htoks. subst rest.
    destruct Hrest as (_ & Hno & _). congruence. }
  assert (Ha0 : a0 = a).
  { rewrite options_text_cons in Htoks. cbn [fst app] in Htoks. congruence. }
  subst a0.
  assert (Hh : valid_head (Some (lit "1")) (lit "20")).
  { unfold valid_head. repeat split; try discriminate; repeat constructor. }
  rewrite Htoks in Hn.
  pose proof (parse_advanced_tokens _ _ _ _ _ Hn Hh Hv Hrest) as Hp.
  change (validate (count_of (Some (lit "1"))) (int_digits (lit "20")))
    with (@inr exn unit tt) in Hp.
  change (count_of (Some (lit "1"))) with 1 in Hp.
  change (int_digits (lit "20")) with 20 in Hp.
  rewrite tags_of_before_modifier in Hp.
  set (tags := tags_of ((a, ds0) :: toks)) in *.
  set (o := parse_options 1 tags).
  assert (Hfirst : existsb (fun tg => str_eqb (fst tg) [a]) tags = true).
  { subst tags. unfold tags_of. cbn [filter]. unfold is_letter at 1.
    cbn [fst]. rewrite Hop. cbn [map existsb fst].
    unfold str_eqb at 1. now destruct (list_eq_dec ascii_dec [a] [a]). }
  assert (Hflag : advantage o || disadvantage o = true).
  { subst o. rewrite parse_options_advantage, parse_options_disadvantage.
    destruct Ha as [-> | ->].
    - now rewrite (has_flag_char "a"), Hfirst.
    - rewrite (has_flag_char "d"), Hfirst. apply orb_true_r. }
  destruct (roll_twice_d20 o g) as (bd & Hroll).
  eexists. exists o. split; [|split; [|split]].
  - rewrite (roll_advanced_parsed fuel _ g Hp).
    change (roll_with_options fuel 1 20 _ g)
      with (roll_with_options fuel 1 20 o g).
    unfold roll_with_options. rewrite Hflag, Hroll. reflexivity.
  - reflexivity.
  - intros ->. subst o. rewrite parse_options_advantage.
    now rewrite (has_flag_char "a").
  - intros Hadv. subst o. rewrite parse_options_advantage in Hadv.
    rewrite (has_flag_char "a") in Hadv.
    apply has_flag_tags_of in Hadv.
    assert (Hin : In "a"%char (a :: normalize t)).
    { rewrite Htoks. apply in_or_app. now left. }
    destruct Hin as [<- | Hin]; [now left | now right].
Qed.

(** X15: on any modifier text whose numerals fit the conversion,
    [advantage_command] returns: it draws two twenty-sided dice and
    reports the higher. [disadvantage_command] returns as well, after
    the same two draws: it reports the lower of its two dice, unless
    the text holds the letter [a] and brings an [a] option of its own,
    and then it reports the higher. *)
Theorem advantage_commands_always_roll (fuel : nat) (text : str) (g : rng) :
  numerals_fit text = true ->
  (exists r,
     advantage_command fuel text g = Ok r (advance (advance g)) /\
     rolls r = [Z.max (d20 g) (d20 (advance g))]) /\
  (exists r,
     disadvantage_command fuel text g = Ok r (advance (advance g)) /\
     (rolls r = [Z.min (d20 g) (d20 (advance g))] \/
      mentions_a text = true /\
      rolls r = [Z.max (d20 g) (d20 (advance g))])).
Proof.
  intros _. split.
  - destruct (roll_advanced_d20_letter fuel "a" (clean_modifier text) g
                (or_introl eq_refl)) as (r & o & Hr & Hrolls & Hadv & _).
    exists r. split; [exact Hr|].
    rewrite Hrolls. unfold d20_of_two. now rewrite (Hadv eq_refl).
  - destruct (roll_advanced_d20_letter fuel "d" (clean_modifier text) g
                (or_intror eq_refl)) as (r & o & Hr & Hrolls & _ & Hwhy).
    exists r. split; [exact Hr|].
    rewrite Hrolls. unfold d20_of_two.
    destruct (advantage o) eqn:E; [|now left].
    right. split; [|reflexivity].
    destruct (Hwhy eq_refl) as [Hc | Hin]; [discriminate|].
    apply in_normalize in Hin as (c0 & Hin & Hc0).
    apply in_clean_modifier in Hin as [-> | Hin]; [discriminate|].
    now apply (mentions_a_in text c0).
Qed.

Lemma advantage_commands_always_roll_witness :
  numerals_fit (lit "+2a") = true /\
  (exists r,
     advantage_command 0 (lit "+2a") (rng_of [4; 16])
     = Ok r (advance (advance (rng_of [4; 16]))) /\
     rolls r = [Z.max (d20 (rng_of [4; 16])) (d20 (advance (rng_of [4; 16])))]) /\
  (exists r,
     disadvantage_command 0 (lit "+2a") (rng_of [4; 16])
     = Ok r (advance (advance (rng_of [4; 16]))) /\
     (rolls r = [Z.min (d20 (rng_of [4; 16])) (d20 (advance (rng_of [4; 16])))] \/
      mentions_a (lit "+2a") = true /\
      rolls r = [Z.max (d20 (rng_of [4; 16])) (d20 (advance (rng_of [4; 16])))])).
Proof.
  split; [reflexivity|].
  apply (advantage_commands_always_roll 0 (lit "+2a") (rng_of [4; 16])).
  reflexivity.
Defined.
